(** * TLBCharacteristics: a shallow embedding of [main.cpp]

    The program measures the latency of pointer-chasing walks over a buffer
    for a grid of (length, stride) pairs, aggregates the timings of each
    cell with a trimmed mean, prints the grid as a table and looks for
    latency jumps along both axes.

    The embedding follows the source function by function.  C++ [int] and
    [long] values are integers in [Z] with the two's-complement wrap-around
    written out; [double] values are the kernel's binary64 floats; the
    working buffer is a block of cells addressed by element offset; a
    [std::string] is a list of characters.  What the program takes from
    outside (the random shuffle, the clock, the allocator, the decimal text
    of a double) is a parameter.  Operations the C++ standard leaves
    undefined on memory, vectors, division and conversions end a run with a
    fault; arithmetic that overflows wraps around.

    The definitions come first: the program, then the auxiliary definitions
    the statements use.  The properties follow. *)

From Stdlib Require Import ZArith List Lia Bool Floats Ascii.
From Stdlib Require String DecimalString.
From stdpp Require Import base option list sorting gmap.

Local Open Scope Z_scope.

(** ** Machine integers *)

Module Int.

Definition min_int : Z := - 2 ^ 31.
Definition max_int : Z := 2 ^ 31 - 1.
Definition min_long : Z := - 2 ^ 63.
Definition max_long : Z := 2 ^ 63 - 1.

(** Reduction of a mathematical integer to a signed [w]-bit one. *)
Definition wrap (w : Z) (z : Z) : Z :=
  (z + 2 ^ (w - 1)) mod 2 ^ w - 2 ^ (w - 1).

Definition wrap32 : Z -> Z := wrap 32.
Definition wrap64 : Z -> Z := wrap 64.

Definition is_int (z : Z) : Prop := min_int <= z <= max_int.
Definition is_long (z : Z) : Prop := min_long <= z <= max_long.

(** [int] arithmetic. *)
Definition add (a b : Z) : Z := wrap32 (a + b).
Definition mul (a b : Z) : Z := wrap32 (a * b).
Definition xor (a b : Z) : Z := Z.lxor a b.

(** [long] addition. *)
Definition ladd (a b : Z) : Z := wrap64 (a + b).

End Int.

(** ** Faults and the error monad

    Every operation whose behaviour the C++ standard leaves undefined ends
    the run with a [fault] that names it. *)

Inductive fault : Type :=
  | NullPointer
  | OutOfBounds (off : Z)
  | Uninitialised (off : Z)
  | BadIndex (i : Z)
  | DivisionByZero
  | BadConversion.

Inductive result (A : Type) : Type :=
  | Ok (a : A)
  | Fault (f : fault).

Arguments Ok {A} a.
Arguments Fault {A} f.

Definition bind {A B : Type} (r : result A) (k : A -> result B) : result B :=
  match r with
  | Ok a => k a
  | Fault f => Fault f
  end.

Notation "'do' x <- r ; k" := (bind r (fun x => k))
  (at level 10, x pattern, r at level 100, k at level 200).

Definition is_ok {A : Type} (r : result A) : Prop :=
  match r with Ok _ => True | Fault _ => False end.

(** [v[i]] on a [std::vector]: reading past the end is undefined. *)
Definition at_index {A : Type} (v : list A) (i : Z) : result A :=
  if i <? 0 then Fault (BadIndex i)
  else match v !! Z.to_nat i with
       | Some a => Ok a
       | None => Fault (BadIndex i)
       end.

(** ** The working buffer

    [memory_begin] is either the null pointer or the start of a block of
    [len] elements; [cells] holds the elements written so far (a fresh block
    is uninitialised). *)

Inductive pointer : Type :=
  | Null
  | Block (len : Z) (cells : gmap Z Z).

(** [*(memory_begin + off) = v]. *)
Definition store (m : pointer) (off v : Z) : result pointer :=
  match m with
  | Null => Fault NullPointer
  | Block len cells =>
      if (0 <=? off) && (off <? len) then Ok (Block len (<[off := v]> cells))
      else Fault (OutOfBounds off)
  end.

(** [*(memory_begin + off)]. *)
Definition load (m : pointer) (off : Z) : result Z :=
  match m with
  | Null => Fault NullPointer
  | Block len cells =>
      if (0 <=? off) && (off <? len) then
        match cells !! off with
        | Some v => Ok v
        | None => Fault (Uninitialised off)
        end
      else Fault (OutOfBounds off)
  end.

(** The offsets a block holds a value at. *)
Definition written (m : pointer) : gset Z :=
  match m with
  | Null => ∅
  | Block _ cells => dom cells
  end.

(** ** Cycle Generator: [create_cycle] *)

Definition mask : Z := 1454213.

(** The body of [for (int j = 0; j < length; ++j)], with [n] iterations left. *)
Fixpoint create_cycle_loop (n : nat) (j : Z) (indices : list Z) (stride : Z)
    (cur : Z) (m : pointer) : result pointer :=
  match n with
  | O => Ok m
  | S n' =>
      do idx <- at_index indices j;
      do m' <- store m (Int.mul cur stride) (Int.xor (Int.mul idx stride) mask);
      create_cycle_loop n' (j + 1) indices stride idx m'
  end.

(** [shuffle] is what [random_shuffle] does to the vector on this call. *)
Definition create_cycle (shuffle : list Z -> list Z) (memory_begin : pointer)
    (length stride : Z) : result pointer :=
  let indices := shuffle (seqZ 1 (length - 1)) ++ [0] in
  create_cycle_loop (Z.to_nat length) 0 indices stride 0 memory_begin.

(** ** Traversal Probe: [traverse] *)

Fixpoint traverse_loop (n : nat) (m : pointer) (cur sum : Z) : result Z :=
  match n with
  | O => Ok sum
  | S n' =>
      do v <- load m cur;
      let cur' := Int.xor v mask in
      traverse_loop n' m cur' (Int.add sum cur')
  end.

(** Returns the new value of the accumulator [sum]. *)
Definition traverse (length : Z) (memory_begin : pointer) (sum : Z) : result Z :=
  traverse_loop (Z.to_nat length) memory_begin 0 sum.

(** Following the stored pointers by logical slot: the value stored at slot
    [s] is decoded by XOR with the mask and division by the stride. *)
Definition next_slot (m : pointer) (stride s : Z) : result Z :=
  do v <- load m (s * stride);
  Ok (Z.quot (Int.xor v mask) stride).

(** The slots reached after 1, 2, ..., [n] steps from slot [s]. *)
Fixpoint follow (n : nat) (m : pointer) (stride s : Z) : result (list Z) :=
  match n with
  | O => Ok []
  | S n' =>
      do s' <- next_slot m stride s;
      do rest <- follow n' m stride s';
      Ok (s' :: rest)
  end.

(** ** The environment of one measurement

    What a (length, stride) cell takes from outside the program on one
    sweep: the permutation [random_shuffle] produces, whether
    [aligned_alloc] succeeds for the requested number of bytes, and the
    reading of the clock around the timed walk. *)

Record cell_env : Type := CellEnv {
  shuffle : list Z -> list Z;
  alloc_ok : Z -> bool;
  elapsed : Z
}.

(** [int / int]: undefined for a zero divisor and for [INT_MIN / -1]. *)
Definition int_div (a b : Z) : result Z :=
  if b =? 0 then Fault DivisionByZero
  else if (a =? Int.min_int) && (b =? -1) then Fault DivisionByZero
  else Ok (Z.quot a b).

(** [reinterpret_cast<int *>(aligned_alloc(pagesize, sizeof(int) * length))]:
    the size is computed in [size_t]; the result is null on failure. *)
Definition aligned_alloc (e : cell_env) (length : Z) : pointer :=
  let bytes := (4 * length) mod 2 ^ 64 in
  if alloc_ok e bytes then Block (bytes / 4) ∅ else Null.

(** [measure_time]: the walk of [16 * active_positions] steps between the two
    clock readings; returns the elapsed time and the accumulator. *)
Definition measure_time (e : cell_env) (active_positions : Z)
    (memory_begin : pointer) (sum : Z) : result (Z * Z) :=
  do sum' <- traverse (Int.mul 16 active_positions) memory_begin sum;
  Ok (elapsed e, sum').

(** ** Measurement Harness: [measure]

    The harness threads two pieces of state: whatever the callback
    [on_result] updates (of type [St]) and the accumulator [sum].  A run that
    faults keeps the state reached so far. *)

(** A counting loop [for (int i = start; ...; ++i)] with [n] iterations left. *)
Fixpoint for_loop {T : Type} (n : nat) (i : Z) (body : Z -> T -> T * result unit)
    (st : T) : T * result unit :=
  match n with
  | O => (st, Ok tt)
  | S n' =>
      match body i st with
      | (st', Ok _) => for_loop n' (i + 1) body st'
      | (st', Fault f) => (st', Fault f)
      end
  end.

Section Measure.

Context {St : Type}.
Variable env : Z -> Z -> cell_env.
Variable on_result : Z -> Z -> Z -> St -> St.

(** The body of the inner loop, for the cell ([i], [j]). *)
Definition measure_cell (stride_sizes : list Z) (length : Z) (i j : Z)
    (st : St * Z) : (St * Z) * result unit :=
  let '(cb, sum) := st in
  match
    (do gap <- at_index stride_sizes j;
     do active_positions <- int_div length gap;
     if active_positions <=? 4 then Ok None
     else
       let memory_begin := aligned_alloc (env i j) length in
       do m <- create_cycle (shuffle (env i j)) memory_begin active_positions gap;
       do sum1 <- traverse (Int.mul 32 active_positions) m sum;
       do (time, sum2) <- measure_time (env i j) active_positions m sum1;
       Ok (Some (Z.quot time active_positions, sum2)))
  with
  | Ok None => (st, Ok tt)
  | Ok (Some (t, sum')) => ((on_result i j t cb, sum'), Ok tt)
  | Fault f => (st, Fault f)
  end.

Definition measure_row (stride_sizes length_sizes : list Z) (i : Z)
    (st : St * Z) : (St * Z) * result unit :=
  match at_index length_sizes i with
  | Ok length =>
      for_loop (List.length stride_sizes) 0 (measure_cell stride_sizes length i) st
  | Fault f => (st, Fault f)
  end.

(** Returns the callback's state and, when the sweep completes, the value
    written to [dev_null]. *)
Definition measure (stride_sizes length_sizes : list Z) (cb : St) : St * result Z :=
  match for_loop (List.length length_sizes) 0
          (measure_row stride_sizes length_sizes) (cb, 0) with
  | ((cb', sum), Ok _) => (cb', Ok sum)
  | ((cb', _), Fault f) => (cb', Fault f)
  end.

End Measure.

(** The callback that only records its arguments, in the order of the calls. *)
Definition record_call (i j t : Z) (calls : list (Z * Z * Z)) : list (Z * Z * Z) :=
  calls ++ [(i, j, t)].

(** ** Doubles *)

Module Double.

(** The conversion of an integer to [double] (round to nearest even). *)
Definition of_Z (z : Z) : float :=
  SF2Prim (binary_normalize prec emax z 0 false).

(** The integer part of a finite double (truncation toward zero). *)
Definition truncate (x : float) : option Z :=
  match Prim2SF x with
  | S754_zero _ => Some 0
  | S754_finite s m e =>
      let mag := if 0 <=? e then Z.pos m * 2 ^ e else Z.pos m / 2 ^ (- e) in
      Some (if s then - mag else mag)
  | _ => None
  end.

(** The conversion of a double to [int]: undefined when the integer part
    is not an [int]. *)
Definition to_int (x : float) : result Z :=
  match truncate x with
  | Some z =>
      if (Int.min_int <=? z) && (z <=? Int.max_int) then Ok z
      else Fault BadConversion
  | None => Fault BadConversion
  end.

(** [a > b] on doubles. *)
Definition gt (a b : float) : bool := PrimFloat.ltb b a.

(** The doubles nearest to the decimal literals of the source. *)
Definition lit_0_8 : float := 0x1.999999999999ap-1%float.
Definition lit_1_1 : float := 0x1.199999999999ap+0%float.
Definition lit_1_2 : float := 0x1.3333333333333p+0%float.

End Double.

(** ** Trial Aggregator: [average] *)

(** [std::sort] on a vector of [long]: the ascending rearrangement. *)
Fixpoint insert_sorted (x : Z) (l : list Z) : list Z :=
  match l with
  | [] => [x]
  | y :: l' => if x <=? y then x :: l else y :: insert_sorted x l'
  end.

Definition std_sort (values : list Z) : list Z :=
  foldr insert_sorted [] values.

(** [for (int i = begin; i < end; i++) sum += values[i]], [n] iterations left. *)
Fixpoint sum_loop (n : nat) (i : Z) (values : list Z) (sum : Z) : result Z :=
  match n with
  | O => Ok sum
  | S n' =>
      do v <- at_index values i;
      sum_loop n' (i + 1) values (Int.ladd sum v)
  end.

(** The index [end]: [values.size() * 0.8] converted to [int]. *)
Definition end_index (size : Z) : result Z :=
  Double.to_int (PrimFloat.mul (Double.of_Z size) Double.lit_0_8).

(** Returns the vector as the call leaves it, and the value returned. *)
Definition average (values : list Z) : list Z * result float :=
  match values with
  | [] => (values, Ok PrimFloat.nan)
  | _ :: _ =>
      let values := std_sort values in
      let begin := 0 in
      (values,
       do end_ <- end_index (Z.of_nat (List.length values));
       do sum <- sum_loop (Z.to_nat (end_ - begin)) begin values 0;
       Ok (PrimFloat.div (Double.of_Z sum) (Double.of_Z (end_ - begin))))
  end.

(** ** Breakpoint Heuristics *)

Abbreviation grid := (list (list float)).

(** [av_result[i][j]]. *)
Definition cell (av_result : grid) (i j : Z) : result float :=
  do row <- at_index av_result i;
  at_index row j.

Fixpoint find_cache_length_loop (n : nat) (i : Z) (av_result : grid) : result Z :=
  match n with
  | O => Ok (-1)
  | S n' =>
      do cur <- cell av_result i 0;
      do prev <- cell av_result (i - 1) 0;
      if Double.gt cur (PrimFloat.mul prev Double.lit_1_2) then Ok (i - 1)
      else find_cache_length_loop n' (i + 1) av_result
  end.

Definition find_cache_length (lengths : Z) (av_result : grid) : result Z :=
  find_cache_length_loop (Z.to_nat (lengths - 1)) 1 av_result.

Fixpoint find_cache_line_length_loop (n : nat) (i : Z) (cache_length_idx : Z)
    (av_result : grid) : result Z :=
  match n with
  | O => Ok (-1)
  | S n' =>
      do cur <- cell av_result (Int.add cache_length_idx 1) i;
      do prev <- cell av_result (Int.add cache_length_idx 1) (i - 1);
      if Double.gt cur (PrimFloat.mul prev Double.lit_1_1) then Ok i
      else find_cache_line_length_loop n' (i + 1) cache_length_idx av_result
  end.

Definition find_cache_line_length (cache_length_idx strides : Z)
    (av_result : grid) : result Z :=
  find_cache_line_length_loop (Z.to_nat (strides - 1)) 1 cache_length_idx av_result.

(** ** [main] *)

(** [while (v.back() <= limit) v.push_back(v.back() * 2)]; [None] when the
    fuel runs out.  The vector is never empty here. *)
Fixpoint doubling (fuel : nat) (limit : Z) (v : list Z) : option (list Z) :=
  match fuel with
  | O => None
  | S fuel' =>
      let back := default 0 (last v) in
      if back <=? limit then doubling fuel' limit (v ++ [Int.mul back 2])
      else Some v
  end.

Definition stride_sizes_of (fuel : nat) : option (list Z) := doubling fuel 128 [1].
Definition length_sizes_of (fuel : nat) : option (list Z) :=
  doubling fuel (64 * 1024) [256].

(** The number of sweeps: [for (int i = 0; i < 100; ++i) measure(...)]. *)
Definition trials : nat := 100.

Abbreviation samples := (list (list (list Z))).

(** The callback of [main]: [results[i][j].push_back(time)]. *)
Definition push_back_time (i j time : Z) (results : samples) : samples :=
  alter (alter (fun v => v ++ [time]) (Z.to_nat j)) (Z.to_nat i) results.

(** One sweep of the grid, on the environment of trial [t]. *)
Definition sweep (env : Z -> Z -> Z -> cell_env) (stride_sizes length_sizes : list Z)
    (t : Z) (results : samples) : samples * result unit :=
  match measure (env t) push_back_time stride_sizes length_sizes results with
  | (results', Ok _) => (results', Ok tt)
  | (results', Fault f) => (results', Fault f)
  end.

Definition collect (env : Z -> Z -> Z -> cell_env) (stride_sizes length_sizes : list Z)
    : samples * result unit :=
  let lengths := List.length length_sizes in
  let strides := List.length stride_sizes in
  for_loop trials 0 (sweep env stride_sizes length_sizes)
    (replicate lengths (replicate strides [])).

Fixpoint map_result {A B : Type} (f : A -> result B) (l : list A) : result (list B) :=
  match l with
  | [] => Ok []
  | a :: l' =>
      do b <- f a;
      do bs <- map_result f l';
      Ok (b :: bs)
  end.

(** [av_result[i][j] = average(results[i][j])] for every cell. *)
Definition aggregate (results : samples) : result grid :=
  map_result (map_result (fun values => (average values).2)) results.

(** The two lines [main] prints after the table. *)
Inductive capacity_line : Type :=
  | CacheLengthNotFound
  | CacheLength (kilobytes : Z).

Inductive line_size_line : Type :=
  | CacheLineLengthNotFound
  | CacheLineLength (bytes : Z).

(** [x * sizeof(int)], computed in [size_t]. *)
Definition times_sizeof_int (x : Z) : Z := (x mod 2 ^ 64 * 4) mod 2 ^ 64.

(** Lines 189 to 199 of [main]. *)
Definition report (stride_sizes length_sizes : list Z) (av_result : grid)
    : result (capacity_line * line_size_line) :=
  let strides := Z.of_nat (List.length stride_sizes) in
  do cache_length_idx <- find_cache_length strides av_result;
  do first <-
    (if cache_length_idx =? -1 then Ok CacheLengthNotFound
     else do len <- at_index length_sizes cache_length_idx;
          Ok (CacheLength (times_sizeof_int len / 1024)));
  do cache_line_length_idx <- find_cache_line_length cache_length_idx strides av_result;
  do second <-
    (if cache_line_length_idx =? -1 then Ok CacheLineLengthNotFound
     else do stride <- at_index stride_sizes cache_line_length_idx;
          Ok (CacheLineLength (times_sizeof_int stride)));
  Ok (first, second).

(** ** Reporter: [print_table]

    A [std::string] is a list of characters.  [std::to_string] of a
    [double] is left to the caller as [to_string_double]. *)

Abbreviation text := (list ascii).

(** [std::to_string] of a [size_t]: its decimal digits. *)
Definition to_string_size (n : Z) : text :=
  String.list_ascii_of_string
    (DecimalString.NilZero.string_of_uint (N.to_uint (Z.to_N n))).

(** [str.find(c)]: the index of the first [c], if there is one. *)
Fixpoint find_char (c : ascii) (str : text) : option nat :=
  match str with
  | [] => None
  | x :: str' => if Ascii.eqb x c then Some 0%nat else S <$> find_char c str'
  end.

(** The text of a cell: [str.substr(0, dot_idx + 2)], where [dot_idx] is
    the index of the first dot, or [str.size() - 2] (in [size_t]) when
    there is none. *)
Definition format_cell (str : text) : text :=
  let dot_idx :=
    match find_char "."%char str with
    | Some k => Z.of_nat k
    | None => (Z.of_nat (List.length str) - 2) mod 2 ^ 64
    end in
  take (Z.to_nat ((dot_idx + 2) mod 2 ^ 64)) str.

(** The first row of the table: an empty corner, then the lengths in
    kilobytes. *)
Definition header_row (length_sizes : list Z) : list text :=
  [] :: map (fun length =>
               to_string_size (times_sizeof_int length / 1024) ++ ["K"; "B"]%char)
          length_sizes.

(** The row of stride [i]: the stride in bytes, then the cell of every
    length, read as [av_result[j][i]]. *)
Definition body_row (to_string_double : float -> text) (av_result : grid)
    (lengths : nat) (i stride : Z) : result (list text) :=
  do cells <-
    map_result (fun j => do x <- cell av_result j i;
                         Ok (format_cell (to_string_double x)))
      (seqZ 0 (Z.of_nat lengths));
  Ok (to_string_size (times_sizeof_int stride) :: cells).

(** The table before padding. *)
Definition table_cells (to_string_double : float -> text)
    (stride_sizes length_sizes : list Z) (av_result : grid)
    : result (list (list text)) :=
  do rows <-
    map_result (fun p => body_row to_string_double av_result
                           (List.length length_sizes) p.1 p.2)
      (zip (seqZ 0 (Z.of_nat (List.length stride_sizes))) stride_sizes);
  Ok (header_row length_sizes :: rows).

(** The longest cell, and a cell padded with spaces to a width. *)
Definition max_length (output : list (list text)) : nat :=
  foldl (fun m line => foldl (fun m cell => Nat.max m (List.length cell)) m line)
    0%nat output.

Definition pad (width : nat) (cell : text) : text :=
  cell ++ replicate (width - List.length cell) " "%char.

(** One printed line: every cell followed by [" | "]. *)
Definition print_line (line : list text) : text :=
  flat_map (fun cell => cell ++ [" "; "|"; " "]%char) line.

(** The lines [print_table] writes, each ended by [endl]. *)
Definition print_table (to_string_double : float -> text)
    (stride_sizes length_sizes : list Z) (av_result : grid) : result (list text) :=
  do output <- table_cells to_string_double stride_sizes length_sizes av_result;
  let width := max_length output in
  Ok (map (fun line => print_line (map (pad width) line)) output).

(** ** [main]

    The string literals of [main]. *)
Module Message.
Import String.

Definition banner : string := "Expected to finish in 20 seconds"%string.
Definition results_header : string := "Results: stride \ memory length"%string.
Definition capacity_not_found : string := "Cache length not found"%string.
Definition capacity_found : string := "Cache length: "%string.
Definition kilobytes : string := "KB"%string.
Definition line_size_not_found : string := "Cache line length not found"%string.
Definition line_size_found : string := "Cache line length: "%string.
Definition trailer : string :=
  "Cache associativity calculation not implemented"%string.

End Message.

Definition literal (s : String.string) : text := String.list_ascii_of_string s.

(** The text of the two lines printed after the table, and everything the
    run writes to [cout], line by line. *)
Definition capacity_text (first : capacity_line) : text :=
  match first with
  | CacheLengthNotFound => literal Message.capacity_not_found
  | CacheLength kilobytes =>
      literal Message.capacity_found ++ to_string_size kilobytes
      ++ literal Message.kilobytes
  end.

Definition line_size_text (second : line_size_line) : text :=
  match second with
  | CacheLineLengthNotFound => literal Message.line_size_not_found
  | CacheLineLength bytes => literal Message.line_size_found ++ to_string_size bytes
  end.

Definition output_lines (table_lines : list text)
    (lines : capacity_line * line_size_line) : list text :=
  [literal Message.banner; literal Message.results_header]
  ++ table_lines
  ++ [capacity_text lines.1; line_size_text lines.2; literal Message.trailer].

(** The whole run: the two lists, the trials, the aggregation, the table
    and the two scans.  Returns what was written to [cout], the aggregated
    grid and the two lines that follow the table. *)
Definition main (to_string_double : float -> text) (fuel : nat)
    (env : Z -> Z -> Z -> cell_env)
    : option (result (list text * grid * (capacity_line * line_size_line))) :=
  match stride_sizes_of fuel, length_sizes_of fuel with
  | Some stride_sizes, Some length_sizes =>
      Some
        match collect env stride_sizes length_sizes with
        | (results, Ok _) =>
            do av_result <- aggregate results;
            do table_lines <-
              print_table to_string_double stride_sizes length_sizes av_result;
            do lines <- report stride_sizes length_sizes av_result;
            Ok (output_lines table_lines lines, av_result, lines)
        | (_, Fault f) => Fault f
        end
  | _, _ => None
  end.

(** ** Auxiliary definitions for the proofs *)

(** [create_cycle]'s loop as a recursion on the entries of [indices] still
    to be read. *)
Fixpoint write_chain (stride cur : Z) (l : list Z) (m : pointer) : result pointer :=
  match l with
  | [] => Ok m
  | idx :: l' =>
      do m' <- store m (Int.mul cur stride) (Int.xor (Int.mul idx stride) mask);
      write_chain stride idx l' m'
  end.

(** The slots [write_chain] writes at: [cur] and all of [l] but its last. *)
Definition sources (cur : Z) (l : list Z) : list Z := take (List.length l) (cur :: l).

(** The offsets [traverse]'s loop reads, in order (a faulting read included). *)
Fixpoint traverse_reads (n : nat) (m : pointer) (cur : Z) : list Z :=
  match n with
  | O => []
  | S n' =>
      cur :: match load m cur with
             | Ok v => traverse_reads n' m (Int.xor v mask)
             | Fault _ => []
             end
  end.

(** The recorded calls all come from a cell whose quotient
    exceeds 4. *)
Definition measured_only (stride_sizes length_sizes : list Z)
    (calls : list (Z * Z * Z)) : Prop :=
  forall i j t, (i, j, t) ∈ calls ->
    exists length stride,
      at_index length_sizes i = Ok length /\
      at_index stride_sizes j = Ok stride /\
      4 < Z.quot length stride.

(** The call a cell makes on a sweep that completes, if it makes one, and
    the calls of the whole sweep in the order of the loops. *)
Definition cell_call (env : Z -> Z -> cell_env) (stride_sizes length_sizes : list Z)
    (i j : Z) : list (Z * Z * Z) :=
  match at_index length_sizes i, at_index stride_sizes j with
  | Ok length, Ok gap =>
      if 4 <? Z.quot length gap
      then [(i, j, Z.quot (elapsed (env i j)) (Z.quot length gap))]
      else []
  | _, _ => []
  end.

Definition row_calls (env : Z -> Z -> cell_env) (stride_sizes length_sizes : list Z)
    (i : Z) : list (Z * Z * Z) :=
  flat_map (cell_call env stride_sizes length_sizes i)
    (seqZ 0 (Z.of_nat (List.length stride_sizes))).

Definition sweep_calls (env : Z -> Z -> cell_env) (stride_sizes length_sizes : list Z)
    : list (Z * Z * Z) :=
  flat_map (row_calls env stride_sizes length_sizes)
    (seqZ 0 (Z.of_nat (List.length length_sizes))).

(** Applying a callback to a list of calls, oldest first. *)
Definition replay {St : Type} (on_result : Z -> Z -> Z -> St -> St)
    (calls : list (Z * Z * Z)) (cb : St) : St :=
  foldl (fun cb c => on_result c.1.1 c.1.2 c.2 cb) cb calls.

(** An environment in which every shuffle permutes and every allocation
    succeeds, and a grid of positive [int] sizes. *)
Definition well_behaved (e : cell_env) : Prop :=
  (forall l, shuffle e l ≡ₚ l) /\ (forall bytes, alloc_ok e bytes = true).

Definition positive_ints (sizes : list Z) : Prop :=
  Forall (fun s => 1 <= s <= Int.max_int) sizes.

(** [results[i][j]], empty outside the table. *)
Definition samples_of (results : samples) (i j : Z) : list Z :=
  match at_index results i with
  | Ok row => match at_index row j with Ok v => v | Fault _ => [] end
  | Fault _ => []
  end.

(** [results[i][j]] as an option, and the times a list of calls holds for
    the cell ([i], [j]). *)
Definition cell_opt (results : samples) (i j : Z) : option (list Z) :=
  results !! Z.to_nat i ≫= fun row => row !! Z.to_nat j.

Definition times_for (i j : Z) (calls : list (Z * Z * Z)) : list Z :=
  omap (fun c => if decide (c.1.1 = i /\ c.1.2 = j) then Some c.2 else None) calls.

(** A table of [rows] rows of [cols] cells each. *)
Definition table {A : Type} (rows cols : nat) (t : list (list A)) : Prop :=
  List.length t = rows /\ Forall (fun row => List.length row = cols) t.

(** The exact comparison of the value of a double with an integer: a
    finite double of sign [s], mantissa [m] and exponent [e] is the number
    [m * 2 ^ e], negated when [s] is set; infinities and NaN compare with
    nothing. *)
Definition value_compare (x : float) (z : Z) : option comparison :=
  match Prim2SF x with
  | S754_zero _ => Some (0 ?= z)
  | S754_finite s m e =>
      let v := if s then Z.neg m else Z.pos m in
      Some (if 0 <=? e then v * 2 ^ e ?= z else v ?= z * 2 ^ (- e))
  | _ => None
  end.

(** The value of [x] is at least [z], and at most [z]. *)
Definition value_ge (x : float) (z : Z) : bool :=
  match value_compare x z with
  | Some (Eq | Gt) => true
  | _ => false
  end.

Definition value_le (x : float) (z : Z) : bool :=
  match value_compare x z with
  | Some (Eq | Lt) => true
  | _ => false
  end.

(** The exact sum of a list of integers. *)
Definition total (l : list Z) : Z := foldr Z.add 0 l.

(** Whether the latency jumps by more than the threshold from length
    [i - 1] to length [i] at the smallest stride, and from stride [j - 1] to
    stride [j] in a row. *)
Definition length_jump (av_result : grid) (i : Z) : bool :=
  match cell av_result i 0, cell av_result (i - 1) 0 with
  | Ok cur, Ok prev => Double.gt cur (PrimFloat.mul prev Double.lit_1_2)
  | _, _ => false
  end.

Definition stride_jump (av_result : grid) (row j : Z) : bool :=
  match cell av_result row j, cell av_result row (j - 1) with
  | Ok cur, Ok prev => Double.gt cur (PrimFloat.mul prev Double.lit_1_1)
  | _, _ => false
  end.

(** The lists [main] builds. *)
Definition main_stride_sizes : list Z := [1; 2; 4; 8; 16; 32; 64; 128; 256].
Definition main_length_sizes : list Z :=
  [256; 512; 1024; 2048; 4096; 8192; 16384; 32768; 65536; 131072].

(** Two aggregated grids for these lists; skipped cells hold NaN.  In the
    first every measured cell holds 10 except those of the last length,
    which hold 13.  In the second every measured cell holds 10 except those
    of the first length at strides above 1, which hold 12. *)
Definition late_jump_grid : grid :=
  map (fun length =>
         map (fun stride =>
                if 4 <? Z.quot length stride
                then (if length =? 131072 then 13%float else 10%float)
                else PrimFloat.nan)
           main_stride_sizes)
    main_length_sizes.

Definition first_row_jump_grid : grid :=
  map (fun length =>
         map (fun stride =>
                if 4 <? Z.quot length stride
                then (if (length =? 256) && (1 <? stride) then 12%float else 10%float)
                else PrimFloat.nan)
           main_stride_sizes)
    main_length_sizes.

(** What the line-size line says about a row: not found when the row has
    no jump above 1.1 among the strides, the stride of the first jump (in
    bytes) otherwise. *)
Definition line_size_reported (stride_sizes : list Z) (av_result : grid) (row : Z)
    (second : line_size_line) : Prop :=
  (second = CacheLineLengthNotFound /\
   forall j, 1 <= j < Z.of_nat (List.length stride_sizes) ->
     stride_jump av_result row j = false) \/
  (exists j stride,
     1 <= j < Z.of_nat (List.length stride_sizes) /\
     stride_jump av_result row j = true /\
     (forall k, 1 <= k < j -> stride_jump av_result row k = false) /\
     at_index stride_sizes j = Ok stride /\
     second = CacheLineLength (times_sizeof_int stride)).

(** What a cell adds to the accumulator on a sweep that completes: the
    offsets met on the 32 + 16 walks of its cycle (nothing when the cell is
    skipped), and the sums over a row and over the grid. *)
Definition cell_sum (length gap : Z) : Z :=
  let active_positions := Z.quot length gap in
  if 4 <? active_positions
  then 48 * (gap * (active_positions * (active_positions - 1) / 2))
  else 0.

Definition row_sum (stride_sizes : list Z) (length : Z) : Z :=
  total (map (cell_sum length) stride_sizes).

Definition sweep_sum (stride_sizes length_sizes : list Z) : Z :=
  total (map (row_sum stride_sizes) length_sizes).

(** Sizes for which [32 * active_positions] fits in an [int]. *)
Definition small_ints (sizes : list Z) : Prop :=
  Forall (fun s => 1 <= s <= 2 ^ 26 - 1) sizes.

(** What a printed line shows in column [col] when cells are [width]
    characters wide: each column takes [width + 3] characters, the cell and
    then the separator. *)
Definition printed_cell (width col : nat) (line : text) : text :=
  take width (drop (col * (width + 3)) line).

Definition printed_separator (width col : nat) (line : text) : text :=
  take 3 (drop (col * (width + 3) + width) line).

(** * Properties *)

(** ** Machine integers and vectors *)

Lemma wrap32_id z : Int.is_int z -> Int.wrap32 z = z.
Proof.
  unfold Int.is_int, Int.min_int, Int.max_int, Int.wrap32, Int.wrap. intros H.
  rewrite Z.mod_small; lia.
Qed.

Lemma wrap64_id z : Int.is_long z -> Int.wrap64 z = z.
Proof.
  unfold Int.is_long, Int.min_long, Int.max_long, Int.wrap64, Int.wrap. intros H.
  rewrite Z.mod_small; lia.
Qed.

Lemma wrap32_range z : Int.is_int (Int.wrap32 z).
Proof.
  unfold Int.is_int, Int.min_int, Int.max_int, Int.wrap32, Int.wrap.
  pose proof (Z.mod_pos_bound (z + 2 ^ (32 - 1)) (2 ^ 32) ltac:(lia)). lia.
Qed.

Lemma xor_mask_twice x : Int.xor (Int.xor x mask) mask = x.
Proof.
  unfold Int.xor. rewrite Z.lxor_assoc, Z.lxor_nilpotent. apply Z.lxor_0_r.
Qed.

Lemma at_index_lookup {A} (v : list A) (i : nat) :
  at_index v (Z.of_nat i)
  = match v !! i with Some a => Ok a | None => Fault (BadIndex (Z.of_nat i)) end.
Proof.
  unfold at_index. destruct (Z.ltb_spec (Z.of_nat i) 0); [lia|].
  by rewrite Nat2Z.id.
Qed.

Lemma at_index_Ok {A} (v : list A) (i : Z) (a : A) :
  at_index v i = Ok a <-> 0 <= i /\ v !! Z.to_nat i = Some a.
Proof.
  unfold at_index. destruct (Z.ltb_spec i 0).
  - split; [discriminate | lia].
  - destruct (v !! Z.to_nat i); split; intros; try discriminate;
      try (split; [lia | congruence]); destruct_and?; congruence.
Qed.

(** ** Cycle Generator *)

Lemma create_cycle_loop_chain stride indices : forall n j cur m,
  (j + n <= length indices)%nat ->
  create_cycle_loop n (Z.of_nat j) indices stride cur m
  = write_chain stride cur (take n (drop j indices)) m.
Proof.
  induction n as [|n IH]; intros j cur m Hlen; simpl; [done|].
  rewrite at_index_lookup.
  destruct (indices !! j) as [idx|] eqn:E.
  - rewrite (drop_S _ _ _ E). simpl. destruct (store _ _ _); simpl; [|done].
    replace (Z.of_nat j + 1) with (Z.of_nat (S j)) by lia. apply IH. lia.
  - apply lookup_ge_None in E. lia.
Qed.

Lemma sources_cons cur x l : sources cur (x :: l) = cur :: sources x l.
Proof. reflexivity. Qed.

Lemma sources_snoc cur l x : sources cur (l ++ [x]) = cur :: l.
Proof.
  unfold sources. rewrite length_app. simpl.
  change (cur :: l ++ [x]) with ((cur :: l) ++ [x]).
  apply take_app_length'. simpl. lia.
Qed.

Section Chain.

Variables stride len L : Z.
Hypothesis Hstride : 1 <= stride.
Hypothesis Hfit : (L - 1) * stride <= Int.max_int.
Hypothesis Hroom : (L - 1) * stride < len.

Lemma slot_offset p : 0 <= p < L -> 0 <= p * stride <= (L - 1) * stride.
Proof. intros. nia. Qed.

Lemma mul_slot p : 0 <= p < L -> Int.mul p stride = p * stride.
Proof.
  intros Hp. unfold Int.mul. apply wrap32_id.
  pose proof (slot_offset p Hp). unfold Int.is_int, Int.min_int. lia.
Qed.

Lemma offset_inj p q : p * stride = q * stride -> p = q.
Proof. intros. nia. Qed.

(** What [write_chain] leaves in the block: every slot written holds the
    encoded index of its successor, and nothing else changes. *)
Lemma write_chain_spec : forall l cur cells,
  (forall p, p ∈ sources cur l -> 0 <= p < L) ->
  NoDup (sources cur l) ->
  exists cells',
    write_chain stride cur l (Block len cells) = Ok (Block len cells') /\
    (forall pre a b post, cur :: l = pre ++ a :: b :: post ->
       cells' !! (a * stride) = Some (Int.xor (Int.mul b stride) mask)) /\
    (forall o, (forall p, p ∈ sources cur l -> o <> p * stride) ->
       cells' !! o = cells !! o).
Proof.
  induction l as [|x l IH]; intros cur cells Hin Hnd.
  - exists cells. split; [done|]. split; [|done].
    intros pre a b post E. apply (f_equal length) in E.
    rewrite length_app in E. simpl in E. lia.
  - rewrite sources_cons in Hin, Hnd. apply NoDup_cons in Hnd as [Hcur Hnd].
    assert (Hc : 0 <= cur < L) by (apply Hin; left).
    destruct (IH x (<[cur * stride := Int.xor (Int.mul x stride) mask]> cells))
      as (cells' & Hrun & Hedge & Hframe); [by intros; apply Hin; right | done |].
    exists cells'. split; [|split].
    + simpl. rewrite (mul_slot cur Hc). unfold store.
      pose proof (slot_offset cur Hc).
      destruct (Z.leb_spec 0 (cur * stride)); [|lia].
      destruct (Z.ltb_spec (cur * stride) len); [|lia]. simpl. exact Hrun.
    + intros pre a b post E. destruct pre as [|z pre]; simpl in E.
      * injection E as -> ->. rewrite Hframe; [apply lookup_insert_eq|].
        intros p Hp Heq. apply offset_inj in Heq. by subst.
      * injection E as -> E. by eapply Hedge.
    + intros o Ho. rewrite sources_cons in Ho. rewrite Hframe.
      * apply lookup_insert_ne. intros Heq. by eapply (Ho cur); [left|].
      * intros p Hp. apply Ho. by right.
Qed.

(** Walking the block [write_chain] filled visits the entries of the chain
    in order. *)
Lemma follow_chain (cells' : gmap Z Z) (full : list Z) :
  (forall p, p ∈ full -> 0 <= p < L) ->
  (forall pre a b post, full = pre ++ a :: b :: post ->
     cells' !! (a * stride) = Some (Int.xor (Int.mul b stride) mask)) ->
  forall l cur pre, full = pre ++ cur :: l ->
  follow (length l) (Block len cells') stride cur = Ok l.
Proof.
  intros Hslots Hedge. induction l as [|b l IH]; intros cur pre E; [done|].
  assert (Hc : 0 <= cur < L).
  { apply Hslots. rewrite E. apply elem_of_app. right. left. }
  assert (Hb : 0 <= b < L).
  { apply Hslots. rewrite E. apply elem_of_app. right. right. left. }
  simpl. unfold next_slot, load.
  pose proof (slot_offset cur Hc).
  destruct (Z.leb_spec 0 (cur * stride)); [|lia].
  destruct (Z.ltb_spec (cur * stride) len); [|lia]. simpl.
  rewrite (Hedge pre cur b l E). simpl.
  rewrite xor_mask_twice, (mul_slot b Hb), Z.quot_mul by lia.
  rewrite (IH b (pre ++ [cur])); [done|].
  by rewrite <- app_assoc.
Qed.

(** A set of offsets closed under "decode the stored value" is never left
    by [traverse]'s loop, whatever the number of steps. *)
Lemma traverse_loop_closed (cells' : gmap Z Z) (inside : Z -> Prop) :
  (forall o, inside o ->
     0 <= o < len /\ exists v, cells' !! o = Some v /\ inside (Int.xor v mask)) ->
  forall n cur sum, inside cur ->
    is_ok (traverse_loop n (Block len cells') cur sum) /\
    Forall inside (traverse_reads n (Block len cells') cur).
Proof.
  intros Hclosed. induction n as [|n IH]; intros cur sum Hcur; simpl.
  - split; [done | constructor].
  - destruct (Hclosed cur Hcur) as (Hrange & v & Hv & Hnext).
    destruct (Z.leb_spec 0 cur); [|lia]. destruct (Z.ltb_spec cur len); [|lia].
    simpl. rewrite Hv. simpl.
    destruct (IH (Int.xor v mask) (Int.add sum (Int.xor v mask)) Hnext).
    split; [done | by constructor].
Qed.

End Chain.

Section CreateCycle.

Variable shuffle : list Z -> list Z.
Hypothesis shuffle_perm : forall l, shuffle l ≡ₚ l.

Variables length stride len : Z.
Hypothesis Hlength : 1 <= length.
Hypothesis Hstride : 1 <= stride.
Hypothesis Hfit : (length - 1) * stride <= Int.max_int.
Hypothesis Hroom : (length - 1) * stride < len.

Let perm : list Z := shuffle (seqZ 1 (length - 1)).

Lemma perm_slots p : p ∈ 0 :: perm -> 0 <= p < length.
Proof.
  intros [->|Hp]%elem_of_cons; [lia|].
  unfold perm in Hp. rewrite shuffle_perm in Hp.
  apply elem_of_seqZ in Hp. lia.
Qed.

Lemma perm_NoDup : NoDup (0 :: perm).
Proof.
  apply NoDup_cons. unfold perm. rewrite !shuffle_perm. split.
  - intros H%elem_of_seqZ. lia.
  - apply NoDup_seqZ.
Qed.

Lemma perm_length : List.length (perm ++ [0]) = Z.to_nat length.
Proof.
  unfold perm. rewrite length_app, shuffle_perm, length_seqZ. simpl. lia.
Qed.

Lemma perm_all_slots : perm ++ [0] ≡ₚ seqZ 0 length.
Proof.
  rewrite <- Permutation_cons_append. unfold perm. rewrite shuffle_perm.
  rewrite (seqZ_cons 0 length) by lia. by replace (Z.succ 0) with 1 by lia.
Qed.

(** [create_cycle] completes, and in the block it leaves every slot of the
    chain [0, indices[0], indices[1], ...] holds the encoded index of the
    next one; cells that are no slot's are left alone. *)
Lemma create_cycle_spec (cells : gmap Z Z) :
  exists cells',
    create_cycle shuffle (Block len cells) length stride = Ok (Block len cells') /\
    (forall pre a b post, 0 :: perm ++ [0] = pre ++ a :: b :: post ->
       cells' !! (a * stride) = Some (Int.xor (Int.mul b stride) mask)) /\
    (forall o, (forall p, 0 <= p < length -> o <> p * stride) ->
       cells' !! o = cells !! o).
Proof.
  destruct (write_chain_spec stride len length Hstride Hfit Hroom
              (perm ++ [0]) 0 cells) as (cells' & Hrun & Hedge & Hframe).
  { rewrite sources_snoc. apply perm_slots. }
  { rewrite sources_snoc. apply perm_NoDup. }
  exists cells'. split; [|split].
  - unfold create_cycle. fold perm.
    rewrite (create_cycle_loop_chain stride (perm ++ [0]) (Z.to_nat length) 0%nat)
      by (rewrite perm_length; lia).
    rewrite drop_0, take_ge by (rewrite perm_length; lia). exact Hrun.
  - exact Hedge.
  - intros o Ho. apply Hframe. intros p Hp. apply Ho.
    rewrite sources_snoc in Hp. by apply perm_slots.
Qed.

(** Every slot's cell holds the encoded offset of another slot. *)
Lemma create_cycle_closed (cells cells' : gmap Z Z) :
  create_cycle shuffle (Block len cells) length stride = Ok (Block len cells') ->
  forall o, (exists p, 0 <= p < length /\ o = p * stride) ->
    0 <= o < len /\
    exists v, cells' !! o = Some v /\
      exists q, 0 <= q < length /\ Int.xor v mask = q * stride.
Proof.
  intros Hrun o (p & Hp & ->).
  destruct (create_cycle_spec cells) as (cells'' & Hrun' & Hedge & _).
  rewrite Hrun in Hrun'. injection Hrun' as <-.
  split. { pose proof (slot_offset stride length Hstride p Hp). lia. }
  assert (Hin : p ∈ 0 :: perm).
  { destruct (decide (p = 0)) as [->|]; [left|right].
    unfold perm. rewrite shuffle_perm. apply elem_of_seqZ. lia. }
  apply list_elem_of_split in Hin as (l1 & l2 & Hsplit).
  assert (Hnext : exists b post, l2 ++ [0] = b :: post).
  { destruct l2; simpl; eauto. }
  destruct Hnext as (b & post & Hl2).
  assert (Hb : 0 <= b < length).
  { apply perm_slots. assert (Hbin : b ∈ l2 ++ [0]) by (rewrite Hl2; left).
    apply elem_of_app in Hbin as [Hbin|Hbin].
    - rewrite Hsplit. apply elem_of_app. right. by right.
    - apply list_elem_of_singleton in Hbin as ->. left. }
  exists (Int.xor (Int.mul b stride) mask). split.
  - apply (Hedge l1 p b post).
    change (0 :: perm ++ [0]) with ((0 :: perm) ++ [0]).
    by rewrite Hsplit, <- app_assoc, <- app_comm_cons, Hl2.
  - exists b. split; [done|].
    by rewrite xor_mask_twice, (mul_slot stride length Hstride Hfit b Hb).
Qed.

End CreateCycle.

(** C1 (amended).  For every [length >= 1] and [stride >= 1] whose largest
    offset [(length - 1) * stride] fits in an [int] and in the buffer, and
    for every permutation the shuffle may produce, [create_cycle] completes,
    and following the stored pointers from slot 0 (decoding by XOR with the
    mask and division by the stride) for [length] steps visits every slot of
    [0 .. length - 1] exactly once and is back at slot 0 on the last step. *)
Theorem C1_create_cycle_single_cycle
    (shuffle : list Z -> list Z) (length stride len : Z) (cells : gmap Z Z) :
  (forall l, shuffle l ≡ₚ l) ->
  1 <= length -> 1 <= stride ->
  (length - 1) * stride <= Int.max_int ->
  (length - 1) * stride < len ->
  exists m' walk,
    create_cycle shuffle (Block len cells) length stride = Ok m' /\
    follow (Z.to_nat length) m' stride 0 = Ok walk /\
    walk ≡ₚ seqZ 0 length /\ NoDup walk /\ last walk = Some 0.
Proof.
  intros Hperm Hlength Hstride Hfit Hroom.
  destruct (create_cycle_spec shuffle Hperm length stride len
              Hlength Hstride Hfit Hroom cells) as (cells' & Hrun & Hedge & _).
  set (perm := shuffle (seqZ 1 (length - 1))) in *.
  exists (Block len cells'), (perm ++ [0]). split; [done|].
  assert (Hall : perm ++ [0] ≡ₚ seqZ 0 length)
    by (apply perm_all_slots; assumption).
  split; [|split; [done|split]].
  - rewrite <- (perm_length shuffle Hperm length stride Hlength Hstride). fold perm.
    apply (follow_chain stride len length Hstride Hfit Hroom cells'
             (0 :: perm ++ [0])) with (pre := []); [|done|done].
    intros p [->|Hp]%elem_of_cons; [lia|].
    rewrite Hall in Hp. apply elem_of_seqZ in Hp. lia.
  - rewrite Hall. apply NoDup_seqZ.
  - apply last_snoc.
Qed.

Lemma C1_create_cycle_single_cycle_witness :
  exists m' walk,
    create_cycle (@rev Z) (Block 10 ∅) 5 2 = Ok m' /\
    follow (Z.to_nat 5) m' 2 0 = Ok walk /\
    walk ≡ₚ seqZ 0 5 /\ NoDup walk /\ last walk = Some 0.
Proof.
  apply C1_create_cycle_single_cycle.
  - intros l. symmetry. apply Permutation_rev.
  - lia.
  - lia.
  - vm_compute. discriminate.
  - lia.
Defined.

(** C1 as stated fails where [indices[j] * stride] overflows an [int]: with
    3 slots at stride [2^30] and a buffer of [3 * 2^30] elements, the
    product [2 * 2^30] wraps to [-2^31], and the store at that offset falls
    outside the buffer, so no cycle is ever completed. *)
Lemma C1_counterexample_int_overflow :
  1 <= 3 /\ 1 <= 2 ^ 30 /\
  create_cycle (fun l => l) (Block (3 * 2 ^ 30) ∅) 3 (2 ^ 30)
    = Fault (OutOfBounds (- 2 ^ 31)) /\
  ~ exists m' walk,
      create_cycle (fun l => l) (Block (3 * 2 ^ 30) ∅) 3 (2 ^ 30) = Ok m' /\
      follow (Z.to_nat 3) m' (2 ^ 30) 0 = Ok walk /\
      walk ≡ₚ seqZ 0 3 /\ NoDup walk /\ last walk = Some 0.
Proof.
  assert (E : create_cycle (fun l => l) (Block (3 * 2 ^ 30) ∅) 3 (2 ^ 30)
              = Fault (OutOfBounds (- 2 ^ 31))) by (vm_compute; reflexivity).
  split; [lia|]. split; [lia|]. split; [exact E|].
  intros (m' & walk & Hrun & _). rewrite E in Hrun. discriminate.
Qed.

Lemma quot_times_le length stride :
  0 <= length -> 1 <= stride -> Z.quot length stride * stride <= length.
Proof.
  intros Hl Hs. rewrite Z.quot_div_nonneg by lia.
  rewrite Z.mul_comm. apply Z.mul_div_le. lia.
Qed.

(** On a fresh buffer of [length] elements, a cycle over
    [length / stride >= 1] slots is built without a store outside the buffer
    and can be walked for any number of steps without a read outside it. *)
Lemma cycle_within_buffer
    (shuffle : list Z -> list Z) (length stride active_positions : Z) :
  (forall l, shuffle l ≡ₚ l) ->
  1 <= length <= Int.max_int -> 1 <= stride ->
  active_positions = Z.quot length stride -> 1 <= active_positions ->
  exists m',
    create_cycle shuffle (Block length ∅) active_positions stride = Ok m' /\
    (forall off, off ∈ written m' -> 0 <= off < length) /\
    (forall n sum,
       is_ok (traverse n m' sum) /\
       Forall (fun off => 0 <= off < length) (traverse_reads (Z.to_nat n) m' 0)).
Proof.
  intros Hperm Hlength Hstride Hap H1.
  pose proof (quot_times_le length stride ltac:(lia) Hstride) as Hle.
  rewrite <- Hap in Hle.
  assert (Hroom : (active_positions - 1) * stride < length) by nia.
  assert (Hfit : (active_positions - 1) * stride <= Int.max_int) by lia.
  destruct (create_cycle_spec shuffle Hperm active_positions stride length
              H1 Hstride Hfit Hroom ∅) as (cells' & Hrun & _ & Hframe).
  exists (Block length cells'). split; [done|]. split.
  - intros off Hoff. simpl in Hoff. apply elem_of_dom in Hoff as [v Hv].
    destruct (decide (off mod stride = 0 /\ 0 <= off / stride < active_positions))
      as [[Hmod Hdiv]|Hno].
    + pose proof (Z.div_mod off stride ltac:(lia)). nia.
    + rewrite Hframe in Hv; [by rewrite lookup_empty in Hv|].
      intros p Hp ->. apply Hno.
      rewrite Z.mod_mul, Z.div_mul by lia. lia.
  - intros n sum.
    destruct (traverse_loop_closed length cells'
                (fun o => exists p, 0 <= p < active_positions /\ o = p * stride))
      with (n := Z.to_nat n) (cur := 0) (sum := sum) as [Hok Hreads].
    + intros o Ho.
      destruct (create_cycle_closed shuffle Hperm active_positions stride length
                  H1 Hstride Hfit Hroom ∅ cells' Hrun o Ho)
        as (Hrange & v & Hv & q & Hq & Hdec).
      split; [done|]. exists v. split; [done|]. rewrite Hdec. eauto.
    + exists 0. lia.
    + split; [exact Hok|].
      eapply Forall_impl; [exact Hreads|].
      intros o (p & Hp & ->). simpl.
      pose proof (slot_offset stride active_positions Hstride p Hp). lia.
Qed.

(** C9.  For an [int] [length >= 1] and a [stride >= 1] with
    [active_positions = length / stride > 4], on a fresh buffer of [length]
    elements [create_cycle] completes without a store outside the buffer
    (every offset it wrote is below [length]), and [traverse] from position
    0 completes for every step count, each of its reads addressing an offset
    below [length]. *)
Theorem C9_accesses_within_buffer
    (shuffle : list Z -> list Z) (length stride active_positions : Z) :
  (forall l, shuffle l ≡ₚ l) ->
  1 <= length <= Int.max_int -> 1 <= stride ->
  active_positions = Z.quot length stride -> 4 < active_positions ->
  exists m',
    create_cycle shuffle (Block length ∅) active_positions stride = Ok m' /\
    (forall off, off ∈ written m' -> 0 <= off < length) /\
    (forall n sum,
       is_ok (traverse n m' sum) /\
       Forall (fun off => 0 <= off < length) (traverse_reads (Z.to_nat n) m' 0)).
Proof.
  intros Hperm Hlength Hstride Hap Hbig.
  apply cycle_within_buffer; try done. lia.
Qed.

Lemma C9_accesses_within_buffer_witness :
  exists m',
    create_cycle (@rev Z) (Block 32 ∅) 8 4 = Ok m' /\
    (forall off, off ∈ written m' -> 0 <= off < 32) /\
    (forall n sum,
       is_ok (traverse n m' sum) /\
       Forall (fun off => 0 <= off < 32) (traverse_reads (Z.to_nat n) m' 0)).
Proof.
  apply (C9_accesses_within_buffer (@rev Z) 32 4 8).
  - intros l. symmetry. apply Permutation_rev.
  - vm_compute. split; discriminate.
  - lia.
  - reflexivity.
  - lia.
Defined.

(** ** Measurement Harness *)

Lemma for_loop_invariant {T : Type} (P : T -> Prop)
    (body : Z -> T -> T * result unit) :
  (forall i st, P st -> P (body i st).1) ->
  forall n i st, P st -> P (for_loop n i body st).1.
Proof.
  intros Hbody. induction n as [|n IH]; intros i st Hst; simpl; [done|].
  specialize (Hbody i st Hst).
  destruct (body i st) as [st' [[]|f]]; simpl in *; [by apply IH | done].
Qed.

Lemma measure_cell_measured_only (env : Z -> Z -> cell_env)
    (stride_sizes length_sizes : list Z) (length i j : Z)
    (st : list (Z * Z * Z) * Z) :
  at_index length_sizes i = Ok length ->
  measured_only stride_sizes length_sizes st.1 ->
  measured_only stride_sizes length_sizes
    (measure_cell env record_call stride_sizes length i j st).1.1.
Proof.
  intros Hi Hst. unfold measure_cell. destruct st as [calls sum]. simpl in Hst.
  destruct (at_index stride_sizes j) as [gap|] eqn:Hj; simpl; [|done].
  destruct (int_div length gap) as [ap|] eqn:Hdiv; simpl; [|done].
  destruct (Z.leb_spec ap 4); [done|].
  destruct (create_cycle _ _ _ _) as [m|]; simpl; [|done].
  destruct (traverse _ _ _) as [sum1|]; simpl; [|done].
  unfold measure_time.
  destruct (traverse _ _ _) as [sum2|]; simpl; [|done].
  intros i' j' t' [Hin|E%list_elem_of_singleton]%elem_of_app; [exact (Hst _ _ _ Hin)|].
  injection E as -> -> ->. exists length, gap. repeat split; try done.
  unfold int_div in Hdiv.
  destruct (gap =? 0); [done|].
  destruct ((length =? Int.min_int) && (gap =? -1)); [done|].
  injection Hdiv as <-. lia.
Qed.

Lemma measure_measured_only (env : Z -> Z -> cell_env)
    (stride_sizes length_sizes : list Z) :
  measured_only stride_sizes length_sizes
    (measure env record_call stride_sizes length_sizes []).1.
Proof.
  unfold measure.
  pose proof (for_loop_invariant
    (fun st : list (Z * Z * Z) * Z => measured_only stride_sizes length_sizes st.1)
    (measure_row env record_call stride_sizes length_sizes)) as Hinv.
  specialize (Hinv) with (n := List.length length_sizes) (i := 0) (st := ([], 0)).
  destruct (for_loop _ _ _ _) as [[calls sum] [[]|f]]; simpl in *; apply Hinv;
    try (intros ? ? ? H; by apply elem_of_nil in H).
  all: intros i st Hst; unfold measure_row;
    destruct (at_index length_sizes i) as [length|] eqn:Hi; [|done];
    apply (for_loop_invariant
      (fun st : list (Z * Z * Z) * Z => measured_only stride_sizes length_sizes st.1));
    [|done]; intros j st' Hst'; by apply measure_cell_measured_only.
Qed.

(** The step for a cell whose quotient is at most 4 does nothing but read
    the stride and divide: it returns at once, with the state it was given,
    without an allocation, a cycle or a walk, so its outcome does not
    involve the environment. *)
Lemma measure_cell_skip_returns {St : Type} (env : Z -> Z -> cell_env)
    (on_result : Z -> Z -> Z -> St -> St)
    (stride_sizes : list Z) (length stride i j : Z) (st : St * Z) :
  at_index stride_sizes j = Ok stride ->
  Z.quot length stride <= 4 ->
  measure_cell env on_result stride_sizes length i j st
  = (st, do _ <- int_div length stride; Ok tt).
Proof.
  intros Hj Hq. unfold measure_cell. destruct st as [cb sum].
  rewrite Hj. simpl. unfold int_div.
  destruct (stride =? 0); [done|].
  destruct ((length =? Int.min_int) && (stride =? -1)); [done|]. simpl.
  destruct (Z.leb_spec (Z.quot length stride) 4); [done | lia].
Qed.

(** C6.  For every pair of a length and a stride of the lists with
    [length / stride <= 4], the harness never invokes the callback for that
    pair, in any environment and whether or not the sweep completes.  The
    step for such a cell returns right after the division, with the
    callback's state and the accumulator as they were: whatever the
    shuffle, the allocator and the clock of the environment are (a failing
    allocator included), the step is [(st, Ok tt)] when the division is
    defined, so no allocation, no cycle construction and no walk took
    place; the only fault it can end with is that of the division itself
    (a zero stride, or [INT_MIN / -1]). *)
Theorem C6_skip_rule (env : Z -> Z -> cell_env)
    (stride_sizes length_sizes : list Z) (i j length stride : Z) :
  at_index length_sizes i = Ok length ->
  at_index stride_sizes j = Ok stride ->
  Z.quot length stride <= 4 ->
  (forall t, (i, j, t) ∉ (measure env record_call stride_sizes length_sizes []).1) /\
  (forall (St : Type) (on_result : Z -> Z -> Z -> St -> St) (st : St * Z),
     measure_cell env on_result stride_sizes length i j st
     = (st, do _ <- int_div length stride; Ok tt)) /\
  (stride <> 0 -> (length <> Int.min_int \/ stride <> -1) ->
   forall (St : Type) (on_result : Z -> Z -> Z -> St -> St) (st : St * Z),
     measure_cell env on_result stride_sizes length i j st = (st, Ok tt)).
Proof.
  intros Hi Hj Hq. split; [|split].
  - intros t Hin.
    destruct (measure_measured_only env stride_sizes length_sizes i j t Hin)
      as (length' & stride' & Hi' & Hj' & Hbig).
    rewrite Hi in Hi'. rewrite Hj in Hj'.
    injection Hi' as <-. injection Hj' as <-. lia.
  - intros St on_result st. by apply measure_cell_skip_returns.
  - intros Hs0 Hmin St on_result st.
    rewrite (measure_cell_skip_returns env on_result stride_sizes length stride)
      by done.
    unfold int_div.
    destruct (Z.eqb_spec stride 0); [done|].
    destruct (Z.eqb_spec length Int.min_int), (Z.eqb_spec stride (-1)); simpl;
      try done.
    lia.
Qed.

Lemma C6_skip_rule_witness :
  (forall t, (0, 2, t) ∉
     (measure (fun _ _ => CellEnv (@rev Z) (fun _ => true) 1000)
        record_call [1; 2; 4] [16; 32] []).1) /\
  (forall (St : Type) (on_result : Z -> Z -> Z -> St -> St) (st : St * Z),
     measure_cell (fun _ _ => CellEnv (@rev Z) (fun _ => true) 1000)
        on_result [1; 2; 4] 16 0 2 st
     = (st, do _ <- int_div 16 4; Ok tt)) /\
  (forall (St : Type) (on_result : Z -> Z -> Z -> St -> St) (st : St * Z),
     measure_cell (fun _ _ => CellEnv (@rev Z) (fun _ => true) 1000)
        on_result [1; 2; 4] 16 0 2 st = (st, Ok tt)).
Proof.
  destruct (C6_skip_rule (fun _ _ => CellEnv (@rev Z) (fun _ => true) 1000)
              [1; 2; 4] [16; 32] 0 2 16 4) as (H1 & H2 & H3).
  - reflexivity.
  - reflexivity.
  - vm_compute. discriminate.
  - split; [exact H1|]. split; [exact H2|].
    apply H3; [lia | left; unfold Int.min_int; lia].
Defined.

Lemma is_ok_Ok {A : Type} (r : result A) : is_ok r -> exists a, r = Ok a.
Proof. destruct r; [eauto | done]. Qed.

(** One step of the harness in a well-behaved environment: the callback is
    invoked once, with the time per slot, when the quotient exceeds 4, and
    not at all otherwise; the step never faults. *)
Lemma measure_cell_good {St : Type} (env : Z -> Z -> cell_env)
    (on_result : Z -> Z -> Z -> St -> St)
    (stride_sizes : list Z) (length gap i j : Z) (cb : St) (sum : Z) :
  well_behaved (env i j) ->
  1 <= length <= Int.max_int -> 1 <= gap ->
  at_index stride_sizes j = Ok gap ->
  exists sum',
    measure_cell env on_result stride_sizes length i j (cb, sum)
    = ((replay on_result
          (if 4 <? Z.quot length gap
           then [(i, j, Z.quot (elapsed (env i j)) (Z.quot length gap))]
           else []) cb, sum'), Ok tt).
Proof.
  intros [Hperm Halloc] Hlength Hgap Hj. unfold measure_cell. rewrite Hj. simpl.
  unfold int_div. destruct (Z.eqb_spec gap 0); [lia|].
  destruct (Z.eqb_spec length Int.min_int) as [E|_];
    [unfold Int.min_int in E; lia|]. simpl.
  destruct (Z.leb_spec (Z.quot length gap) 4) as [Hq|Hq].
  - destruct (Z.ltb_spec 4 (Z.quot length gap)); [lia|]. by exists sum.
  - destruct (Z.ltb_spec 4 (Z.quot length gap)); [|lia].
    unfold aligned_alloc. rewrite Halloc.
    assert (Hbytes : (4 * length) mod 2 ^ 64 = 4 * length).
    { apply Z.mod_small. unfold Int.max_int in Hlength. lia. }
    rewrite Hbytes, (Z.mul_comm 4), Z.div_mul by lia.
    destruct (cycle_within_buffer (shuffle (env i j)) length gap
                (Z.quot length gap) Hperm Hlength Hgap eq_refl ltac:(lia))
      as (m' & -> & _ & Hwalk). simpl.
    destruct (is_ok_Ok _ (proj1 (Hwalk (Int.mul 32 (Z.quot length gap)) sum)))
      as [sum1 ->]. simpl. unfold measure_time.
    destruct (is_ok_Ok _ (proj1 (Hwalk (Int.mul 16 (Z.quot length gap)) sum1)))
      as [sum2 ->]. simpl. by exists sum2.
Qed.

Lemma for_loop_S {T : Type} (n : nat) (i : Z) (body : Z -> T -> T * result unit)
    (st : T) :
  for_loop (S n) i body st
  = match body i st with
    | (st', Ok _) => for_loop n (i + 1) body st'
    | (st', Fault f) => (st', Fault f)
    end.
Proof. reflexivity. Qed.

Lemma flat_map_step {A B : Type} (f : A -> list B) (a : A) (l : list A) :
  flat_map f (a :: l) = f a ++ flat_map f l.
Proof. reflexivity. Qed.

Lemma seqZ_S m (n : nat) :
  seqZ m (Z.of_nat (S n)) = m :: seqZ (m + 1) (Z.of_nat n).
Proof.
  rewrite seqZ_cons by lia. f_equal. f_equal; lia.
Qed.

Lemma replay_app {St : Type} (on_result : Z -> Z -> Z -> St -> St)
    (c1 c2 : list (Z * Z * Z)) (cb : St) :
  replay on_result (c1 ++ c2) cb = replay on_result c2 (replay on_result c1 cb).
Proof. unfold replay. apply foldl_app. Qed.

Lemma at_index_positive (sizes : list Z) (i s : Z) :
  positive_ints sizes -> at_index sizes i = Ok s -> 1 <= s <= Int.max_int.
Proof.
  intros Hall [_ Hi]%at_index_Ok.
  unfold positive_ints in Hall. rewrite Forall_forall in Hall.
  apply Hall. by eapply list_elem_of_lookup_2.
Qed.

Lemma at_index_in_range {A} (v : list A) (i : nat) :
  (i < List.length v)%nat -> exists a, at_index v (Z.of_nat i) = Ok a.
Proof.
  intros Hi. rewrite at_index_lookup.
  destruct (lookup_lt_is_Some_2 v i Hi) as [a ->]. eauto.
Qed.

Lemma cell_call_measured (env : Z -> Z -> cell_env) (stride_sizes length_sizes : list Z)
    (i j length gap : Z) :
  at_index length_sizes i = Ok length ->
  at_index stride_sizes j = Ok gap ->
  cell_call env stride_sizes length_sizes i j
  = if 4 <? Z.quot length gap
    then [(i, j, Z.quot (elapsed (env i j)) (Z.quot length gap))]
    else [].
Proof. intros Hi Hj. unfold cell_call. by rewrite Hi, Hj. Qed.

Section GoodSweep.

Context {St : Type}.
Variable env : Z -> Z -> cell_env.
Variable on_result : Z -> Z -> Z -> St -> St.
Variables stride_sizes length_sizes : list Z.
Hypothesis env_good : forall i j, well_behaved (env i j).
Hypothesis strides_good : positive_ints stride_sizes.
Hypothesis lengths_good : positive_ints length_sizes.

Lemma measure_row_loop_good (i length : Z) :
  at_index length_sizes i = Ok length ->
  forall n j0 cb sum, (j0 + n = List.length stride_sizes)%nat ->
  exists sum',
    for_loop n (Z.of_nat j0) (measure_cell env on_result stride_sizes length i) (cb, sum)
    = ((replay on_result
          (flat_map (cell_call env stride_sizes length_sizes i)
             (seqZ (Z.of_nat j0) (Z.of_nat n))) cb, sum'), Ok tt).
Proof.
  intros Hi. induction n as [|n IH]; intros j0 cb sum Hn.
  - exists sum. reflexivity.
  - destruct (at_index_in_range stride_sizes j0 ltac:(lia)) as [gap Hj].
    pose proof (at_index_positive _ _ _ strides_good Hj) as Hgap.
    pose proof (at_index_positive _ _ _ lengths_good Hi) as Hlength.
    destruct (measure_cell_good env on_result stride_sizes length gap i
                (Z.of_nat j0) cb sum (env_good _ _) Hlength ltac:(lia) Hj)
      as [sum1 Hcell].
    rewrite for_loop_S, Hcell.
    replace (Z.of_nat j0 + 1) with (Z.of_nat (S j0)) by lia.
    destruct (IH (S j0)
                (replay on_result
                   (if 4 <? Z.quot length gap
                    then [(i, Z.of_nat j0,
                           Z.quot (elapsed (env i (Z.of_nat j0))) (Z.quot length gap))]
                    else []) cb) sum1 ltac:(lia)) as [sum2 ->].
    exists sum2. rewrite seqZ_S, flat_map_step, replay_app.
    replace (Z.of_nat j0 + 1) with (Z.of_nat (S j0)) by lia.
    by rewrite (cell_call_measured env _ _ _ _ _ _ Hi Hj).
Qed.

Lemma measure_loop_good :
  forall n i0 cb sum, (i0 + n = List.length length_sizes)%nat ->
  exists sum',
    for_loop n (Z.of_nat i0) (measure_row env on_result stride_sizes length_sizes)
      (cb, sum)
    = ((replay on_result
          (flat_map (row_calls env stride_sizes length_sizes)
             (seqZ (Z.of_nat i0) (Z.of_nat n))) cb, sum'), Ok tt).
Proof.
  induction n as [|n IH]; intros i0 cb sum Hn.
  - exists sum. reflexivity.
  - destruct (at_index_in_range length_sizes i0 ltac:(lia)) as [length Hi].
    destruct (measure_row_loop_good (Z.of_nat i0) length Hi
                (List.length stride_sizes) 0%nat cb sum eq_refl) as [sum1 Hrow].
    rewrite for_loop_S. unfold measure_row at 1. rewrite Hi.
    change 0 with (Z.of_nat 0). rewrite Hrow.
    replace (Z.of_nat i0 + 1) with (Z.of_nat (S i0)) by lia.
    destruct (IH (S i0)
                (replay on_result
                   (flat_map (cell_call env stride_sizes length_sizes (Z.of_nat i0))
                      (seqZ (Z.of_nat 0) (Z.of_nat (List.length stride_sizes)))) cb)
                sum1 ltac:(lia)) as [sum2 ->].
    exists sum2. rewrite seqZ_S, flat_map_step, replay_app.
    by replace (Z.of_nat i0 + 1) with (Z.of_nat (S i0)) by lia.
Qed.

(** In a well-behaved environment and on a grid of positive sizes the sweep
    completes, and the callback has seen exactly the calls of the measured
    cells, in the order of the loops. *)
Lemma measure_good (cb : St) :
  exists sum,
    measure env on_result stride_sizes length_sizes cb
    = (replay on_result (sweep_calls env stride_sizes length_sizes) cb, Ok sum).
Proof.
  unfold measure.
  destruct (measure_loop_good (List.length length_sizes) 0%nat cb 0 eq_refl)
    as [sum Hloop].
  change (Z.of_nat 0) with 0 in Hloop. rewrite Hloop. by exists sum.
Qed.

End GoodSweep.

(** ** The table of samples *)

Lemma cell_opt_push_back_time (i j t : Z) (results : samples) (i' j' : Z) :
  0 <= i -> 0 <= j -> 0 <= i' -> 0 <= j' ->
  cell_opt (push_back_time i j t results) i' j'
  = if decide (i = i' /\ j = j')
    then (fun v => v ++ [t]) <$> cell_opt results i' j'
    else cell_opt results i' j'.
Proof.
  intros Hi Hj Hi' Hj'. unfold cell_opt, push_back_time.
  destruct (decide (i = i')) as [<-|Hne].
  - rewrite list_lookup_alter_eq.
    destruct (results !! Z.to_nat i) as [row|]; simpl; [|by case_decide].
    destruct (decide (j = j')) as [<-|Hnej].
    + rewrite list_lookup_alter_eq. rewrite decide_True by done. done.
    + rewrite list_lookup_alter_ne by lia.
      rewrite decide_False by (intros [_ ?]; done). done.
  - rewrite list_lookup_alter_ne by lia.
    rewrite decide_False by (intros [? _]; done). done.
Qed.

Lemma cell_opt_replay (calls : list (Z * Z * Z)) (i j : Z) :
  0 <= i -> 0 <= j ->
  Forall (fun c => 0 <= c.1.1 /\ 0 <= c.1.2) calls ->
  forall results,
    cell_opt (replay push_back_time calls results) i j
    = (fun v => v ++ times_for i j calls) <$> cell_opt results i j.
Proof.
  intros Hi Hj. induction 1 as [|[[ci cj] ct] calls [Hci Hcj] _ IH];
    intros results; simpl in *.
  - destruct (cell_opt results i j); simpl; [|done]. by rewrite app_nil_r.
  - unfold replay in *. simpl. rewrite IH.
    rewrite cell_opt_push_back_time by done.
    unfold times_for. simpl. case_decide.
    + destruct (cell_opt results i j); simpl; [|done]. by rewrite <- app_assoc.
    + done.
Qed.

Lemma times_for_app (i j : Z) (c1 c2 : list (Z * Z * Z)) :
  times_for i j (c1 ++ c2) = times_for i j c1 ++ times_for i j c2.
Proof. apply omap_app. Qed.

Lemma times_for_flat_map {K : Type} (i j : Z) (f : K -> list (Z * Z * Z)) (l : list K) :
  times_for i j (flat_map f l) = flat_map (fun k => times_for i j (f k)) l.
Proof.
  induction l as [|k l IH]; [done|].
  rewrite !flat_map_step, times_for_app. by rewrite IH.
Qed.

(** A [flat_map] in which a single key contributes. *)
Lemma flat_map_single {B : Type} (g : Z -> list B) (k0 m n : Z) :
  (forall k, k <> k0 -> g k = []) ->
  flat_map g (seqZ m n) = if decide (m <= k0 < m + n) then g k0 else [].
Proof.
  intros Hg. destruct (Z.le_gt_cases n 0) as [Hn|Hn].
  { rewrite seqZ_nil by done. by rewrite decide_False by lia. }
  rewrite <- (Z2Nat.id n) by lia. generalize (Z.to_nat n) as c. clear Hn.
  intros c. revert m. induction c as [|c IH]; intros m.
  - simpl. by rewrite decide_False by lia.
  - rewrite seqZ_S, flat_map_step, IH.
    destruct (decide (m = k0)) as [->|Hne].
    + rewrite decide_False by lia. rewrite decide_True by lia. apply app_nil_r.
    + rewrite (Hg m Hne). simpl. repeat case_decide; try done; lia.
Qed.

Lemma times_for_cell_call (env : Z -> Z -> cell_env) (stride_sizes length_sizes : list Z)
    (i j i' j' : Z) :
  times_for i j (cell_call env stride_sizes length_sizes i' j')
  = if decide (i' = i /\ j' = j)
    then snd <$> cell_call env stride_sizes length_sizes i j
    else [].
Proof.
  case_decide as H.
  - destruct H as [-> ->]. unfold cell_call.
    destruct (at_index length_sizes i); [|done].
    destruct (at_index stride_sizes j); [|done].
    destruct (4 <? _); [|done].
    unfold times_for. simpl. by rewrite decide_True.
  - unfold cell_call.
    destruct (at_index length_sizes i'); [|done].
    destruct (at_index stride_sizes j'); [|done].
    destruct (4 <? _); [|done].
    unfold times_for. simpl. by rewrite decide_False.
Qed.

Lemma cell_call_outside (env : Z -> Z -> cell_env) (stride_sizes length_sizes : list Z)
    (i j : Z) :
  ~ (0 <= i < Z.of_nat (List.length length_sizes) /\
     0 <= j < Z.of_nat (List.length stride_sizes)) ->
  cell_call env stride_sizes length_sizes i j = [].
Proof.
  intros Hout. unfold cell_call.
  destruct (at_index length_sizes i) as [length|] eqn:Hi; [|done].
  destruct (at_index stride_sizes j) as [gap|] eqn:Hj; [|done].
  apply at_index_Ok in Hi as [? Hi]. apply at_index_Ok in Hj as [? Hj].
  apply lookup_lt_Some in Hi. apply lookup_lt_Some in Hj. lia.
Qed.

(** The times a completed sweep records for a cell are those of the cell's
    own call. *)
Lemma times_for_sweep_calls (env : Z -> Z -> cell_env)
    (stride_sizes length_sizes : list Z) (i j : Z) :
  times_for i j (sweep_calls env stride_sizes length_sizes)
  = snd <$> cell_call env stride_sizes length_sizes i j.
Proof.
  unfold sweep_calls. rewrite times_for_flat_map.
  rewrite (flat_map_single _ i).
  2:{ intros k Hk. unfold row_calls. rewrite times_for_flat_map.
      rewrite (flat_map_single _ j).
      - case_decide; [|done].
        rewrite times_for_cell_call. by rewrite decide_False by tauto.
      - intros k' _. rewrite times_for_cell_call.
        by rewrite decide_False by tauto. }
  unfold row_calls. rewrite times_for_flat_map.
  rewrite (flat_map_single _ j).
  2:{ intros k Hk. rewrite times_for_cell_call. by rewrite decide_False by tauto. }
  rewrite times_for_cell_call.
  rewrite (decide_True (P := i = i /\ j = j)) by auto.
  repeat case_decide; try reflexivity; rewrite cell_call_outside;
    try reflexivity; lia.
Qed.

Lemma table_push_back_time (rows cols : nat) (i j t : Z) (results : samples) :
  table rows cols results -> table rows cols (push_back_time i j t results).
Proof.
  intros [Hrows Hcols]. unfold push_back_time. split.
  - by rewrite length_alter.
  - apply Forall_alter; [done|]. intros row _ Hrow. by rewrite length_alter.
Qed.

Lemma table_replay (rows cols : nat) (calls : list (Z * Z * Z)) :
  forall results, table rows cols results ->
    table rows cols (replay push_back_time calls results).
Proof.
  induction calls as [|c calls IH]; intros results Ht; [done|].
  apply IH. by apply table_push_back_time.
Qed.

Lemma table_replicate {A : Type} (rows cols : nat) (x : A) :
  table rows cols (replicate rows (replicate cols x)).
Proof.
  split; [apply length_replicate|].
  apply Forall_replicate, length_replicate.
Qed.

Lemma cell_opt_replicate (rows cols : nat) (i j : Z) :
  0 <= i < Z.of_nat rows -> 0 <= j < Z.of_nat cols ->
  cell_opt (replicate rows (replicate cols [])) i j = Some [].
Proof.
  intros Hi Hj. unfold cell_opt.
  rewrite lookup_replicate_2 by lia. simpl. apply lookup_replicate_2. lia.
Qed.

Lemma samples_of_cell_opt (results : samples) (i j : Z) :
  0 <= i -> 0 <= j -> samples_of results i j = default [] (cell_opt results i j).
Proof.
  intros Hi Hj. unfold samples_of, cell_opt, at_index.
  destruct (Z.ltb_spec i 0); [lia|]. destruct (Z.ltb_spec j 0); [lia|].
  destruct (results !! Z.to_nat i) as [row|]; simpl; [|done].
  by destruct (row !! Z.to_nat j).
Qed.

Lemma sweep_calls_nonneg (env : Z -> Z -> cell_env) (stride_sizes length_sizes : list Z) :
  Forall (fun c => 0 <= c.1.1 /\ 0 <= c.1.2)
    (sweep_calls env stride_sizes length_sizes).
Proof.
  apply Forall_forall. intros c Hc. apply list_elem_of_In in Hc.
  unfold sweep_calls in Hc. apply in_flat_map in Hc as (i & _ & Hc).
  unfold row_calls in Hc. apply in_flat_map in Hc as (j & _ & Hc).
  unfold cell_call in Hc.
  destruct (at_index length_sizes i) eqn:Hi; [|done].
  destruct (at_index stride_sizes j) eqn:Hj; [|done].
  destruct (4 <? _); [|done].
  apply at_index_Ok in Hi as [? _]. apply at_index_Ok in Hj as [? _].
  destruct Hc as [<-|[]]. done.
Qed.

Lemma flat_map_cell_times (env : Z -> Z -> Z -> cell_env)
    (stride_sizes length_sizes : list Z) (i j length gap : Z) (ts : list Z) :
  at_index length_sizes i = Ok length ->
  at_index stride_sizes j = Ok gap ->
  flat_map (fun t => snd <$> cell_call (env t) stride_sizes length_sizes i j) ts
  = if 4 <? Z.quot length gap
    then (fun t => Z.quot (elapsed (env t i j)) (Z.quot length gap)) <$> ts
    else [].
Proof.
  intros Hi Hj. induction ts as [|t ts IH].
  - by destruct (4 <? _).
  - rewrite flat_map_step, IH, (cell_call_measured (env t) _ _ _ _ _ _ Hi Hj).
    by destruct (4 <? _).
Qed.

Section GoodRun.

Variable env : Z -> Z -> Z -> cell_env.
Variables stride_sizes length_sizes : list Z.
Hypothesis env_good : forall t i j, well_behaved (env t i j).
Hypothesis strides_good : positive_ints stride_sizes.
Hypothesis lengths_good : positive_ints length_sizes.

Lemma sweep_good (t : Z) (results : samples) :
  sweep env stride_sizes length_sizes t results
  = (replay push_back_time (sweep_calls (env t) stride_sizes length_sizes) results,
     Ok tt).
Proof.
  unfold sweep.
  destruct (measure_good (env t) push_back_time stride_sizes length_sizes
              (env_good t) strides_good lengths_good results) as [sum ->].
  done.
Qed.

Lemma trials_loop_good (i j : Z) :
  0 <= i -> 0 <= j ->
  forall n t0 results rows cols, table rows cols results ->
  exists results',
    for_loop n t0 (sweep env stride_sizes length_sizes) results = (results', Ok tt) /\
    table rows cols results' /\
    cell_opt results' i j
    = (fun v => v ++ flat_map
                       (fun t => snd <$> cell_call (env t) stride_sizes length_sizes i j)
                       (seqZ t0 (Z.of_nat n)))
      <$> cell_opt results i j.
Proof.
  intros Hi Hj. induction n as [|n IH]; intros t0 results rows cols Ht.
  - exists results. repeat split; try apply Ht.
    simpl. destruct (cell_opt results i j); simpl; [|done]. by rewrite app_nil_r.
  - rewrite for_loop_S, sweep_good.
    destruct (IH (t0 + 1)
                (replay push_back_time
                   (sweep_calls (env t0) stride_sizes length_sizes) results)
                rows cols (table_replay _ _ _ _ Ht)) as (results' & -> & Ht' & Hcell).
    exists results'. split; [done|]. split; [done|].
    rewrite Hcell, cell_opt_replay by (done || apply sweep_calls_nonneg).
    rewrite times_for_sweep_calls, seqZ_S, flat_map_step.
    destruct (cell_opt results i j); simpl; [|done]. by rewrite <- app_assoc.
Qed.

(** After the trials every measured cell holds one sample per trial, in the
    order of the trials, and every skipped cell holds none. *)
Lemma collect_good :
  exists results,
    collect env stride_sizes length_sizes = (results, Ok tt) /\
    table (List.length length_sizes) (List.length stride_sizes) results /\
    forall i j length gap,
      at_index length_sizes i = Ok length ->
      at_index stride_sizes j = Ok gap ->
      samples_of results i j
      = if 4 <? Z.quot length gap
        then (fun t => Z.quot (elapsed (env t i j)) (Z.quot length gap))
               <$> seqZ 0 (Z.of_nat trials)
        else [].
Proof.
  unfold collect.
  set (init := replicate (List.length length_sizes)
                 (replicate (List.length stride_sizes) ([] : list Z))).
  assert (Hinit : table (List.length length_sizes) (List.length stride_sizes) init)
    by apply table_replicate.
  destruct (trials_loop_good 0 0 ltac:(lia) ltac:(lia) trials 0 init _ _ Hinit)
    as (results & Hrun & Ht & _).
  exists results. split; [done|]. split; [done|].
  intros i j length gap Hi Hj.
  pose proof Hi as [Hi0 Hil]%at_index_Ok. pose proof Hj as [Hj0 Hjl]%at_index_Ok.
  apply lookup_lt_Some in Hil. apply lookup_lt_Some in Hjl.
  destruct (trials_loop_good i j Hi0 Hj0 trials 0 init _ _ Hinit)
    as (results' & Hrun' & _ & Hcell).
  rewrite Hrun in Hrun'. injection Hrun' as <-.
  rewrite samples_of_cell_opt, Hcell by done.
  unfold init. rewrite cell_opt_replicate by lia.
  rewrite (flat_map_cell_times _ _ _ _ _ _ _ _ Hi Hj).
  generalize (seqZ 0 (Z.of_nat trials)). intros ts. reflexivity.
Qed.

End GoodRun.

(** ** The grid of [main] *)

Lemma stride_sizes_value (fuel : nat) :
  (9 <= fuel)%nat ->
  stride_sizes_of fuel = Some [1; 2; 4; 8; 16; 32; 64; 128; 256].
Proof.
  intros H. do 9 (destruct fuel as [|fuel]; [lia|]). reflexivity.
Qed.

Lemma length_sizes_value (fuel : nat) :
  (10 <= fuel)%nat ->
  length_sizes_of fuel
  = Some [256; 512; 1024; 2048; 4096; 8192; 16384; 32768; 65536; 131072].
Proof.
  intros H. do 10 (destruct fuel as [|fuel]; [lia|]). reflexivity.
Qed.

Lemma stride_sizes_short (fuel : nat) :
  (fuel < 9)%nat -> stride_sizes_of fuel = None.
Proof.
  intros H. do 9 (destruct fuel as [|fuel]; [reflexivity|]). lia.
Qed.

Lemma grid_positive :
  positive_ints [1; 2; 4; 8; 16; 32; 64; 128; 256] /\
  positive_ints [256; 512; 1024; 2048; 4096; 8192; 16384; 32768; 65536; 131072].
Proof.
  split; unfold positive_ints; repeat constructor; vm_compute; discriminate.
Qed.

(** C2 (amended).  With enough fuel for the two loops, the stride sizes are
    exactly the powers of two from 1 up to and including 256, the length
    sizes exactly the powers of two from 256 up to and including 131072,
    and in an environment where shuffles permute and allocations succeed
    the 100 sweeps complete and leave exactly 100 samples in every cell
    with [length / stride > 4] and none in the others. *)
Theorem C2_grid_swept (fuel : nat) (env : Z -> Z -> Z -> cell_env) :
  (10 <= fuel)%nat ->
  (forall t i j, well_behaved (env t i j)) ->
  stride_sizes_of fuel = Some [1; 2; 4; 8; 16; 32; 64; 128; 256] /\
  length_sizes_of fuel
    = Some [256; 512; 1024; 2048; 4096; 8192; 16384; 32768; 65536; 131072] /\
  exists results,
    collect env [1; 2; 4; 8; 16; 32; 64; 128; 256]
      [256; 512; 1024; 2048; 4096; 8192; 16384; 32768; 65536; 131072]
    = (results, Ok tt) /\
    forall i j length stride,
      at_index [256; 512; 1024; 2048; 4096; 8192; 16384; 32768; 65536; 131072] i
        = Ok length ->
      at_index [1; 2; 4; 8; 16; 32; 64; 128; 256] j = Ok stride ->
      List.length (samples_of results i j)
      = if 4 <? Z.quot length stride then 100%nat else 0%nat.
Proof.
  intros Hfuel Henv.
  split; [apply stride_sizes_value; lia|].
  split; [by apply length_sizes_value|].
  destruct grid_positive as [Hs Hl].
  destruct (collect_good env _ _ Henv Hs Hl) as (results & Hrun & _ & Hcells).
  exists results. split; [done|].
  intros i j length stride Hi Hj. rewrite (Hcells i j length stride Hi Hj).
  destruct (4 <? _); [|done].
  by rewrite length_fmap, length_seqZ.
Qed.

Lemma well_behaved_rev (t : Z) : well_behaved (CellEnv (@rev Z) (fun _ => true) t).
Proof.
  split; [|done]. intros l. simpl. symmetry. apply Permutation_rev.
Defined.

Lemma C2_grid_swept_witness :
  stride_sizes_of 10 = Some [1; 2; 4; 8; 16; 32; 64; 128; 256] /\
  length_sizes_of 10
    = Some [256; 512; 1024; 2048; 4096; 8192; 16384; 32768; 65536; 131072] /\
  exists results,
    collect (fun t i j => CellEnv (@rev Z) (fun _ => true) (1000 * (i + 1)))
      [1; 2; 4; 8; 16; 32; 64; 128; 256]
      [256; 512; 1024; 2048; 4096; 8192; 16384; 32768; 65536; 131072]
    = (results, Ok tt) /\
    forall i j length stride,
      at_index [256; 512; 1024; 2048; 4096; 8192; 16384; 32768; 65536; 131072] i
        = Ok length ->
      at_index [1; 2; 4; 8; 16; 32; 64; 128; 256] j = Ok stride ->
      List.length (samples_of results i j)
      = if 4 <? Z.quot length stride then 100%nat else 0%nat.
Proof.
  apply (C2_grid_swept 10
           (fun t i j => CellEnv (@rev Z) (fun _ => true) (1000 * (i + 1)))).
  - lia.
  - intros t i j. apply well_behaved_rev.
Defined.

(** C2 as stated fails: whatever the fuel, the loops never stop at 128 and
    65536, because [<=] lets each of them push one more element. *)
Lemma C2_counterexample_grid_bounds :
  stride_sizes_of 10 = Some [1; 2; 4; 8; 16; 32; 64; 128; 256] /\
  length_sizes_of 10
    = Some [256; 512; 1024; 2048; 4096; 8192; 16384; 32768; 65536; 131072] /\
  ~ exists fuel,
      stride_sizes_of fuel = Some [1; 2; 4; 8; 16; 32; 64; 128] /\
      length_sizes_of fuel
        = Some [256; 512; 1024; 2048; 4096; 8192; 16384; 32768; 65536].
Proof.
  split; [reflexivity|]. split; [reflexivity|].
  intros (fuel & Hs & _).
  destruct (le_lt_dec 9 fuel) as [H|H].
  - rewrite stride_sizes_value in Hs by done. discriminate.
  - rewrite stride_sizes_short in Hs by done. discriminate.
Qed.

(** ** Doubles *)

Lemma digits2_pos_bounds (p : positive) :
  2 ^ (Z.pos (digits2_pos p) - 1) <= Z.pos p < 2 ^ Z.pos (digits2_pos p).
Proof.
  induction p as [p IH|p IH|]; simpl digits2_pos.
  - rewrite Pos2Z.inj_succ. replace (Z.succ (Z.pos (digits2_pos p)) - 1)
      with (Z.succ (Z.pos (digits2_pos p) - 1)) by lia.
    rewrite !Z.pow_succ_r by lia. lia.
  - rewrite Pos2Z.inj_succ. replace (Z.succ (Z.pos (digits2_pos p)) - 1)
      with (Z.succ (Z.pos (digits2_pos p) - 1)) by lia.
    rewrite !Z.pow_succ_r by lia. lia.
  - simpl. lia.
Qed.

Lemma digits2_pos_unique (p : positive) (d : Z) :
  2 ^ (d - 1) <= Z.pos p < 2 ^ d -> Z.pos (digits2_pos p) = d.
Proof.
  intros H. pose proof (digits2_pos_bounds p) as B.
  destruct (Z.lt_trichotomy (Z.pos (digits2_pos p)) d) as [Hlt|[E|Hgt]]; [|done|].
  - assert (2 ^ Z.pos (digits2_pos p) <= 2 ^ (d - 1)) by (apply Z.pow_le_mono_r; lia). lia.
  - assert (0 <= d \/ d < 0) as [Hd|Hd] by lia.
    + assert (2 ^ d <= 2 ^ (Z.pos (digits2_pos p) - 1)) by (apply Z.pow_le_mono_r; lia). lia.
    + rewrite (Z.pow_neg_r 2 d) in H by lia. lia.
Qed.

(** One right shift halves the mantissa and remembers whether a one was
    shifted out. *)
Lemma shr_1_spec (mrs : shr_record) :
  0 <= shr_m mrs ->
  shr_m (shr_1 mrs) = shr_m mrs / 2 /\
  shr_r (shr_1 mrs) || shr_s (shr_1 mrs)
  = negb (shr_m mrs mod 2 =? 0) || (shr_r mrs || shr_s mrs).
Proof.
  destruct mrs as [m r s]. simpl. intros Hm.
  rewrite <- Z.div2_div, Zmod_odd.
  destruct m as [|[p|p|]|]; try lia; simpl; by destruct r, s.
Qed.

Lemma shift_compose (m a b : Z) :
  0 <= a -> 0 <= b ->
  m / 2 ^ a / 2 ^ b = m / 2 ^ (a + b) /\
  negb (m / 2 ^ a mod 2 ^ b =? 0) || negb (m mod 2 ^ a =? 0)
  = negb (m mod 2 ^ (a + b) =? 0).
Proof.
  intros Ha Hb.
  assert (0 < 2 ^ a) by (apply Z.pow_pos_nonneg; lia).
  assert (0 < 2 ^ b) by (apply Z.pow_pos_nonneg; lia).
  rewrite Z.pow_add_r by lia. split.
  - apply Z.div_div; lia.
  - rewrite Z.rem_mul_r by lia.
    pose proof (Z.mod_pos_bound m (2 ^ a) ltac:(lia)).
    pose proof (Z.mod_pos_bound (m / 2 ^ a) (2 ^ b) ltac:(lia)).
    destruct (Z.eqb_spec (m / 2 ^ a mod 2 ^ b) 0), (Z.eqb_spec (m mod 2 ^ a) 0),
      (Z.eqb_spec (m mod 2 ^ a + 2 ^ a * (m / 2 ^ a mod 2 ^ b)) 0); simpl; try done; nia.
Qed.

(** [p] right shifts divide the mantissa by [2 ^ p] and remember whether
    the part shifted out was zero. *)
Lemma shr_iter_spec (p : positive) : forall mrs : shr_record,
  0 <= shr_m mrs ->
  shr_m (SpecFloat.iter_pos shr_1 p mrs) = shr_m mrs / 2 ^ Z.pos p /\
  shr_r (SpecFloat.iter_pos shr_1 p mrs) || shr_s (SpecFloat.iter_pos shr_1 p mrs)
  = negb (shr_m mrs mod 2 ^ Z.pos p =? 0) || (shr_r mrs || shr_s mrs).
Proof.
  assert (Hstep : forall (f g : shr_record -> shr_record) a b,
    0 <= a -> 0 <= b ->
    (forall mrs, 0 <= shr_m mrs ->
       shr_m (f mrs) = shr_m mrs / 2 ^ a /\
       shr_r (f mrs) || shr_s (f mrs)
       = negb (shr_m mrs mod 2 ^ a =? 0) || (shr_r mrs || shr_s mrs)) ->
    (forall mrs, 0 <= shr_m mrs ->
       shr_m (g mrs) = shr_m mrs / 2 ^ b /\
       shr_r (g mrs) || shr_s (g mrs)
       = negb (shr_m mrs mod 2 ^ b =? 0) || (shr_r mrs || shr_s mrs)) ->
    forall mrs, 0 <= shr_m mrs ->
       shr_m (g (f mrs)) = shr_m mrs / 2 ^ (a + b) /\
       shr_r (g (f mrs)) || shr_s (g (f mrs))
       = negb (shr_m mrs mod 2 ^ (a + b) =? 0) || (shr_r mrs || shr_s mrs)).
  { intros f g a b Ha Hb Hf Hg mrs Hm.
    destruct (Hf mrs Hm) as [Hf1 Hf2].
    assert (0 <= shr_m (f mrs)).
    { rewrite Hf1. apply Z.div_pos; [done|]. apply Z.pow_pos_nonneg; lia. }
    destruct (Hg (f mrs)) as [Hg1 Hg2]; [done|].
    destruct (shift_compose (shr_m mrs) a b Ha Hb) as [E1 E2].
    rewrite Hg1, Hg2, Hf1, Hf2, <- E2. split; [done|].
    by rewrite orb_assoc. }
  induction p as [p IH|p IH|]; intros mrs Hm.
  - simpl SpecFloat.iter_pos.
    replace (Z.pos p~1) with (1 + (Z.pos p + Z.pos p)) by lia.
    apply (Hstep shr_1 (fun x => SpecFloat.iter_pos shr_1 p (SpecFloat.iter_pos shr_1 p x))); try lia.
    + apply shr_1_spec.
    + intros mrs' Hm'. by apply (Hstep (SpecFloat.iter_pos shr_1 p) (SpecFloat.iter_pos shr_1 p)).
  - simpl SpecFloat.iter_pos.
    replace (Z.pos p~0) with (Z.pos p + Z.pos p) by lia.
    by apply (Hstep (SpecFloat.iter_pos shr_1 p) (SpecFloat.iter_pos shr_1 p)).
  - simpl SpecFloat.iter_pos. by apply shr_1_spec.
Qed.

Lemma shr_spec (mrs : shr_record) (e n : Z) :
  0 <= shr_m mrs -> 0 <= n ->
  (shr mrs e n).2 = e + n /\
  shr_m (shr mrs e n).1 = shr_m mrs / 2 ^ n /\
  shr_r (shr mrs e n).1 || shr_s (shr mrs e n).1
  = negb (shr_m mrs mod 2 ^ n =? 0) || (shr_r mrs || shr_s mrs).
Proof.
  intros Hm Hn. destruct n as [|p|p]; [| |lia]; simpl.
  - rewrite Z.div_1_r, Z.mod_1_r. split; [lia|]. done.
  - split; [done|]. by apply shr_iter_spec.
Qed.

Lemma loc_of_shr_record_exact (mrs : shr_record) :
  shr_r mrs || shr_s mrs = false -> loc_of_shr_record mrs = loc_Exact.
Proof. by destruct mrs as [m [] []]. Qed.

Lemma shr_record_of_loc_spec (m : Z) (l : location) :
  shr_m (shr_record_of_loc m l) = m /\
  (l = loc_Exact ->
   shr_r (shr_record_of_loc m l) || shr_s (shr_record_of_loc m l) = false).
Proof. destruct l as [|[]]; simpl; split; done. Qed.

Lemma round_nearest_even_spec (m : Z) (l : location) :
  m <= round_nearest_even m l <= m + 1 /\
  (l = loc_Exact -> round_nearest_even m l = m).
Proof.
  destruct l as [|[]]; simpl; try (split; [lia | done]).
  destruct (Z.even m); split; (lia || done).
Qed.

Lemma Zdigits2_bounds (m : Z) :
  0 < m -> 2 ^ (Zdigits2 m - 1) <= m < 2 ^ Zdigits2 m.
Proof. destruct m as [|p|p]; try lia. intros _. apply digits2_pos_bounds. Qed.

Lemma Zdigits2_unique (m d : Z) :
  2 ^ (d - 1) <= m < 2 ^ d -> 0 < m -> Zdigits2 m = d.
Proof. destruct m as [|p|p]; try lia. intros H _. by apply digits2_pos_unique. Qed.

(** Rounding to nearest even of the value [mx * 2 ^ ex] (or of a value just
    above it, as [lx] tells), for a mantissa of at least 53 digits and a
    result in the range of the normal doubles: the mantissa is divided by
    the power of two that leaves 53 digits, the quotient [q] is kept or
    becomes [q + 1], and the result is normalised again. *)
Lemma binary_round_aux_spec (s : bool) (mx ex : Z) (lx : location) :
  0 < mx ->
  let k := Zdigits2 mx - 53 in
  0 <= k -> -1074 <= ex + k -> ex + k < 971 ->
  exists m e,
    binary_round_aux prec emax s mx ex lx = S754_finite s m e /\
    2 ^ 52 <= Z.pos m < 2 ^ 53 /\
    ex + k <= e <= ex + k + 1 /\
    mx / 2 ^ k <= Z.pos m * 2 ^ (e - (ex + k)) <= mx / 2 ^ k + 1 /\
    (lx = loc_Exact -> mx mod 2 ^ k = 0 ->
     Z.pos m * 2 ^ (e - (ex + k)) = mx / 2 ^ k).
Proof.
  intros Hmx k Hk Hlo Hhi.
  pose proof (Zdigits2_bounds mx Hmx) as Hd.
  replace (Zdigits2 mx) with (k + 53) in Hd by (unfold k; lia).
  replace (k + 53 - 1) with (k + 52) in Hd by lia.
  rewrite !Z.pow_add_r in Hd by lia.
  assert (Hk2 : 0 < 2 ^ k) by (apply Z.pow_pos_nonneg; lia).
  set (q := mx / 2 ^ k).
  assert (Hq : 2 ^ 52 <= q < 2 ^ 53).
  { unfold q. split.
    - apply Z.div_le_lower_bound; lia.
    - apply Z.div_lt_upper_bound; lia. }
  unfold binary_round_aux, shr_fexp.
  assert (E1 : fexp prec emax (Zdigits2 mx + ex) - ex = k).
  { unfold fexp, SpecFloat.emin, prec, emax, k. lia. }
  rewrite E1.
  destruct (shr_record_of_loc_spec mx lx) as [Hm0 Hf0].
  destruct (shr_spec (shr_record_of_loc mx lx) ex k) as (He1 & Hm1 & Hf1);
    [rewrite Hm0; lia | lia |].
  destruct (shr (shr_record_of_loc mx lx) ex k) as [mrs1 e1]. simpl in He1, Hm1, Hf1.
  subst e1. rewrite Hm0 in Hm1, Hf1. fold q in Hm1. rewrite Hm1.
  destruct (round_nearest_even_spec q (loc_of_shr_record mrs1)) as [Hr Hrx].
  set (m1 := round_nearest_even q (loc_of_shr_record mrs1)) in *.
  assert (Hexact : lx = loc_Exact -> mx mod 2 ^ k = 0 -> m1 = q).
  { intros Hl Hz. apply Hrx, loc_of_shr_record_exact.
    rewrite Hf1, Hz, (Hf0 Hl). done. }
  destruct (decide (m1 < 2 ^ 53)) as [Hsmall|Hbig].
  - assert (E2 : Zdigits2 m1 = 53) by (apply Zdigits2_unique; simpl; lia).
    assert (E3 : fexp prec emax (Zdigits2 m1 + (ex + k)) - (ex + k) = 0).
    { rewrite E2. unfold fexp, SpecFloat.emin, prec, emax. lia. }
    rewrite E3. simpl shr.
    destruct m1 as [|m|m] eqn:Em1; try lia.
    replace (shr_m (shr_record_of_loc (Z.pos m) loc_Exact)) with (Z.pos m) by done.
    replace (ex + k <=? emax - prec) with true
      by (symmetry; apply Z.leb_le; unfold emax, prec; lia).
    exists m, (ex + k). split; [done|]. split; [lia|]. split; [lia|].
    rewrite Z.sub_diag, Z.mul_1_r. split; [lia|]. done.
  - assert (Em1 : m1 = 2 ^ 53) by lia.
    assert (E2 : Zdigits2 m1 = 54) by (rewrite Em1; done).
    assert (E3 : fexp prec emax (Zdigits2 m1 + (ex + k)) - (ex + k) = 1).
    { rewrite E2. unfold fexp, SpecFloat.emin, prec, emax. lia. }
    rewrite E3, Em1. simpl.
    replace (ex + k + 1 <=? emax - prec) with true
      by (symmetry; apply Z.leb_le; unfold emax, prec; lia).
    eexists _, (ex + k + 1). split; [done|]. split; [lia|]. split; [lia|].
    replace (ex + k + 1 - (ex + k)) with 1 by lia.
    change (4503599627370496 * 2 ^ 1) with (2 ^ 53). split; [lia|].
    intros Hl Hz. specialize (Hexact Hl Hz). lia.
Qed.

Lemma pos_iter_xO (d m : positive) :
  Z.pos (Pos.iter xO m d) = Z.pos m * 2 ^ Z.pos d.
Proof.
  induction d as [|d IH] using Pos.peano_ind.
  - simpl. lia.
  - rewrite Pos.iter_succ, Pos2Z.inj_xO, IH, Pos2Z.inj_succ, Z.pow_succ_r by lia. lia.
Qed.

(** A mantissa of 53 digits with an exponent in range is a valid double. *)
Lemma valid_binary_normal (s : bool) (m : positive) (e : Z) :
  2 ^ 52 <= Z.pos m < 2 ^ 53 -> -1074 <= e <= 971 ->
  valid_binary (S754_finite s m e) = true.
Proof.
  intros Hm He. unfold SpecFloat.valid_binary, bounded, canonical_mantissa.
  rewrite (digits2_pos_unique m 53) by (simpl; lia).
  apply andb_true_iff. split.
  - apply Z.eqb_eq. unfold fexp, SpecFloat.emin, prec, emax. lia.
  - apply Z.leb_le. unfold prec, emax. lia.
Qed.

(** The double of a nonzero integer below [2 ^ 53] in magnitude holds it
    exactly: the mantissa is the magnitude shifted left to 53 digits. *)
Lemma of_Z_exact (z : Z) :
  0 < Z.abs z < 2 ^ 53 ->
  exists m e,
    Prim2SF (Double.of_Z z) = S754_finite (z <? 0) m e /\
    2 ^ 52 <= Z.pos m < 2 ^ 53 /\
    -52 <= e <= 0 /\
    Z.pos m = Z.abs z * 2 ^ (- e).
Proof.
  intros Hz. unfold Double.of_Z.
  assert (Hgen : forall (s : bool) (p : positive), Z.pos p < 2 ^ 53 ->
    exists m e,
      binary_round prec emax s p 0 = S754_finite s m e /\
      2 ^ 52 <= Z.pos m < 2 ^ 53 /\ -52 <= e <= 0 /\
      Z.pos m = Z.pos p * 2 ^ (- e)).
  { intros s p Hp. unfold binary_round.
    pose proof (digits2_pos_bounds p) as Hd.
    set (d := Z.pos (digits2_pos p)) in *.
    assert (Hd53 : 1 <= d <= 53).
    { split; [unfold d; lia|].
      destruct (Z.le_gt_cases d 53); [done|].
      assert (2 ^ 53 <= 2 ^ (d - 1)) by (apply Z.pow_le_mono_r; lia). lia. }
    assert (E1 : fexp prec emax (d + 0) = d - 53).
    { unfold fexp, SpecFloat.emin, prec, emax. lia. }
    rewrite E1.
    assert (exists mz, shl_align p 0 (d - 53) = (mz, d - 53) /\
                       Z.pos mz = Z.pos p * 2 ^ (53 - d)) as (mz & -> & Hmz).
    { unfold shl_align. rewrite Z.sub_0_r.
      destruct (d - 53) as [|x|x] eqn:Ex; try lia.
      - exists p. split; [done|]. replace (53 - d) with 0 by lia. lia.
      - eexists. split; [done|]. rewrite pos_iter_xO. f_equal. f_equal. lia. }
    assert (Hmz2 : 2 ^ 52 <= Z.pos mz < 2 ^ 53).
    { rewrite Hmz.
      replace (2 ^ 52) with (2 ^ (d - 1) * 2 ^ (53 - d))
        by (rewrite <- Z.pow_add_r by lia; f_equal; lia).
      replace (2 ^ 53) with (2 ^ d * 2 ^ (53 - d))
        by (rewrite <- Z.pow_add_r by lia; f_equal; lia).
      assert (0 < 2 ^ (53 - d)) by (apply Z.pow_pos_nonneg; lia). nia. }
    assert (Hdz : Zdigits2 (Z.pos mz) = 53) by (apply Zdigits2_unique; simpl; lia).
    destruct (binary_round_aux_spec s (Z.pos mz) (d - 53) loc_Exact)
      as (m & e & Hr & Hm & He & Hq & Hx); rewrite ?Hdz; try lia.
    rewrite Hdz in *. simpl (53 - 53) in *.
    rewrite Z.div_1_r, Z.mod_1_r, Z.add_0_r in *.
    specialize (Hx eq_refl eq_refl).
    assert (e = d - 53) as ->.
    { destruct (decide (e = d - 53)); [done|].
      replace (e - (d - 53)) with 1 in Hx by lia. lia. }
    rewrite Z.sub_diag, Z.mul_1_r in Hx.
    exists m, (d - 53). split; [done|]. split; [lia|]. split; [lia|].
    rewrite Hx, Hmz. f_equal. f_equal. lia. }
  destruct z as [|p|p]; [simpl in Hz; lia| |]; simpl binary_normalize.
  - destruct (Hgen false p) as (m & e & Hr & Hm & He & Hv); [simpl in Hz; lia|].
    exists m, e. rewrite Hr, Prim2SF_SF2Prim by (apply valid_binary_normal; lia).
    done.
  - destruct (Hgen true p) as (m & e & Hr & Hm & He & Hv); [simpl in Hz; lia|].
    exists m, e. rewrite Hr, Prim2SF_SF2Prim by (apply valid_binary_normal; lia).
    done.
Qed.

Lemma new_location_exact (nb_steps : Z) : new_location nb_steps 0 = loc_Exact.
Proof. unfold new_location. by destruct (Z.even nb_steps). Qed.

(** Integer facts behind the division of two mantissas of 53 digits: the
    quotient of the dividend shifted by 53 digits has 53 or 54 digits. *)
Lemma quotient_digits (mx my q r : Z) :
  2 ^ 52 <= mx < 2 ^ 53 -> 2 ^ 52 <= my < 2 ^ 53 ->
  mx * 2 ^ 53 = my * q + r -> 0 <= r < my ->
  2 ^ 52 <= q < 2 ^ 54.
Proof.
  intros Hx Hy Hdiv Hr. split.
  - destruct (Z.le_gt_cases (2 ^ 52) q) as [|Hlt]; [done|]. exfalso.
    assert (my * q <= my * (2 ^ 52 - 1)) by (apply Z.mul_le_mono_nonneg_l; lia).
    assert (2 ^ 52 * 2 ^ 53 <= mx * 2 ^ 53) by (apply Z.mul_le_mono_nonneg_r; lia).
    assert (my * 2 ^ 52 < 2 ^ 53 * 2 ^ 52) by (apply Z.mul_lt_mono_pos_r; lia).
    lia.
  - destruct (Z.le_gt_cases (2 ^ 54) q) as [Hge|]; [|done]. exfalso.
    assert (my * 2 ^ 54 <= my * q) by (apply Z.mul_le_mono_nonneg_l; lia).
    assert (2 ^ 52 * 2 ^ 54 <= my * 2 ^ 54) by (apply Z.mul_le_mono_nonneg_r; lia).
    assert (mx * 2 ^ 53 < 2 ^ 53 * 2 ^ 53) by (apply Z.mul_lt_mono_pos_r; lia).
    lia.
Qed.

(** With [s * A] and [n * B] the two mantissas and [q = K * q' + rho] the
    quotient, [q'] is the integer part of [s * C / n] for the scale [C]
    with [C * B * K = A * 2 ^ 53], and the division leaves nothing exactly
    when [s * C / n] is an integer. *)
Lemma scaled_quotient (s n A B K C q q' r rho : Z) :
  0 < n -> 0 < B -> 0 < K ->
  C * (B * K) = A * 2 ^ 53 ->
  s * A * 2 ^ 53 = n * B * q + r -> 0 <= r < n * B ->
  q = K * q' + rho -> 0 <= rho < K ->
  q' * n <= s * C < (q' + 1) * n /\ (q' * n = s * C -> r = 0 /\ rho = 0).
Proof.
  intros Hn HB HK Hscale Hdiv Hr Hq Hrho.
  set (D := B * K). assert (HD : 0 < D) by (unfold D; lia).
  set (t := n * B * rho + r).
  assert (Ht : 0 <= t < n * D).
  { unfold t, D. split; [nia|].
    assert (n * B * rho <= n * B * (K - 1)) by (apply Z.mul_le_mono_nonneg_l; lia).
    lia. }
  assert (E : s * C * D = q' * n * D + t).
  { unfold t, D. subst q.
    replace (s * C * (B * K)) with (s * (C * (B * K))) by ring.
    rewrite Hscale.
    replace (s * (A * 2 ^ 53)) with (s * A * 2 ^ 53) by ring.
    rewrite Hdiv. ring. }
  split; [split|].
  - apply (Z.mul_le_mono_pos_r _ _ D HD). lia.
  - apply (Z.mul_lt_mono_pos_r D _ _ HD).
    replace ((q' + 1) * n * D) with (q' * n * D + n * D) by ring. lia.
  - intros Heq. rewrite Heq in E. assert (t = 0) by lia.
    unfold t in *. assert (0 <= n * B * rho) by nia.
    assert (r = 0) by lia. split; [done|]. nia.
Qed.

(** An integer below the exact quotient is below its integer part, and an
    integer above a quotient that is not an integer is above the integer
    part by one at least. *)
Lemma floor_bounds (s n C q' a : Z) :
  0 < n -> 0 < C -> q' * n <= s * C < (q' + 1) * n ->
  (a * n <= s -> a * C <= q') /\
  (s <= a * n -> q' <= a * C /\ (q' * n <> s * C -> q' + 1 <= a * C)).
Proof.
  intros Hn HC Hfloor. split.
  - intros Ha.
    assert (a * n * C <= s * C) by (apply Z.mul_le_mono_nonneg_r; lia).
    assert (a * C * n < (q' + 1) * n) by (replace (a * C * n) with (a * n * C) by ring; lia).
    apply Z.mul_lt_mono_pos_r in H0; lia.
  - intros Ha.
    assert (s * C <= a * n * C) by (apply Z.mul_le_mono_nonneg_r; lia).
    assert (Hle : q' * n <= a * C * n)
      by (replace (a * C * n) with (a * n * C) by ring; lia).
    split.
    + apply Z.mul_le_mono_pos_r in Hle; lia.
    + intros Hne. assert (Hlt : q' * n < a * C * n)
        by (replace (a * C * n) with (a * n * C) by ring; lia).
      apply Z.mul_lt_mono_pos_r in Hlt; lia.
Qed.

(** The quotient of the doubles of two integers below [2 ^ 53], the
    divisor positive: a finite double of mantissa [m] and exponent [e]
    with the sign of the dividend, no smaller than any integer below the
    exact quotient and no larger than any integer above it (both sides
    scaled by [2 ^ c] to compare integers). *)
Lemma div_of_Z_spec (S n : Z) :
  0 < Z.abs S < 2 ^ 53 -> 0 < n < 2 ^ 53 ->
  exists m e c,
    Prim2SF (PrimFloat.div (Double.of_Z S) (Double.of_Z n))
    = S754_finite (S <? 0) m e /\
    2 ^ 52 <= Z.pos m < 2 ^ 53 /\
    0 <= c /\ 0 <= e + c /\
    forall a,
      (a * n <= Z.abs S -> a * 2 ^ c <= Z.pos m * 2 ^ (e + c)) /\
      (Z.abs S <= a * n -> Z.pos m * 2 ^ (e + c) <= a * 2 ^ c).
Proof.
  intros HS Hn.
  destruct (of_Z_exact S HS) as (mx & ex & Hx & Hmx & Hex & Hvx).
  destruct (of_Z_exact n) as (my & ey & Hy & Hmy & Hey & Hvy); [lia|].
  replace (n <? 0) with false in Hy by (symmetry; apply Z.ltb_ge; lia).
  rewrite (Z.abs_eq n) in Hvy by lia.
  rewrite div_spec, Hx, Hy. unfold SF64div, SFdiv, SFdiv_core_binary.
  rewrite xorb_false_r.
  rewrite (Zdigits2_unique (Z.pos mx) 53), (Zdigits2_unique (Z.pos my) 53)
    by (simpl; lia).
  assert (E1 : Z.min (fexp prec emax (53 + ex - (53 + ey))) (ex - ey) = ex - ey - 53).
  { unfold fexp, SpecFloat.emin, prec, emax. lia. }
  rewrite E1. replace (ex - ey - (ex - ey - 53)) with 53 by lia.
  rewrite Z.shiftl_mul_pow2 by lia.
  pose proof (Z.div_eucl_eq (Z.pos mx * 2 ^ 53) (Z.pos my) ltac:(lia)) as Heq.
  pose proof (Z.mod_pos_bound (Z.pos mx * 2 ^ 53) (Z.pos my) ltac:(lia)) as Hrem.
  unfold Z.modulo in Hrem.
  destruct (Z.div_eucl (Z.pos mx * 2 ^ 53) (Z.pos my)) as [q r].
  pose proof (quotient_digits _ _ _ _ Hmx Hmy Heq Hrem) as Hq.
  set (k := Zdigits2 q - 53).
  assert (Hk : k = 0 \/ k = 1).
  { pose proof (Zdigits2_bounds q ltac:(lia)) as Hd.
    destruct (Z.le_gt_cases (2 ^ 53) q).
    - right. unfold k. rewrite (Zdigits2_unique q 54); lia.
    - left. unfold k. rewrite (Zdigits2_unique q 53); lia. }
  destruct (binary_round_aux_spec (S <? 0) q (ex - ey - 53) (new_location (Z.pos my) r))
    as (m & e & Hr & Hm & He & Hb & Hexact); try (fold k; lia).
  fold k in He, Hb, Hexact.
  set (c := 53 - ex + ey - k).
  assert (Hc : 0 <= c) by (unfold c; lia).
  replace (ex - ey - 53 + k) with (- c) in * by (unfold c; lia).
  replace (e - - c) with (e + c) in * by lia.
  exists m, e, c. split; [done|]. split; [done|]. split; [done|]. split; [lia|].
  assert (Hscale : 2 ^ c * (2 ^ (- ey) * 2 ^ k) = 2 ^ (- ex) * 2 ^ 53).
  { unfold c. rewrite <- !Z.pow_add_r by lia. f_equal. lia. }
  assert (H2k : 0 < 2 ^ k) by (apply Z.pow_pos_nonneg; lia).
  assert (H2c : 0 < 2 ^ c) by (apply Z.pow_pos_nonneg; lia).
  assert (H2y : 0 < 2 ^ (- ey)) by (apply Z.pow_pos_nonneg; lia).
  pose proof (Z.div_mod q (2 ^ k) ltac:(lia)) as Hqk.
  pose proof (Z.mod_pos_bound q (2 ^ k) ltac:(lia)) as Hqr.
  rewrite Hvx, Hvy in Heq. rewrite Hvy in Hrem.
  destruct (scaled_quotient _ _ _ _ _ _ _ _ _ _ (proj1 Hn) H2y H2k Hscale Heq Hrem Hqk Hqr)
    as [Hfloor Hzero].
  intros a. destruct (floor_bounds _ _ _ _ a (proj1 Hn) H2c Hfloor) as [Hlow Hup].
  split.
  - intros Ha. specialize (Hlow Ha). lia.
  - intros Ha. destruct (Hup Ha) as [Hle Hlt].
    destruct (decide (q / 2 ^ k * n = Z.abs S * 2 ^ c)) as [Hex0|Hne].
    + destruct (Hzero Hex0) as [-> Hz].
      rewrite Hexact by (done || apply new_location_exact). done.
    + specialize (Hlt Hne). lia.
Qed.

(** The integer fact behind [size * 0.8]: with [M] the mantissa of the
    double nearest to 0.8 and [q] the 53 leading digits of the product,
    both [q] and [q + 1] lie between [k0] and [k0 + 1] (scaled by [C]),
    where [k0] is the integer part of four fifths of the size. *)
Lemma four_fifths_floor (size A K C M mx q rho k0 rho5 m1 : Z) :
  5 * M = 2 ^ 55 + 2 -> 0 <= size -> 2 ^ 21 <= A -> size * A < 2 ^ 53 ->
  0 < K <= 2 ^ 53 -> C * K = 2 ^ 53 * A ->
  mx = size * A * M -> mx = K * q + rho -> 0 <= rho < K ->
  4 * size = 5 * k0 + rho5 -> 0 <= rho5 < 5 ->
  q <= m1 <= q + 1 ->
  k0 * C <= m1 < (k0 + 1) * C.
Proof.
  intros HM Hsize HA HsA HK Hscale Hmx Hq Hrho Hk0 Hrho5 Hm1.
  set (W := 2 ^ 53 * A) in *.
  assert (HW : 2 ^ 53 * 2 ^ 21 <= W) by (unfold W; lia).
  assert (E5 : 5 * mx = 5 * k0 * W + rho5 * W + 2 * (size * A)).
  { rewrite Hmx. unfold W.
    replace (5 * (size * A * M)) with (size * A * (5 * M)) by ring.
    rewrite HM.
    replace (size * A * (2 ^ 55 + 2)) with (4 * size * (2 ^ 53 * A) + 2 * (size * A)) by ring.
    rewrite Hk0. ring. }
  assert (0 <= size * A) by (apply Z.mul_nonneg_nonneg; lia).
  assert (0 <= rho5 * W <= 4 * W)
    by (split; [apply Z.mul_nonneg_nonneg; lia | apply Z.mul_le_mono_nonneg_r; lia]).
  split.
  - destruct (Z.le_gt_cases (k0 * C) q) as [|Hlt]; [lia|]. exfalso.
    assert (K * (q + 1) <= K * (k0 * C)) by (apply Z.mul_le_mono_nonneg_l; lia).
    replace (K * (k0 * C)) with (k0 * (C * K)) in * by ring.
    rewrite Hscale in *. lia.
  - destruct (Z.le_gt_cases ((k0 + 1) * C) (q + 1)) as [Hge|]; [|lia]. exfalso.
    assert (K * ((k0 + 1) * C) <= K * (q + 1)) by (apply Z.mul_le_mono_nonneg_l; lia).
    replace (K * ((k0 + 1) * C)) with ((k0 + 1) * (C * K)) in * by ring.
    rewrite Hscale in *. lia.
Qed.

Lemma product_digits (a b : Z) :
  2 ^ 52 <= a < 2 ^ 53 -> 2 ^ 52 <= b < 2 ^ 53 -> 2 ^ 104 <= a * b < 2 ^ 106.
Proof.
  intros Ha Hb. split.
  - change (2 ^ 104) with (2 ^ 52 * 2 ^ 52). apply Z.mul_le_mono_nonneg; lia.
  - change (2 ^ 106) with (2 ^ 53 * 2 ^ 53). apply Z.mul_lt_mono_nonneg; lia.
Qed.

(** The integer part of [size * 0.8], computed on doubles, is the integer
    part of four fifths of the size: the double nearest to 0.8 exceeds it
    by too little, and the product is rounded by too little, to reach the
    next integer. *)
Lemma truncate_four_fifths (size : Z) :
  0 <= size < 2 ^ 32 ->
  Double.truncate (PrimFloat.mul (Double.of_Z size) Double.lit_0_8)
  = Some (4 * size / 5).
Proof.
  intros Hsize. destruct (decide (size = 0)) as [->|Hpos]; [by vm_compute|].
  destruct (of_Z_exact size) as (mT & eT & HT & HmT & HeT & HvT); [lia|].
  replace (size <? 0) with false in HT by (symmetry; apply Z.ltb_ge; lia).
  rewrite (Z.abs_eq size) in HvT by lia.
  unfold Double.truncate. rewrite mul_spec, HT.
  change (Prim2SF Double.lit_0_8) with (S754_finite false 7205759403792794 (-53)).
  unfold SF64mul, SFmul. simpl xorb. rewrite Pos2Z.inj_mul.
  set (M := Z.pos 7205759403792794).
  assert (HM : 5 * M = 2 ^ 55 + 2) by done.
  assert (HM2 : 2 ^ 52 <= M < 2 ^ 53) by done.
  assert (HeT2 : eT <= -21).
  { destruct (Z.le_gt_cases eT (-21)); [done|].
    assert (2 ^ (- eT) <= 2 ^ 20) by (apply Z.pow_le_mono_r; lia).
    assert (size * 2 ^ (- eT) <= size * 2 ^ 20)
      by (apply Z.mul_le_mono_nonneg_l; lia).
    lia. }
  assert (HA : 2 ^ 21 <= 2 ^ (- eT)) by (apply Z.pow_le_mono_r; lia).
  pose proof (product_digits _ _ HmT HM2) as Hmx.
  set (mx := Z.pos mT * M) in *.
  set (k := Zdigits2 mx - 53).
  assert (Hk : k = 52 \/ k = 53).
  { destruct (Z.le_gt_cases (2 ^ 105) mx).
    - right. unfold k. rewrite (Zdigits2_unique mx 106); lia.
    - left. unfold k. rewrite (Zdigits2_unique mx 105); lia. }
  destruct (binary_round_aux_spec false mx (eT + -53) loc_Exact)
    as (m & e & Hr & Hm & He & Hb & _); try (fold k; lia).
  fold k in He, Hb. rewrite Hr.
  set (c := - (eT + -53 + k)).
  assert (Hc : 20 <= c) by (unfold c; lia).
  replace (eT + -53 + k) with (- c) in * by (unfold c; lia).
  replace (e - - c) with (e + c) in * by lia.
  replace (0 <=? e) with false by (symmetry; apply Z.leb_gt; lia).
  f_equal.
  assert (H2k : 0 < 2 ^ k) by (apply Z.pow_pos_nonneg; lia).
  assert (H2c : 0 < 2 ^ c) by (apply Z.pow_pos_nonneg; lia).
  assert (H2e : 0 < 2 ^ (e + c)) by (apply Z.pow_pos_nonneg; lia).
  assert (Hsplit : 2 ^ c = 2 ^ (- e) * 2 ^ (e + c)).
  { rewrite <- Z.pow_add_r by lia. f_equal. lia. }
  assert (Hscale : 2 ^ c * 2 ^ k = 2 ^ 53 * 2 ^ (- eT)).
  { unfold c. rewrite <- !Z.pow_add_r by lia. f_equal. lia. }
  assert (Hk2 : 2 ^ k <= 2 ^ 53) by (apply Z.pow_le_mono_r; lia).
  transitivity (Z.pos m * 2 ^ (e + c) / 2 ^ c).
  { rewrite Hsplit, Z.div_mul_cancel_r by lia. done. }
  pose proof (Z.div_mod mx (2 ^ k) ltac:(lia)) as Hqk.
  pose proof (Z.mod_pos_bound mx (2 ^ k) ltac:(lia)) as Hqr.
  pose proof (Z.div_mod (4 * size) 5 ltac:(lia)) as Hk0.
  pose proof (Z.mod_pos_bound (4 * size) 5 ltac:(lia)) as Hk0r.
  assert (Hmx' : mx = size * 2 ^ (- eT) * M) by (unfold mx; by rewrite HvT).
  pose proof (four_fifths_floor size (2 ^ (- eT)) (2 ^ k) (2 ^ c) M mx
    (mx / 2 ^ k) (mx mod 2 ^ k) (4 * size / 5) ((4 * size) mod 5)
    (Z.pos m * 2 ^ (e + c)) HM ltac:(lia) HA ltac:(lia) ltac:(lia) Hscale
    Hmx' Hqk Hqr Hk0 Hk0r Hb) as Hfloor.
  symmetry.
  apply (Z.div_unique _ _ _ (Z.pos m * 2 ^ (e + c) - 4 * size / 5 * 2 ^ c)); lia.
Qed.

Lemma normal_mantissa_unique (m1 m2 x y : Z) :
  2 ^ 52 <= m1 < 2 ^ 53 -> 2 ^ 52 <= m2 < 2 ^ 53 -> 0 <= x -> 0 <= y ->
  m1 * 2 ^ x = m2 * 2 ^ y -> x = y /\ m1 = m2.
Proof.
  intros H1 H2 Hx Hy E.
  assert (Hlt : forall a b u v, 2 ^ 52 <= a < 2 ^ 53 -> 2 ^ 52 <= b < 2 ^ 53 ->
            0 <= u < v -> a * 2 ^ u = b * 2 ^ v -> False).
  { intros a b u v Ha Hb Huv Eab.
    replace v with (u + (v - u)) in Eab by lia.
    rewrite Z.pow_add_r in Eab by lia.
    assert (0 < 2 ^ u) by (apply Z.pow_pos_nonneg; lia).
    assert (2 ^ 1 <= 2 ^ (v - u)) by (apply Z.pow_le_mono_r; lia).
    assert (a = b * 2 ^ (v - u)) by nia. nia. }
  destruct (Z.lt_trichotomy x y) as [Hxy|[->|Hxy]].
  - exfalso. eapply (Hlt m1 m2 x y); eauto.
  - split; [done|]. assert (0 < 2 ^ y) by (apply Z.pow_pos_nonneg; lia). nia.
  - exfalso. eapply (Hlt m2 m1 y x); eauto.
Qed.

(** The exact comparison of a finite double with an integer, both scaled
    by a power of two that makes the double an integer. *)
Lemma value_compare_finite (x : float) (s : bool) (m : positive) (e c z : Z) :
  Prim2SF x = S754_finite s m e -> 0 <= c -> 0 <= e + c ->
  value_compare x z
  = Some ((if s then Z.neg m else Z.pos m) * 2 ^ (e + c) ?= z * 2 ^ c).
Proof.
  intros Hx Hc Hec. unfold value_compare. rewrite Hx. f_equal.
  set (v := if s then Z.neg m else Z.pos m).
  destruct (Z.leb_spec 0 e).
  - rewrite Z.pow_add_r, Z.mul_assoc by lia.
    rewrite <- Zmult_compare_compat_r; [done|].
    apply Z.lt_gt, Z.pow_pos_nonneg; lia.
  - replace (z * 2 ^ c) with (z * 2 ^ (- e) * 2 ^ (e + c)).
    + rewrite <- Zmult_compare_compat_r; [done|].
      apply Z.lt_gt, Z.pow_pos_nonneg; lia.
    + rewrite <- Z.mul_assoc, <- Z.pow_add_r by lia. do 2 f_equal. lia.
Qed.

Lemma div_zero_of_Z (n : Z) :
  0 < n < 2 ^ 53 ->
  Prim2SF (PrimFloat.div (Double.of_Z 0) (Double.of_Z n)) = S754_zero false.
Proof.
  intros Hn. destruct (of_Z_exact n) as (my & ey & Hy & _); [lia|].
  replace (n <? 0) with false in Hy by (symmetry; apply Z.ltb_ge; lia).
  rewrite div_spec, Hy.
  replace (Prim2SF (Double.of_Z 0)) with (S754_zero false) by (vm_compute; reflexivity).
  reflexivity.
Qed.

(** The double quotient of two integers below [2 ^ 53], the divisor
    positive, is at least every integer that is at most the exact quotient,
    at most every integer that is at least the exact quotient, and is the
    double of the exact quotient when that is an integer. *)
Lemma quotient_bounds (S n a : Z) :
  Z.abs S < 2 ^ 53 -> 0 < n < 2 ^ 53 ->
  (a * n <= S -> value_ge (PrimFloat.div (Double.of_Z S) (Double.of_Z n)) a = true) /\
  (S <= a * n -> value_le (PrimFloat.div (Double.of_Z S) (Double.of_Z n)) a = true) /\
  (S = a * n -> PrimFloat.div (Double.of_Z S) (Double.of_Z n) = Double.of_Z a).
Proof.
  intros HS Hn. unfold value_ge, value_le.
  destruct (decide (S = 0)) as [->|HS0].
  - pose proof (div_zero_of_Z n Hn) as Hr.
    unfold value_compare. rewrite Hr. split; [|split].
    + intros Ha. destruct (Z.compare_spec 0 a); try done. nia.
    + intros Ha. destruct (Z.compare_spec 0 a); try done. nia.
    + intros Ha. assert (a = 0) as -> by nia.
      apply Prim2SF_inj. rewrite Hr. reflexivity.
  - destruct (div_of_Z_spec S n) as (m & e & c & Hr & Hm & Hc & Hec & Hb); [lia|done|].
    rewrite (value_compare_finite _ _ _ _ c a Hr Hc Hec).
    assert (H2c : 0 < 2 ^ c) by (apply Z.pow_pos_nonneg; lia).
    assert (H2e : 0 < 2 ^ (e + c)) by (apply Z.pow_pos_nonneg; lia).
    destruct (Z.ltb_spec S 0) as [Hneg|Hpos].
    + rewrite Z.abs_neq in Hb by lia. split; [|split].
      * intros Ha. destruct (Hb (- a)) as [_ Hu].
        destruct (Z.compare_spec (Z.neg m * 2 ^ (e + c)) (a * 2 ^ c)); try done.
        specialize (Hu ltac:(lia)). lia.
      * intros Ha. destruct (Hb (- a)) as [Hl _].
        destruct (Z.compare_spec (Z.neg m * 2 ^ (e + c)) (a * 2 ^ c)); try done.
        specialize (Hl ltac:(lia)). lia.
      * intros Ha. destruct (Hb (- a)) as [Hl Hu].
        specialize (Hl ltac:(lia)). specialize (Hu ltac:(lia)).
        destruct (of_Z_exact a) as (ma & ea & Hra & Hma & Hea & Hva); [nia|].
        replace (a <? 0) with true in Hra by (symmetry; apply Z.ltb_lt; nia).
        rewrite Z.abs_neq in Hva by nia.
        destruct (normal_mantissa_unique (Z.pos m) (Z.pos ma) (e + c - ea) c)
          as [Ee Em]; try lia.
        { replace (e + c - ea) with (e + c + - ea) by lia.
          rewrite Z.pow_add_r, Hva by lia. nia. }
        apply Prim2SF_inj. rewrite Hr, Hra.
        assert (e = ea) as -> by lia. by injection Em as ->.
    + rewrite Z.abs_eq in Hb by lia. split; [|split].
      * intros Ha. destruct (Hb a) as [Hl _].
        destruct (Z.compare_spec (Z.pos m * 2 ^ (e + c)) (a * 2 ^ c)); try done.
        specialize (Hl ltac:(lia)). lia.
      * intros Ha. destruct (Hb a) as [_ Hu].
        destruct (Z.compare_spec (Z.pos m * 2 ^ (e + c)) (a * 2 ^ c)); try done.
        specialize (Hu ltac:(lia)). lia.
      * intros Ha. destruct (Hb a) as [Hl Hu].
        specialize (Hl ltac:(lia)). specialize (Hu ltac:(lia)).
        destruct (of_Z_exact a) as (ma & ea & Hra & Hma & Hea & Hva); [nia|].
        replace (a <? 0) with false in Hra by (symmetry; apply Z.ltb_ge; nia).
        rewrite Z.abs_eq in Hva by nia.
        destruct (normal_mantissa_unique (Z.pos m) (Z.pos ma) (e + c - ea) c)
          as [Ee Em]; try lia.
        { replace (e + c - ea) with (e + c + - ea) by lia.
          rewrite Z.pow_add_r, Hva by lia. nia. }
        apply Prim2SF_inj. rewrite Hr, Hra.
        assert (e = ea) as -> by lia. by injection Em as ->.
Qed.

(** Two mantissas of 53 digits with their exponents are ordered as their
    values are: by the exponents first, by the mantissas when the
    exponents agree. *)
Lemma normal_order (m1 m2 x y : Z) :
  2 ^ 52 <= m1 < 2 ^ 53 -> 2 ^ 52 <= m2 < 2 ^ 53 -> 0 <= x -> 0 <= y ->
  m1 * 2 ^ x <= m2 * 2 ^ y -> x < y \/ (x = y /\ m1 <= m2).
Proof.
  intros H1 H2 Hx Hy Hle.
  destruct (Z.lt_trichotomy x y) as [Hxy|[->|Hxy]]; [by left| |].
  - right. split; [done|].
    assert (0 < 2 ^ y) by (apply Z.pow_pos_nonneg; lia).
    apply Z.mul_le_mono_pos_r in Hle; lia.
  - exfalso.
    replace x with (y + (x - y)) in Hle by lia.
    rewrite Z.pow_add_r in Hle by lia.
    replace (m1 * (2 ^ y * 2 ^ (x - y))) with (m1 * 2 ^ (x - y) * 2 ^ y) in Hle
      by ring.
    assert (0 < 2 ^ y) by (apply Z.pow_pos_nonneg; lia).
    apply Z.mul_le_mono_pos_r in Hle; [|done].
    assert (2 ^ 1 <= 2 ^ (x - y)) by (apply Z.pow_le_mono_r; lia).
    assert (m1 * 2 ^ 1 <= m1 * 2 ^ (x - y)) by (apply Z.mul_le_mono_nonneg_l; lia).
    lia.
Qed.

(** The comparison of two finite doubles with mantissas of 53 digits
    follows their values. *)
Lemma SFleb_normal (s1 s2 : bool) (m1 m2 : positive) (e1 e2 c : Z) :
  2 ^ 52 <= Z.pos m1 < 2 ^ 53 -> 2 ^ 52 <= Z.pos m2 < 2 ^ 53 ->
  0 <= e1 + c -> 0 <= e2 + c ->
  (if s1 then Z.neg m1 else Z.pos m1) * 2 ^ (e1 + c)
  <= (if s2 then Z.neg m2 else Z.pos m2) * 2 ^ (e2 + c) ->
  SFleb (S754_finite s1 m1 e1) (S754_finite s2 m2 e2) = true.
Proof.
  intros H1 H2 Hx Hy Hle. unfold SFleb, SFcompare.
  assert (Hp1 : 0 < 2 ^ (e1 + c)) by (apply Z.pow_pos_nonneg; lia).
  assert (Hp2 : 0 < 2 ^ (e2 + c)) by (apply Z.pow_pos_nonneg; lia).
  rewrite Pos.compare_cont_spec. simpl Pos.switch_Eq.
  destruct s1, s2; try done.
  - assert (Hle' : Z.pos m2 * 2 ^ (e2 + c) <= Z.pos m1 * 2 ^ (e1 + c)).
    { replace (Z.neg m1) with (- Z.pos m1) in Hle by done.
      replace (Z.neg m2) with (- Z.pos m2) in Hle by done. lia. }
    destruct (normal_order _ _ _ _ H2 H1 Hy Hx Hle') as [Hlt|[Heq Hm]].
    + destruct (Z.compare_spec e1 e2); first [lia | done].
    + assert (e1 = e2) as -> by lia. rewrite Z.compare_refl.
      rewrite Pos2Z.inj_compare.
      destruct (Z.compare_spec (Z.pos m1) (Z.pos m2)); simpl; first [done | lia].
  - exfalso. assert (0 < Z.pos m1 * 2 ^ (e1 + c)) by lia.
    assert (Z.neg m2 * 2 ^ (e2 + c) < 0); [|lia].
    apply Z.mul_neg_pos; lia.
  - destruct (normal_order _ _ _ _ H1 H2 Hx Hy Hle) as [Hlt|[Heq Hm]].
    + destruct (Z.compare_spec e1 e2); first [lia | done].
    + assert (e1 = e2) as -> by lia. rewrite Z.compare_refl.
      rewrite Pos2Z.inj_compare.
      destruct (Z.compare_spec (Z.pos m1) (Z.pos m2)); simpl; first [done | lia].
Qed.

(** For a double that is zero or has a mantissa of 53 digits, the exact
    comparisons with an integer below [2 ^ 53] in magnitude give the
    comparisons of the program with the double of that integer. *)
Lemma leb_of_Z_value (a : Z) (x : float) :
  Z.abs a < 2 ^ 53 ->
  (exists s, Prim2SF x = S754_zero s) \/
  (exists s m e, Prim2SF x = S754_finite s m e /\ 2 ^ 52 <= Z.pos m < 2 ^ 53) ->
  (value_ge x a = true -> PrimFloat.leb (Double.of_Z a) x = true) /\
  (value_le x a = true -> PrimFloat.leb x (Double.of_Z a) = true).
Proof.
  intros Ha Hx. rewrite !leb_spec. unfold value_ge, value_le.
  destruct (decide (a = 0)) as [->|Ha0].
  - replace (Prim2SF (Double.of_Z 0)) with (S754_zero false)
      by (vm_compute; reflexivity).
    destruct Hx as [[s Hx]|(s & m & e & Hx & Hm)].
    + unfold value_compare. rewrite Hx. done.
    + set (c := Z.max 0 (- e)).
      assert (Hp : 0 < 2 ^ (e + c)) by (apply Z.pow_pos_nonneg; lia).
      rewrite (value_compare_finite x s m e c 0 Hx) by lia. rewrite Hx.
      rewrite Z.mul_0_l. unfold SFleb, SFcompare.
      destruct s; split; try done.
      * assert (Z.neg m * 2 ^ (e + c) < 0) by (apply Z.mul_neg_pos; lia).
        destruct (Z.compare_spec (Z.neg m * 2 ^ (e + c)) 0); first [lia | done].
      * assert (0 < Z.pos m * 2 ^ (e + c)) by (apply Z.mul_pos_pos; lia).
        destruct (Z.compare_spec (Z.pos m * 2 ^ (e + c)) 0); first [lia | done].
  - destruct (of_Z_exact a) as (ma & ea & Hra & Hma & Hea & Hva); [lia|].
    rewrite Hra.
    assert (Hsa : (if a <? 0 then Z.neg ma else Z.pos ma) = a * 2 ^ (- ea)).
    { destruct (Z.ltb_spec a 0).
      - rewrite Z.abs_neq in Hva by lia.
        replace (Z.neg ma) with (- Z.pos ma) by done. lia.
      - rewrite Z.abs_eq in Hva by lia. done. }
    destruct Hx as [[s Hx]|(s & m & e & Hx & Hm)].
    + unfold value_compare. rewrite Hx. unfold SFleb, SFcompare.
      destruct (Z.ltb_spec a 0); split; try done.
      * destruct (Z.compare_spec 0 a); try done; lia.
      * destruct (Z.compare_spec 0 a); try done; lia.
    + set (c := Z.max 0 (- e) + 52).
      assert (Hc : 0 <= c /\ 0 <= e + c /\ 0 <= ea + c) by (unfold c; lia).
      rewrite (value_compare_finite x s m e c a Hx) by lia. rewrite Hx.
      assert (Hscale : a * 2 ^ c
                       = (if a <? 0 then Z.neg ma else Z.pos ma) * 2 ^ (ea + c)).
      { rewrite Hsa, <- Z.mul_assoc, <- Z.pow_add_r by lia. do 2 f_equal. lia. }
      split.
      * intros Hge. apply (SFleb_normal _ _ _ _ _ _ c); try lia.
        rewrite <- Hscale.
        destruct (Z.compare_spec ((if s then Z.neg m else Z.pos m) * 2 ^ (e + c))
                    (a * 2 ^ c)); try done; lia.
      * intros Hle. apply (SFleb_normal _ _ _ _ _ _ c); try lia.
        rewrite <- Hscale.
        destruct (Z.compare_spec ((if s then Z.neg m else Z.pos m) * 2 ^ (e + c))
                    (a * 2 ^ c)); try done; lia.
Qed.

(** The double quotient of two integers below [2 ^ 53], the divisor
    positive, is zero or has a mantissa of 53 digits. *)
Lemma quotient_normal (S n : Z) :
  Z.abs S < 2 ^ 53 -> 0 < n < 2 ^ 53 ->
  (exists s, Prim2SF (PrimFloat.div (Double.of_Z S) (Double.of_Z n)) = S754_zero s) \/
  (exists s m e,
     Prim2SF (PrimFloat.div (Double.of_Z S) (Double.of_Z n)) = S754_finite s m e /\
     2 ^ 52 <= Z.pos m < 2 ^ 53).
Proof.
  intros HS Hn. destruct (decide (S = 0)) as [->|HS0].
  - left. exists false. by apply div_zero_of_Z.
  - right. destruct (div_of_Z_spec S n) as (m & e & c & Hr & Hm & _); [lia|done|].
    by exists (S <? 0), m, e.
Qed.

(** The index [end] is the integer part of four fifths of the size, as
    long as that is an [int]. *)
Lemma end_index_spec (size : Z) :
  0 <= size -> 4 * size / 5 <= Int.max_int -> end_index size = Ok (4 * size / 5).
Proof.
  intros H0 Hmax. unfold end_index, Double.to_int.
  assert (size < 2 ^ 32).
  { destruct (Z.le_gt_cases (2 ^ 32) size); [|done].
    assert (2 ^ 31 <= 4 * size / 5) by (apply Z.div_le_lower_bound; lia).
    unfold Int.max_int in Hmax. lia. }
  rewrite truncate_four_fifths by lia.
  assert (0 <= 4 * size / 5) by (apply Z.div_pos; lia).
  replace (Int.min_int <=? 4 * size / 5) with true
    by (symmetry; apply Z.leb_le; unfold Int.min_int; lia).
  replace (4 * size / 5 <=? Int.max_int) with true by (symmetry; by apply Z.leb_le).
  done.
Qed.

(** Beyond that size the conversion of [size * 0.8] to [int] is undefined. *)
Lemma end_index_out_of_range (size : Z) :
  Int.max_int < 4 * size / 5 -> size < 2 ^ 32 ->
  end_index size = Fault BadConversion.
Proof.
  intros Hmax Hsize. unfold end_index, Double.to_int.
  assert (0 <= size).
  { destruct (Z.le_gt_cases 0 size); [done|].
    assert (4 * size / 5 < 0) by (apply Z.div_lt_upper_bound; lia).
    unfold Int.max_int in Hmax. lia. }
  rewrite truncate_four_fifths by lia.
  replace (4 * size / 5 <=? Int.max_int) with false by (symmetry; by apply Z.leb_gt).
  by rewrite andb_false_r.
Qed.

(** ** Trial Aggregator *)

Lemma insert_sorted_perm (x : Z) (l : list Z) : insert_sorted x l ≡ₚ x :: l.
Proof.
  induction l as [|y l IH]; simpl; [done|].
  destruct (x <=? y); [done|]. rewrite IH. apply Permutation_swap.
Qed.

Lemma std_sort_perm (values : list Z) : std_sort values ≡ₚ values.
Proof.
  induction values as [|x l IH]; simpl; [done|].
  rewrite insert_sorted_perm. by rewrite IH.
Qed.

Lemma insert_sorted_sorted (x : Z) (l : list Z) :
  StronglySorted Z.le l -> StronglySorted Z.le (insert_sorted x l).
Proof.
  induction 1 as [|y l Hs IH Hy]; simpl.
  - repeat constructor.
  - destruct (Z.leb_spec x y).
    + constructor; [by constructor|]. constructor; [done|].
      eapply Forall_impl; [exact Hy|]. simpl. lia.
    + constructor; [done|]. rewrite insert_sorted_perm.
      constructor; [lia | done].
Qed.

Lemma std_sort_sorted (values : list Z) : StronglySorted Z.le (std_sort values).
Proof.
  induction values as [|x l IH]; simpl; [constructor|].
  by apply insert_sorted_sorted.
Qed.

(** The ascending rearrangement of a vector of integers is unique, so the
    result of [std::sort] does not depend on the algorithm behind it. *)
Lemma std_sort_unique (values sorted : list Z) :
  StronglySorted Z.le sorted -> sorted ≡ₚ values -> sorted = std_sort values.
Proof.
  intros Hs Hp. apply (StronglySorted_unique Z.le); [done | apply std_sort_sorted |].
  by rewrite Hp, std_sort_perm.
Qed.

Lemma std_sort_length (values : list Z) :
  List.length (std_sort values) = List.length values.
Proof. by rewrite std_sort_perm. Qed.

Lemma average_vector (values : list Z) : (average values).1 = std_sort values.
Proof. by destruct values. Qed.

(** C10.  [average] leaves its argument sorted ascending, with the same
    elements as before (a permutation of the original contents); an empty
    vector is left as it is. *)
Theorem C10_average_sorts_its_argument :
  (forall values : list Z,
     StronglySorted Z.le (average values).1 /\ (average values).1 ≡ₚ values) /\
  (average []).1 = [].
Proof.
  split; [|done]. intros values. rewrite average_vector.
  split; [apply std_sort_sorted | apply std_sort_perm].
Qed.

Lemma map_result_lookup {A B : Type} (f : A -> result B) (l : list A) (l' : list B) :
  map_result f l = Ok l' ->
  forall i a, l !! i = Some a -> exists b, f a = Ok b /\ l' !! i = Some b.
Proof.
  revert l'. induction l as [|x l IH]; intros l' Hrun i a Hi; [done|].
  simpl in Hrun. destruct (f x) as [b|] eqn:Hx; simpl in Hrun; [|done].
  destruct (map_result f l) as [bs|]; simpl in Hrun; [|done].
  injection Hrun as <-. destruct i as [|i]; simpl in *.
  - injection Hi as <-. eauto.
  - by apply IH.
Qed.

Lemma map_result_length {A B : Type} (f : A -> result B) (l : list A) (l' : list B) :
  map_result f l = Ok l' -> List.length l' = List.length l.
Proof.
  revert l'. induction l as [|x l IH]; intros l' Hrun; simpl in Hrun.
  - by injection Hrun as <-.
  - destruct (f x); simpl in Hrun; [|done].
    destruct (map_result f l); simpl in Hrun; [|done].
    injection Hrun as <-. simpl. f_equal. by apply IH.
Qed.

(** The aggregated cell is the average of the cell's samples. *)
Lemma aggregate_cell (results : samples) (av_result : grid) (i j : Z) (values : list Z) :
  aggregate results = Ok av_result ->
  0 <= i -> 0 <= j ->
  cell_opt results i j = Some values ->
  exists a, (average values).2 = Ok a /\ cell av_result i j = Ok a.
Proof.
  intros Hrun Hi Hj Hcell. unfold cell_opt in Hcell.
  destruct (results !! Z.to_nat i) as [row|] eqn:Hrow; simpl in Hcell; [|done].
  destruct (map_result_lookup _ _ _ Hrun _ _ Hrow) as (row' & Hrow' & Hav).
  destruct (map_result_lookup _ _ _ Hrow' _ _ Hcell) as (a & Ha & Hcell').
  exists a. split; [done|]. unfold cell, at_index.
  destruct (Z.ltb_spec i 0); [lia|]. rewrite Hav. simpl.
  destruct (Z.ltb_spec j 0); [lia|]. by rewrite Hcell'.
Qed.

(** For up to 65536 samples the index [end] is the integer part of four
    fifths of the size. *)
Lemma end_index_small (size : Z) :
  0 <= size <= 65536 -> end_index size = Ok (4 * size / 5).
Proof.
  intros H. apply end_index_spec; [lia|].
  assert (4 * size / 5 <= size) by (apply Z.div_le_upper_bound; lia).
  unfold Int.max_int. lia.
Qed.

Lemma total_app (l1 l2 : list Z) : total (l1 ++ l2) = total l1 + total l2.
Proof. induction l1 as [|x l1 IH]; simpl; [done|]. rewrite IH. lia. Qed.

Lemma total_bounds (lo hi : Z) (l : list Z) :
  Forall (fun v => lo <= v <= hi) l ->
  Z.of_nat (List.length l) * lo <= total l <= Z.of_nat (List.length l) * hi.
Proof.
  induction 1 as [|x l Hx _ IH]; simpl total; simpl List.length; lia.
Qed.

(** The summation loop without overflow: when the values are bounded so
    that no partial sum leaves the range of [long], the loop returns the
    exact sum. *)
Lemma sum_loop_exact (values : list Z) (bound : Z) :
  Forall (fun v => Z.abs v <= bound) values ->
  forall n i0 sum,
    (i0 + n <= List.length values)%nat ->
    Z.abs sum + Z.of_nat n * bound <= Int.max_long ->
    sum_loop n (Z.of_nat i0) values sum
    = Ok (sum + total (take n (drop i0 values))).
Proof.
  intros Hbound. induction n as [|n IH]; intros i0 sum Hlen Hsum.
  - simpl. f_equal. lia.
  - simpl sum_loop. rewrite at_index_lookup.
    destruct (values !! i0) as [v|] eqn:Hv;
      [|apply lookup_ge_None in Hv; lia].
    assert (Hvb : Z.abs v <= bound).
    { rewrite Forall_forall in Hbound. apply Hbound.
      by eapply list_elem_of_lookup_2. }
    assert (Hnb : 0 <= Z.of_nat n * bound) by nia.
    rewrite Nat2Z.inj_succ in Hsum.
    simpl. unfold Int.ladd. rewrite wrap64_id.
    2:{ unfold Int.is_long, Int.min_long, Int.max_long in *. lia. }
    replace (Z.of_nat i0 + 1) with (Z.of_nat (S i0)) by lia.
    rewrite IH by lia. rewrite (drop_S _ _ _ Hv). simpl. f_equal. lia.
Qed.

Lemma sorted_lookup_le (l : list Z) :
  StronglySorted Z.le l ->
  forall i j a b, l !! i = Some a -> l !! j = Some b -> (i <= j)%nat -> a <= b.
Proof.
  induction 1 as [|x l Hs IH Hx]; intros i j a b Hi Hj Hij; [done|].
  destruct i as [|i], j as [|j]; simpl in *; try lia.
  - injection Hi as <-. injection Hj as <-. lia.
  - injection Hi as <-. rewrite Forall_forall in Hx. apply Hx.
    by eapply list_elem_of_lookup_2.
  - eapply IH; eauto. lia.
Qed.

Lemma std_sort_replicate (n : nat) (v : Z) :
  std_sort (replicate n v) = replicate n v.
Proof.
  induction n as [|n IH]; [done|]. simpl. rewrite IH.
  destruct n as [|n]; [done|]. simpl. by rewrite Z.leb_refl.
Qed.

Lemma total_replicate (n : nat) (v : Z) : total (replicate n v) = Z.of_nat n * v.
Proof. induction n as [|n IH]; simpl total; [lia|]. rewrite IH. lia. Qed.

(** The summation loop over values that are bounded up to the index where
    it stops: no partial sum leaves the range of [long], and the loop
    returns the exact sum. *)
Lemma sum_loop_kept (values : list Z) (bound : Z) (kept : nat) :
  Forall (fun v => Z.abs v <= bound) (take kept values) ->
  (kept <= List.length values)%nat ->
  forall n i0 sum,
    (i0 + n <= kept)%nat ->
    Z.abs sum + Z.of_nat n * bound <= Int.max_long ->
    sum_loop n (Z.of_nat i0) values sum
    = Ok (sum + total (take n (drop i0 values))).
Proof.
  intros Hbound Hkept. induction n as [|n IH]; intros i0 sum Hlen Hsum.
  - simpl. f_equal. lia.
  - simpl sum_loop. rewrite at_index_lookup.
    destruct (values !! i0) as [v|] eqn:Hv;
      [|apply lookup_ge_None in Hv; lia].
    assert (Hvb : Z.abs v <= bound).
    { rewrite Forall_lookup in Hbound. apply (Hbound i0).
      apply lookup_take_Some. split; [done | lia]. }
    assert (Hnb : 0 <= Z.of_nat n * bound) by nia.
    rewrite Nat2Z.inj_succ in Hsum.
    simpl. unfold Int.ladd. rewrite wrap64_id.
    2:{ unfold Int.is_long, Int.min_long, Int.max_long in *. lia. }
    replace (Z.of_nat i0 + 1) with (Z.of_nat (S i0)) by lia.
    rewrite IH by lia. rewrite (drop_S _ _ _ Hv). simpl. f_equal. lia.
Qed.

(** C4 (amended).  Take a vector of [T >= 2] samples for which
    [n = floor (4 T / 5)], the number of values kept, is an [int], and
    whose [n] lowest values are at most [bound] in magnitude with
    [n * bound < 2 ^ 53], so that the sum [S] of the kept values is held
    exactly by a double.  Then [average] returns a double [r], the
    quotient of [S] by [n] rounded once, whose value is at least the
    minimum of the samples and at most the largest value kept (the
    80th-percentile value), both as exact numbers and in the comparison of
    doubles with the doubles of the two bounds; and for [T] identical
    values [v], [r] is the double that holds [v] exactly. *)
Theorem C4_trimmed_mean_bounds (values : list Z) (bound : Z) :
  2 <= Z.of_nat (List.length values) ->
  4 * Z.of_nat (List.length values) / 5 <= Int.max_int ->
  Forall (fun v => Z.abs v <= bound)
    (take (Z.to_nat (4 * Z.of_nat (List.length values) / 5)) (std_sort values)) ->
  4 * Z.of_nat (List.length values) / 5 * bound < 2 ^ 53 ->
  exists n S lo hi r,
    n = 4 * Z.of_nat (List.length values) / 5 /\
    1 <= n <= Z.of_nat (List.length values) /\
    S = total (take (Z.to_nat n) (std_sort values)) /\
    (average values).2 = Ok r /\
    r = PrimFloat.div (Double.of_Z S) (Double.of_Z n) /\
    std_sort values !! 0%nat = Some lo /\
    std_sort values !! (Z.to_nat n - 1)%nat = Some hi /\
    (forall v, v ∈ values -> lo <= v) /\
    n * lo <= S <= n * hi /\
    value_ge r lo = true /\
    value_le r hi = true /\
    PrimFloat.leb (Double.of_Z lo) r = true /\
    PrimFloat.leb r (Double.of_Z hi) = true /\
    (forall v, values = replicate (List.length values) v ->
       S = n * v /\ r = Double.of_Z v /\ value_compare r v = Some Eq).
Proof.
  intros HT Hint Hbound Hroom.
  set (T := Z.of_nat (List.length values)) in *.
  set (n := 4 * T / 5) in *.
  set (sorted := std_sort values) in *.
  assert (Hn : 1 <= n <= T).
  { unfold n. split.
    - apply Z.div_le_lower_bound; lia.
    - apply Z.div_le_upper_bound; lia. }
  assert (Hlen : List.length sorted = List.length values) by apply std_sort_length.
  assert (Hsorted : StronglySorted Z.le sorted) by apply std_sort_sorted.
  assert (Hperm : sorted ≡ₚ values) by apply std_sort_perm.
  destruct (lookup_lt_is_Some_2 sorted 0%nat ltac:(lia)) as [lo Hlo].
  destruct (lookup_lt_is_Some_2 sorted (Z.to_nat n - 1)%nat ltac:(lia)) as [hi Hhi].
  set (S := total (take (Z.to_nat n) sorted)).
  assert (Hb0 : 0 <= bound).
  { rewrite Forall_lookup in Hbound.
    assert (take (Z.to_nat n) sorted !! 0%nat = Some lo) as Hk
      by (apply lookup_take_Some; split; [done | lia]).
    specialize (Hbound _ _ Hk). simpl in Hbound. lia. }
  assert (HSb : Z.abs S <= n * bound).
  { assert (Hall : Forall (fun v => - bound <= v <= bound) (take (Z.to_nat n) sorted)).
    { eapply Forall_impl; [exact Hbound|]. simpl. lia. }
    apply total_bounds in Hall.
    rewrite length_take, Nat.min_l in Hall by lia.
    rewrite Z2Nat.id in Hall by lia. fold S in Hall. lia. }
  assert (Hmean : n * lo <= S <= n * hi).
  { assert (Hall : Forall (fun v => lo <= v <= hi) (take (Z.to_nat n) sorted)).
    { apply Forall_lookup. intros k x Hk.
      apply lookup_take_Some in Hk as [Hk Hkn]. split.
      - apply (sorted_lookup_le sorted Hsorted 0%nat k lo x Hlo Hk). lia.
      - apply (sorted_lookup_le sorted Hsorted k (Z.to_nat n - 1)%nat x hi Hk Hhi).
        lia. }
    apply total_bounds in Hall.
    rewrite length_take, Nat.min_l in Hall by lia.
    rewrite Z2Nat.id in Hall by lia. done. }
  assert (Hn53 : 0 < n < 2 ^ 53) by (unfold Int.max_int in Hint; lia).
  exists n, S, lo, hi, (PrimFloat.div (Double.of_Z S) (Double.of_Z n)).
  split; [done|]. split; [done|]. split; [done|]. split.
  { destruct values as [|v0 values']; [simpl in T; lia|].
    unfold average. cbn [snd]. fold sorted. rewrite Hlen. fold T.
    rewrite end_index_spec by lia. fold n. cbn [bind].
    rewrite Z.sub_0_r.
    rewrite (sum_loop_kept sorted bound (Z.to_nat n)) with (i0 := 0%nat).
    - cbn [bind]. rewrite drop_0. reflexivity.
    - done.
    - lia.
    - lia.
    - unfold Int.max_long. rewrite Z2Nat.id by lia. simpl Z.abs. lia. }
  split; [done|]. split; [done|]. split; [done|]. split.
  { intros v Hv. rewrite <- Hperm in Hv.
    apply list_elem_of_lookup_1 in Hv as [k Hk].
    apply (sorted_lookup_le sorted Hsorted 0%nat k lo v Hlo Hk). lia. }
  split; [done|].
  assert (Hge : value_ge (PrimFloat.div (Double.of_Z S) (Double.of_Z n)) lo = true)
    by (apply quotient_bounds; lia).
  assert (Hle : value_le (PrimFloat.div (Double.of_Z S) (Double.of_Z n)) hi = true)
    by (apply quotient_bounds; lia).
  assert (Hkept : forall k x, sorted !! k = Some x -> (k < Z.to_nat n)%nat ->
            Z.abs x < 2 ^ 53).
  { intros k x Hk Hkn. rewrite Forall_lookup in Hbound.
    assert (take (Z.to_nat n) sorted !! k = Some x) as Hx
      by (apply lookup_take_Some; split; [done | lia]).
    specialize (Hbound _ _ Hx). simpl in Hbound. nia. }
  pose proof (quotient_normal S n ltac:(lia) Hn53) as Hnormal.
  split; [done|]. split; [done|].
  split; [apply leb_of_Z_value; [apply (Hkept 0%nat); [done | lia] | done..]|].
  split; [apply leb_of_Z_value;
          [apply (Hkept (Z.to_nat n - 1)%nat); [done | lia] | done..]|].
  intros v Hv.
  assert (HSv : S = n * v).
  { unfold S, sorted. rewrite Hv, std_sort_replicate.
    rewrite take_replicate, total_replicate, Nat.min_l by lia. lia. }
  split; [done|].
  destruct (quotient_bounds S n v ltac:(lia) Hn53) as (Hgev & Hlev & Heq).
  split; [apply Heq; lia|].
  specialize (Hgev ltac:(lia)). specialize (Hlev ltac:(lia)).
  unfold value_ge, value_le in Hgev, Hlev.
  by destruct (value_compare _ v) as [[]|].
Qed.

Lemma C4_trimmed_mean_bounds_witness :
  exists n S lo hi r,
    n = 4 * Z.of_nat (List.length [7; 3; 5; 9; 1]) / 5 /\
    1 <= n <= Z.of_nat (List.length [7; 3; 5; 9; 1]) /\
    S = total (take (Z.to_nat n) (std_sort [7; 3; 5; 9; 1])) /\
    (average [7; 3; 5; 9; 1]).2 = Ok r /\
    r = PrimFloat.div (Double.of_Z S) (Double.of_Z n) /\
    std_sort [7; 3; 5; 9; 1] !! 0%nat = Some lo /\
    std_sort [7; 3; 5; 9; 1] !! (Z.to_nat n - 1)%nat = Some hi /\
    (forall v, v ∈ [7; 3; 5; 9; 1] -> lo <= v) /\
    n * lo <= S <= n * hi /\
    value_ge r lo = true /\
    value_le r hi = true /\
    PrimFloat.leb (Double.of_Z lo) r = true /\
    PrimFloat.leb r (Double.of_Z hi) = true /\
    (forall v, [7; 3; 5; 9; 1] = replicate (List.length [7; 3; 5; 9; 1]) v ->
       S = n * v /\ r = Double.of_Z v /\ value_compare r v = Some Eq).
Proof.
  apply (C4_trimmed_mean_bounds [7; 3; 5; 9; 1] 7).
  - simpl. lia.
  - vm_compute. discriminate.
  - repeat constructor; simpl; lia.
  - vm_compute. reflexivity.
Defined.

(** C4 as stated fails for a single sample: no value is kept,
    [0.0 / 0] is NaN, and NaN neither equals the sample nor lies above the
    minimum.  It also fails for values too large for a double to hold their
    sum: two samples [2 ^ 53 + 1] give [2 ^ 53], which is below the
    minimum and is not the common value. *)
Lemma C4_counterexample_single_sample :
  average [7] = ([7], Ok PrimFloat.nan) /\
  (average [7]).2 <> Ok (Double.of_Z 7) /\
  PrimFloat.leb (Double.of_Z 7) PrimFloat.nan = false /\
  PrimFloat.leb PrimFloat.nan (Double.of_Z 7) = false /\
  value_ge PrimFloat.nan 7 = false /\
  value_le PrimFloat.nan 7 = false /\
  (average [2 ^ 53 + 1; 2 ^ 53 + 1]).2 = Ok (Double.of_Z (2 ^ 53)) /\
  value_compare (Double.of_Z (2 ^ 53)) (2 ^ 53) = Some Eq /\
  value_ge (Double.of_Z (2 ^ 53)) (2 ^ 53 + 1) = false.
Proof.
  assert (E : average [7] = ([7], Ok PrimFloat.nan)) by (vm_compute; reflexivity).
  split; [exact E|]. split; [|repeat split; vm_compute; reflexivity].
  rewrite E. simpl. intros H.
  apply (f_equal (fun r => match r with
                           | Ok a => PrimFloat.is_nan a
                           | Fault _ => false
                           end)) in H.
  vm_compute in H. discriminate.
Qed.

(** ** Breakpoint Heuristics *)

Lemma find_cache_length_loop_spec (av_result : grid) :
  forall n i0,
    (forall i, i0 - 1 <= i < i0 + Z.of_nat n -> is_ok (cell av_result i 0)) ->
    exists r,
      find_cache_length_loop n i0 av_result = Ok r /\
      ((r = -1 /\
        forall i, i0 <= i < i0 + Z.of_nat n -> length_jump av_result i = false) \/
       (i0 - 1 <= r < i0 - 1 + Z.of_nat n /\
        length_jump av_result (r + 1) = true /\
        forall i, i0 <= i <= r -> length_jump av_result i = false)).
Proof.
  induction n as [|n IH]; intros i0 Hcells.
  - exists (-1). split; [done|]. left. split; [done|]. intros; lia.
  - simpl find_cache_length_loop.
    destruct (is_ok_Ok _ (Hcells i0 ltac:(lia))) as [cur Hcur].
    destruct (is_ok_Ok _ (Hcells (i0 - 1) ltac:(lia))) as [prev Hprev].
    rewrite Hcur, Hprev. cbn [bind].
    assert (Hjump : length_jump av_result i0
                    = Double.gt cur (PrimFloat.mul prev Double.lit_1_2)).
    { unfold length_jump. by rewrite Hcur, Hprev. }
    destruct (Double.gt cur (PrimFloat.mul prev Double.lit_1_2)) eqn:Hgt.
    + exists (i0 - 1). split; [done|]. right. split; [lia|]. split.
      * by replace (i0 - 1 + 1) with i0 by lia.
      * intros; lia.
    + destruct (IH (i0 + 1)) as (r & Hr & Hcases).
      { intros i Hi. apply Hcells. lia. }
      exists r. split; [done|].
      destruct Hcases as [[-> Hnone]|(Hrange & Hat & Hbefore)].
      * left. split; [done|]. intros i Hi.
        destruct (decide (i = i0)) as [->|]; [done|]. apply Hnone. lia.
      * right. split; [lia|]. split; [done|]. intros i Hi.
        destruct (decide (i = i0)) as [->|]; [done|]. apply Hbefore. lia.
Qed.

Lemma find_cache_line_length_loop_spec (av_result : grid) (cache_length_idx : Z)
    (row : list float) :
  at_index av_result (Int.add cache_length_idx 1) = Ok row ->
  forall n i0,
    1 <= i0 -> i0 + Z.of_nat n <= Z.of_nat (List.length row) ->
    exists r,
      find_cache_line_length_loop n i0 cache_length_idx av_result = Ok r /\
      ((r = -1 /\
        forall j, i0 <= j < i0 + Z.of_nat n ->
          stride_jump av_result (Int.add cache_length_idx 1) j = false) \/
       (i0 <= r < i0 + Z.of_nat n /\
        stride_jump av_result (Int.add cache_length_idx 1) r = true /\
        forall j, i0 <= j < r ->
          stride_jump av_result (Int.add cache_length_idx 1) j = false)).
Proof.
  intros Hrow. induction n as [|n IH]; intros i0 Hi0 Hlen.
  - exists (-1). split; [done|]. left. split; [done|]. intros; lia.
  - simpl find_cache_line_length_loop.
    assert (Hcell : forall j, 0 <= j < Z.of_nat (List.length row) ->
              exists x, cell av_result (Int.add cache_length_idx 1) j = Ok x).
    { intros j Hj. unfold cell. rewrite Hrow. cbn [bind].
      rewrite <- (Z2Nat.id j) by lia. apply at_index_in_range. lia. }
    destruct (Hcell i0 ltac:(lia)) as [cur Hcur].
    destruct (Hcell (i0 - 1) ltac:(lia)) as [prev Hprev].
    rewrite Hcur, Hprev. cbn [bind].
    assert (Hjump : stride_jump av_result (Int.add cache_length_idx 1) i0
                    = Double.gt cur (PrimFloat.mul prev Double.lit_1_1)).
    { unfold stride_jump. by rewrite Hcur, Hprev. }
    destruct (Double.gt cur (PrimFloat.mul prev Double.lit_1_1)) eqn:Hgt.
    + exists i0. split; [done|]. right. split; [lia|]. split; [done|].
      intros; lia.
    + destruct (IH (i0 + 1) ltac:(lia) ltac:(lia)) as (r & Hr & Hcases).
      exists r. split; [done|].
      destruct Hcases as [[-> Hnone]|(Hrange & Hat & Hbefore)].
      * left. split; [done|]. intros j Hj.
        destruct (decide (j = i0)) as [->|]; [done|]. apply Hnone. lia.
      * right. split; [lia|]. split; [done|]. intros j Hj.
        destruct (decide (j = i0)) as [->|]; [done|]. apply Hbefore. lia.
Qed.

(** C3 (amended).  When the capacity scan finds no breakpoint, [main]
    reports the capacity as not found and still runs the line-size scan, on
    the first row of the grid (index [-1 + 1]): it reports "not found" when
    that row has no jump above 1.1, and otherwise the stride (in bytes) of
    the first such jump. *)
Theorem C3_line_size_scan_runs_on_first_row
    (stride_sizes length_sizes : list Z) (av_result : grid) (row : list float) :
  find_cache_length (Z.of_nat (List.length stride_sizes)) av_result = Ok (-1) ->
  at_index av_result 0 = Ok row ->
  (List.length stride_sizes <= List.length row)%nat ->
  exists second,
    report stride_sizes length_sizes av_result = Ok (CacheLengthNotFound, second) /\
    ((second = CacheLineLengthNotFound /\
      forall j, 1 <= j < Z.of_nat (List.length stride_sizes) ->
        stride_jump av_result 0 j = false) \/
     (exists j stride,
        1 <= j < Z.of_nat (List.length stride_sizes) /\
        stride_jump av_result 0 j = true /\
        (forall k, 1 <= k < j -> stride_jump av_result 0 k = false) /\
        at_index stride_sizes j = Ok stride /\
        second = CacheLineLength (times_sizeof_int stride))).
Proof.
  intros Hcap Hrow Hlen. unfold report. rewrite Hcap. cbn [bind].
  change (-1 =? -1) with true. cbn [bind]. unfold find_cache_line_length.
  destruct (decide (List.length stride_sizes = 0%nat)) as [Hz|Hnz].
  { rewrite Hz. simpl. exists CacheLineLengthNotFound. split; [done|].
    left. split; [done|]. intros; lia. }
  destruct (find_cache_line_length_loop_spec av_result (-1) row Hrow
              (Z.to_nat (Z.of_nat (List.length stride_sizes) - 1)) 1
              ltac:(lia) ltac:(lia)) as (r & -> & Hcases).
  cbn [bind]. change (Int.add (-1) 1) with 0 in Hcases.
  destruct Hcases as [[-> Hnone]|(Hrange & Hat & Hbefore)].
  - exists CacheLineLengthNotFound. split; [done|]. left. split; [done|].
    intros j Hj. apply Hnone. lia.
  - destruct (Z.eqb_spec r (-1)); [lia|].
    destruct (at_index_in_range stride_sizes (Z.to_nat r) ltac:(lia))
      as [stride Hstride].
    rewrite Z2Nat.id in Hstride by lia. rewrite Hstride. cbn [bind].
    exists (CacheLineLength (times_sizeof_int stride)). split; [done|].
    right. exists r, stride. repeat split; try done; lia.
Qed.

Lemma C3_line_size_scan_runs_on_first_row_witness :
  exists second,
    report main_stride_sizes main_length_sizes first_row_jump_grid
      = Ok (CacheLengthNotFound, second) /\
    ((second = CacheLineLengthNotFound /\
      forall j, 1 <= j < Z.of_nat (List.length main_stride_sizes) ->
        stride_jump first_row_jump_grid 0 j = false) \/
     (exists j stride,
        1 <= j < Z.of_nat (List.length main_stride_sizes) /\
        stride_jump first_row_jump_grid 0 j = true /\
        (forall k, 1 <= k < j -> stride_jump first_row_jump_grid 0 k = false) /\
        at_index main_stride_sizes j = Ok stride /\
        second = CacheLineLength (times_sizeof_int stride))).
Proof.
  apply (C3_line_size_scan_runs_on_first_row main_stride_sizes main_length_sizes
           first_row_jump_grid
           [10; 12; 12; 12; 12; 12; PrimFloat.nan; PrimFloat.nan; PrimFloat.nan]%float).
  - vm_compute. reflexivity.
  - vm_compute. reflexivity.
  - simpl. lia.
Defined.

(** C3 as stated fails: on a grid of [main]'s shape with no capacity
    breakpoint, the program still reports a line size (8 bytes), found by
    the line-size scan in the first row. *)
Lemma C3_counterexample_scan_attempted :
  find_cache_length (Z.of_nat (List.length main_stride_sizes)) first_row_jump_grid
    = Ok (-1) /\
  report main_stride_sizes main_length_sizes first_row_jump_grid
    = Ok (CacheLengthNotFound, CacheLineLength 8).
Proof. split; vm_compute; reflexivity. Qed.

(** C5 (the code at the failing input).  On a grid of [main]'s shape whose
    only jump above 1.2 at the smallest stride is at the last length
    (index 9), a scan of all ten lengths returns 8, the index of 65536, but
    [main] passes the number of strides (9) as the number of lengths, never
    compares the last length and reports the capacity as not found. *)
Theorem C5_capacity_scan_misses_last_length :
  length_jump late_jump_grid 9 = true /\
  find_cache_length (Z.of_nat (List.length main_length_sizes)) late_jump_grid = Ok 8 /\
  at_index main_length_sizes 8 = Ok 65536 /\
  find_cache_length (Z.of_nat (List.length main_stride_sizes)) late_jump_grid
    = Ok (-1) /\
  report main_stride_sizes main_length_sizes late_jump_grid
    = Ok (CacheLengthNotFound, CacheLineLengthNotFound).
Proof. repeat split; vm_compute; reflexivity. Qed.

(** ** Allocation failure *)

Lemma create_cycle_null (shuffle : list Z -> list Z) (length stride : Z) :
  1 <= length -> create_cycle shuffle Null length stride = Fault NullPointer.
Proof.
  intros H. unfold create_cycle.
  destruct (Z.to_nat length) as [|n] eqn:E; [lia|]. simpl.
  unfold at_index. simpl.
  by destruct (shuffle (seqZ 1 (length - 1))).
Qed.

(** C8 (amended).  The harness does not test the result of the
    allocation: for a cell that is not skipped, when the allocation fails
    the null pointer is handed to [create_cycle], whose first store through
    it is undefined behaviour; the step ends there, with the callback not
    invoked and the accumulator unchanged.  No message is produced. *)
Theorem C8_failed_allocation_is_dereferenced {St : Type}
    (env : Z -> Z -> cell_env) (on_result : Z -> Z -> Z -> St -> St)
    (stride_sizes : list Z) (length gap active_positions i j : Z) (st : St * Z) :
  at_index stride_sizes j = Ok gap ->
  int_div length gap = Ok active_positions ->
  4 < active_positions ->
  alloc_ok (env i j) ((4 * length) mod 2 ^ 64) = false ->
  aligned_alloc (env i j) length = Null /\
  create_cycle (shuffle (env i j)) (aligned_alloc (env i j) length)
    active_positions gap = Fault NullPointer /\
  measure_cell env on_result stride_sizes length i j st = (st, Fault NullPointer).
Proof.
  intros Hj Hdiv Hbig Halloc.
  assert (Hnull : aligned_alloc (env i j) length = Null).
  { unfold aligned_alloc. by rewrite Halloc. }
  split; [done|]. rewrite Hnull. split; [apply create_cycle_null; lia|].
  unfold measure_cell. destruct st as [cb sum]. rewrite Hj. cbn [bind].
  rewrite Hdiv. cbn [bind].
  destruct (Z.leb_spec active_positions 4); [lia|].
  rewrite Hnull, create_cycle_null by lia. done.
Qed.

Lemma C8_failed_allocation_is_dereferenced_witness :
  aligned_alloc (CellEnv (fun l => l) (fun _ => false) 1000) 16 = Null /\
  create_cycle (fun l => l)
    (aligned_alloc (CellEnv (fun l => l) (fun _ => false) 1000) 16) 16 1
    = Fault NullPointer /\
  measure_cell (fun _ _ => CellEnv (fun l => l) (fun _ => false) 1000)
    record_call [1; 2; 4] 16 0 0 ([], 0) = (([], 0), Fault NullPointer).
Proof.
  apply (C8_failed_allocation_is_dereferenced
           (fun _ _ => CellEnv (fun l => l) (fun _ => false) 1000)
           record_call [1; 2; 4] 16 1 16 0 0 ([], 0)).
  - reflexivity.
  - reflexivity.
  - lia.
  - reflexivity.
Defined.

(** C8 as stated fails: when the allocation fails, the sweep runs into the
    store through the null pointer in [create_cycle] instead of stopping
    before the buffer is used. *)
Lemma C8_counterexample_null_dereference :
  measure (fun _ _ => CellEnv (fun l => l) (fun _ => false) 1000)
    record_call [1; 2; 4] [16; 32] []
  = ([], Fault NullPointer).
Proof. vm_compute. reflexivity. Qed.

(** * Further properties of the code *)

(** ** [create_cycle] *)

(** X1.  [create_cycle] initialises exactly the cells of the slots: after
    the call the block has its length unchanged, every cell at an offset
    [p * stride] with [0 <= p < length] holds a value, and every other cell
    is as it was before the call. *)
Theorem X1_create_cycle_footprint
    (shuffle : list Z -> list Z) (length stride len : Z) (cells : gmap Z Z) :
  (forall l, shuffle l ≡ₚ l) ->
  1 <= length -> 1 <= stride ->
  (length - 1) * stride <= Int.max_int ->
  (length - 1) * stride < len ->
  exists cells',
    create_cycle shuffle (Block len cells) length stride = Ok (Block len cells') /\
    (forall p, 0 <= p < length -> is_Some (cells' !! (p * stride))) /\
    (forall o, (forall p, 0 <= p < length -> o <> p * stride) ->
       cells' !! o = cells !! o).
Proof.
  intros Hperm Hlength Hstride Hfit Hroom.
  destruct (create_cycle_spec shuffle Hperm length stride len
              Hlength Hstride Hfit Hroom cells) as (cells' & Hrun & _ & Hframe).
  exists cells'. split; [done|]. split; [|done].
  intros p Hp.
  destruct (create_cycle_closed shuffle Hperm length stride len
              Hlength Hstride Hfit Hroom cells cells' Hrun (p * stride))
    as (_ & v & Hv & _); [by exists p|].
  by exists v.
Qed.

Lemma X1_create_cycle_footprint_witness :
  exists cells',
    create_cycle (@rev Z) (Block 10 ∅) 5 2 = Ok (Block 10 cells') /\
    (forall p, 0 <= p < 5 -> is_Some (cells' !! (p * 2))) /\
    (forall o, (forall p, 0 <= p < 5 -> o <> p * 2) ->
       cells' !! o = (∅ : gmap Z Z) !! o).
Proof.
  apply X1_create_cycle_footprint.
  - intros l. symmetry. apply Permutation_rev.
  - lia.
  - lia.
  - vm_compute. discriminate.
  - lia.
Defined.

(** ** [measure] and the trials of [main] *)

Lemma replay_record_call (calls acc : list (Z * Z * Z)) :
  replay record_call calls acc = acc ++ calls.
Proof.
  revert acc. induction calls as [|[[i j] t] calls IH]; intros acc.
  - by rewrite app_nil_r.
  - change (replay record_call ((i, j, t) :: calls) acc)
      with (replay record_call calls (acc ++ [(i, j, t)])).
    by rewrite IH, <- app_assoc.
Qed.

(** X2.  In an environment where shuffles permute and allocations
    succeed, on lists of positive [int] sizes, the sweep completes and the
    callback receives exactly one call for each cell with
    [length / stride > 4], in the order of the two loops (lengths outside,
    strides inside), with the elapsed time divided by the number of active
    positions. *)
Theorem X2_measure_calls_in_order (env : Z -> Z -> cell_env)
    (stride_sizes length_sizes : list Z) :
  (forall i j, well_behaved (env i j)) ->
  positive_ints stride_sizes -> positive_ints length_sizes ->
  exists sum,
    measure env record_call stride_sizes length_sizes []
    = (sweep_calls env stride_sizes length_sizes, Ok sum).
Proof.
  intros Henv Hs Hl.
  destruct (measure_good env record_call stride_sizes length_sizes Henv Hs Hl [])
    as [sum Hrun].
  exists sum. by rewrite Hrun, replay_record_call.
Qed.

Lemma X2_measure_calls_in_order_witness :
  exists sum,
    measure (fun i j => CellEnv (@rev Z) (fun _ => true) (1000 + 10 * i + j))
      record_call [1; 2; 4] [16; 32] []
    = (sweep_calls (fun i j => CellEnv (@rev Z) (fun _ => true) (1000 + 10 * i + j))
         [1; 2; 4] [16; 32], Ok sum).
Proof.
  apply X2_measure_calls_in_order.
  - intros i j. apply well_behaved_rev.
  - repeat constructor; vm_compute; discriminate.
  - repeat constructor; vm_compute; discriminate.
Defined.

(** X4.  After the 100 sweeps of [main], in an environment where shuffles
    permute and allocations succeed, the table of samples has one row per
    length and one cell per stride; a cell with [length / stride > 4] holds
    the 100 per-step times of its trials in the order of the trials, and
    every other cell is empty. *)
Theorem X4_collect_samples (env : Z -> Z -> Z -> cell_env)
    (stride_sizes length_sizes : list Z) :
  (forall t i j, well_behaved (env t i j)) ->
  positive_ints stride_sizes -> positive_ints length_sizes ->
  exists results,
    collect env stride_sizes length_sizes = (results, Ok tt) /\
    table (List.length length_sizes) (List.length stride_sizes) results /\
    forall i j length gap,
      at_index length_sizes i = Ok length ->
      at_index stride_sizes j = Ok gap ->
      samples_of results i j
      = if 4 <? Z.quot length gap
        then (fun t => Z.quot (elapsed (env t i j)) (Z.quot length gap))
               <$> seqZ 0 (Z.of_nat trials)
        else [].
Proof. apply collect_good. Qed.

Lemma X4_collect_samples_witness :
  exists results,
    collect (fun t i j => CellEnv (@rev Z) (fun _ => true) (1000 + t))
      [1; 2; 4] [16; 32]
    = (results, Ok tt) /\
    table (List.length [16; 32]) (List.length [1; 2; 4]) results /\
    forall i j length gap,
      at_index [16; 32] i = Ok length ->
      at_index [1; 2; 4] j = Ok gap ->
      samples_of results i j
      = if 4 <? Z.quot length gap
        then (fun t => Z.quot (elapsed (CellEnv (@rev Z) (fun _ => true) (1000 + t)))
                         (Z.quot length gap))
               <$> seqZ 0 (Z.of_nat trials)
        else [].
Proof.
  apply (X4_collect_samples
           (fun t i j => CellEnv (@rev Z) (fun _ => true) (1000 + t))).
  - intros t i j. apply well_behaved_rev.
  - repeat constructor; vm_compute; discriminate.
  - repeat constructor; vm_compute; discriminate.
Defined.

(** ** The two scans *)

Lemma find_cache_length_first_jump (lengths : Z) (av_result : grid) :
  (forall i, 0 <= i < lengths -> is_ok (cell av_result i 0)) ->
  exists r,
    find_cache_length lengths av_result = Ok r /\
    ((r = -1 /\
      forall i, 1 <= i < lengths -> length_jump av_result i = false) \/
     (0 <= r < lengths - 1 /\
      length_jump av_result (r + 1) = true /\
      forall i, 1 <= i <= r -> length_jump av_result i = false)).
Proof.
  intros Hcells. unfold find_cache_length.
  destruct (Z.le_gt_cases lengths 1) as [Hsmall|Hbig].
  { replace (Z.to_nat (lengths - 1)) with 0%nat by lia.
    exists (-1). split; [done|]. left. split; [done|]. intros; lia. }
  destruct (find_cache_length_loop_spec av_result (Z.to_nat (lengths - 1)) 1)
    as (r & Hr & Hcases).
  { intros i Hi. apply Hcells. lia. }
  exists r. split; [done|].
  destruct Hcases as [[-> Hnone]|(Hrange & Hat & Hbefore)].
  - left. split; [done|]. intros i Hi. apply Hnone. lia.
  - right. split; [lia|]. split; [done|]. intros i Hi. by apply Hbefore.
Qed.

(** X5.  When the first [lengths] rows of the grid have a first cell,
    [find_cache_length] completes and returns either -1, when no length
    index [i] in [1 .. lengths - 1] has a latency above 1.2 times that of
    index [i - 1] at the smallest stride, or the index [r] just before the
    smallest such [i] ([i = r + 1]). *)
Theorem X5_find_cache_length_first_jump (lengths : Z) (av_result : grid) :
  (forall i, 0 <= i < lengths -> is_ok (cell av_result i 0)) ->
  exists r,
    find_cache_length lengths av_result = Ok r /\
    ((r = -1 /\
      forall i, 1 <= i < lengths -> length_jump av_result i = false) \/
     (0 <= r < lengths - 1 /\
      length_jump av_result (r + 1) = true /\
      forall i, 1 <= i <= r -> length_jump av_result i = false)).
Proof. apply find_cache_length_first_jump. Qed.

Lemma X5_find_cache_length_first_jump_witness :
  exists r,
    find_cache_length 10 late_jump_grid = Ok r /\
    ((r = -1 /\
      forall i, 1 <= i < 10 -> length_jump late_jump_grid i = false) \/
     (0 <= r < 10 - 1 /\
      length_jump late_jump_grid (r + 1) = true /\
      forall i, 1 <= i <= r -> length_jump late_jump_grid i = false)).
Proof.
  apply X5_find_cache_length_first_jump.
  intros i Hi.
  assert (Hcases : i = 0 \/ i = 1 \/ i = 2 \/ i = 3 \/ i = 4 \/ i = 5 \/ i = 6 \/
                   i = 7 \/ i = 8 \/ i = 9) by lia.
  repeat (destruct Hcases as [->|Hcases]; [exact I|]). subst i. exact I.
Defined.

Lemma find_cache_line_length_first_jump
    (cache_length_idx strides : Z) (av_result : grid) (row : list float) :
  -1 <= cache_length_idx < Int.max_int ->
  at_index av_result (cache_length_idx + 1) = Ok row ->
  strides <= Z.of_nat (List.length row) ->
  exists r,
    find_cache_line_length cache_length_idx strides av_result = Ok r /\
    ((r = -1 /\
      forall j, 1 <= j < strides ->
        stride_jump av_result (cache_length_idx + 1) j = false) \/
     (1 <= r < strides /\
      stride_jump av_result (cache_length_idx + 1) r = true /\
      forall j, 1 <= j < r ->
        stride_jump av_result (cache_length_idx + 1) j = false)).
Proof.
  intros Hidx Hrow Hlen. unfold find_cache_line_length.
  assert (Hadd : Int.add cache_length_idx 1 = cache_length_idx + 1).
  { unfold Int.add. apply wrap32_id.
    unfold Int.is_int, Int.min_int, Int.max_int in *. lia. }
  destruct (Z.le_gt_cases strides 1) as [Hsmall|Hbig].
  { replace (Z.to_nat (strides - 1)) with 0%nat by lia.
    exists (-1). split; [done|]. left. split; [done|]. intros; lia. }
  rewrite <- Hadd in Hrow.
  destruct (find_cache_line_length_loop_spec av_result cache_length_idx row Hrow
              (Z.to_nat (strides - 1)) 1 ltac:(lia) ltac:(lia))
    as (r & Hr & Hcases).
  rewrite Hadd in Hcases. exists r. split; [done|].
  destruct Hcases as [[-> Hnone]|(Hrange & Hat & Hbefore)].
  - left. split; [done|]. intros j Hj. apply Hnone. lia.
  - right. split; [lia|]. split; [done|]. intros j Hj. by apply Hbefore.
Qed.

(** X6.  When the row after [cache_length_idx] exists and has at least
    [strides] cells, [find_cache_line_length] completes and returns either
    -1, when no stride index [j] in [1 .. strides - 1] has a latency above
    1.1 times that of index [j - 1] in that row, or the smallest such [j]. *)
Theorem X6_find_cache_line_length_first_jump
    (cache_length_idx strides : Z) (av_result : grid) (row : list float) :
  -1 <= cache_length_idx < Int.max_int ->
  at_index av_result (cache_length_idx + 1) = Ok row ->
  strides <= Z.of_nat (List.length row) ->
  exists r,
    find_cache_line_length cache_length_idx strides av_result = Ok r /\
    ((r = -1 /\
      forall j, 1 <= j < strides ->
        stride_jump av_result (cache_length_idx + 1) j = false) \/
     (1 <= r < strides /\
      stride_jump av_result (cache_length_idx + 1) r = true /\
      forall j, 1 <= j < r ->
        stride_jump av_result (cache_length_idx + 1) j = false)).
Proof. apply find_cache_line_length_first_jump. Qed.

Lemma X6_find_cache_line_length_first_jump_witness :
  exists r,
    find_cache_line_length (-1) 9 first_row_jump_grid = Ok r /\
    ((r = -1 /\
      forall j, 1 <= j < 9 -> stride_jump first_row_jump_grid (-1 + 1) j = false) \/
     (1 <= r < 9 /\
      stride_jump first_row_jump_grid (-1 + 1) r = true /\
      forall j, 1 <= j < r -> stride_jump first_row_jump_grid (-1 + 1) j = false)).
Proof.
  apply (X6_find_cache_line_length_first_jump (-1) 9 first_row_jump_grid
           [10; 12; 12; 12; 12; 12; PrimFloat.nan; PrimFloat.nan; PrimFloat.nan]%float).
  - unfold Int.max_int. lia.
  - vm_compute. reflexivity.
  - simpl. lia.
Defined.

Lemma table_row {A : Type} (rows cols : nat) (t : list (list A)) (i : Z) :
  table rows cols t -> 0 <= i < Z.of_nat rows ->
  exists row, at_index t i = Ok row /\ List.length row = cols.
Proof.
  intros [Hrows Hcols] Hi.
  destruct (at_index_in_range t (Z.to_nat i) ltac:(lia)) as [row Hrow].
  rewrite Z2Nat.id in Hrow by lia. exists row. split; [done|].
  apply at_index_Ok in Hrow as [_ Hrow].
  by apply (Forall_lookup_1 _ _ _ _ Hcols Hrow).
Qed.

Lemma table_cell {A : Type} (rows cols : nat) (t : list (list A)) (i j : Z) :
  table rows cols t -> 0 <= i < Z.of_nat rows -> 0 <= j < Z.of_nat cols ->
  exists row x, at_index t i = Ok row /\ at_index row j = Ok x.
Proof.
  intros Ht Hi Hj. destruct (table_row rows cols t i Ht Hi) as (row & Hrow & Hlen).
  destruct (at_index_in_range row (Z.to_nat j) ltac:(lia)) as [x Hx].
  rewrite Z2Nat.id in Hx by lia. eauto.
Qed.

(** The second half of [report]: the line-size scan and its line. *)
Lemma report_line_size (stride_sizes : list Z) (av_result : grid)
    (cache_length_idx : Z) (row : list float) (first : capacity_line) :
  -1 <= cache_length_idx < Int.max_int ->
  at_index av_result (cache_length_idx + 1) = Ok row ->
  (List.length stride_sizes <= List.length row)%nat ->
  exists second,
    (do cache_line_length_idx <-
       find_cache_line_length cache_length_idx
         (Z.of_nat (List.length stride_sizes)) av_result;
     do second <-
       (if cache_line_length_idx =? -1 then Ok CacheLineLengthNotFound
        else do stride <- at_index stride_sizes cache_line_length_idx;
             Ok (CacheLineLength (times_sizeof_int stride)));
     Ok (first, second))
    = Ok (first, second) /\
    line_size_reported stride_sizes av_result (cache_length_idx + 1) second.
Proof.
  intros Hidx Hrow Hlen.
  destruct (find_cache_line_length_first_jump cache_length_idx
              (Z.of_nat (List.length stride_sizes)) av_result row Hidx Hrow
              ltac:(lia)) as (r & -> & Hcases).
  cbn [bind]. destruct Hcases as [[-> Hnone]|(Hrange & Hat & Hbefore)].
  - exists CacheLineLengthNotFound. split; [done|]. by left.
  - destruct (Z.eqb_spec r (-1)); [lia|].
    destruct (at_index_in_range stride_sizes (Z.to_nat r) ltac:(lia))
      as [stride Hstride].
    rewrite Z2Nat.id in Hstride by lia. rewrite Hstride. cbn [bind].
    exists (CacheLineLength (times_sizeof_int stride)). split; [done|].
    right. exists r, stride. repeat split; try done; lia.
Qed.

Lemma report_lines (stride_sizes length_sizes : list Z) (av_result : grid)
    (rows cols : nat) :
  table rows cols av_result ->
  (List.length stride_sizes <= rows)%nat ->
  (List.length stride_sizes <= cols)%nat ->
  (List.length stride_sizes <= List.length length_sizes)%nat ->
  Z.of_nat (List.length stride_sizes) <= Int.max_int ->
  exists first second,
    report stride_sizes length_sizes av_result = Ok (first, second) /\
    ((first = CacheLengthNotFound /\
      (forall i, 1 <= i < Z.of_nat (List.length stride_sizes) ->
         length_jump av_result i = false) /\
      line_size_reported stride_sizes av_result 0 second) \/
     (exists r length,
        0 <= r < Z.of_nat (List.length stride_sizes) - 1 /\
        length_jump av_result (r + 1) = true /\
        (forall i, 1 <= i <= r -> length_jump av_result i = false) /\
        at_index length_sizes r = Ok length /\
        first = CacheLength (times_sizeof_int length / 1024) /\
        line_size_reported stride_sizes av_result (r + 1) second)).
Proof.
  intros Ht Hrows Hcols Hlens Hint. unfold report.
  destruct (decide (List.length stride_sizes = 0%nat)) as [Hz|Hnz].
  { rewrite Hz. cbn. exists CacheLengthNotFound, CacheLineLengthNotFound.
    split; [done|]. left. split; [done|]. split; [intros; lia|].
    left. split; [done|]. rewrite Hz. intros; lia. }
  destruct (find_cache_length_first_jump (Z.of_nat (List.length stride_sizes))
              av_result) as (r & -> & Hcases).
  { intros i Hi.
    destruct (table_cell rows cols av_result i 0 Ht ltac:(lia) ltac:(lia))
      as (row & x & Hrow & Hx).
    unfold cell. rewrite Hrow. cbn [bind]. by rewrite Hx. }
  cbn [bind]. destruct Hcases as [[-> Hnone]|(Hrange & Hat & Hbefore)].
  - change (-1 =? -1) with true. cbn [bind].
    destruct (table_row rows cols av_result 0 Ht ltac:(lia)) as (row & Hrow & Hlen).
    destruct (report_line_size stride_sizes av_result (-1) row CacheLengthNotFound)
      as (second & Hsecond & Hline);
      [unfold Int.max_int; lia | done | lia |].
    rewrite Hsecond.
    exists CacheLengthNotFound, second. split; [done|]. left. by repeat split.
  - destruct (Z.eqb_spec r (-1)); [lia|].
    destruct (at_index_in_range length_sizes (Z.to_nat r) ltac:(lia))
      as [length Hlength].
    rewrite Z2Nat.id in Hlength by lia. rewrite Hlength. cbn [bind].
    destruct (table_row rows cols av_result (r + 1) Ht ltac:(lia))
      as (row & Hrow & Hlen).
    destruct (report_line_size stride_sizes av_result r row
                (CacheLength (times_sizeof_int length / 1024)))
      as (second & Hsecond & Hline);
      [unfold Int.max_int in *; lia | done | lia |].
    rewrite Hsecond.
    exists (CacheLength (times_sizeof_int length / 1024)), second.
    split; [done|]. right. exists r, length.
    split; [exact Hrange|]. split; [exact Hat|]. split; [exact Hbefore|].
    split; [exact Hlength|]. split; [reflexivity | exact Hline].
Qed.

(** X7.  On a grid with at least as many rows and columns as there are
    strides, and with at least as many lengths as strides, the last part of
    [main] reads no vector out of bounds and prints two lines determined by
    the first jumps: the capacity scan looks at the first
    [stride_sizes.size()] lengths only; it prints "not found" and scans row
    0 for the line size when none of them jumps, and otherwise prints the
    length before the first jump (in kilobytes) and scans the row of the
    jump for the line size.  (The number of strides is an [int].) *)
Theorem X7_report_lines (stride_sizes length_sizes : list Z) (av_result : grid)
    (rows cols : nat) :
  table rows cols av_result ->
  (List.length stride_sizes <= rows)%nat ->
  (List.length stride_sizes <= cols)%nat ->
  (List.length stride_sizes <= List.length length_sizes)%nat ->
  Z.of_nat (List.length stride_sizes) <= Int.max_int ->
  exists first second,
    report stride_sizes length_sizes av_result = Ok (first, second) /\
    ((first = CacheLengthNotFound /\
      (forall i, 1 <= i < Z.of_nat (List.length stride_sizes) ->
         length_jump av_result i = false) /\
      line_size_reported stride_sizes av_result 0 second) \/
     (exists r length,
        0 <= r < Z.of_nat (List.length stride_sizes) - 1 /\
        length_jump av_result (r + 1) = true /\
        (forall i, 1 <= i <= r -> length_jump av_result i = false) /\
        at_index length_sizes r = Ok length /\
        first = CacheLength (times_sizeof_int length / 1024) /\
        line_size_reported stride_sizes av_result (r + 1) second)).
Proof. apply report_lines. Qed.

Lemma X7_report_lines_witness :
  exists first second,
    report main_stride_sizes main_length_sizes late_jump_grid = Ok (first, second) /\
    ((first = CacheLengthNotFound /\
      (forall i, 1 <= i < Z.of_nat (List.length main_stride_sizes) ->
         length_jump late_jump_grid i = false) /\
      line_size_reported main_stride_sizes late_jump_grid 0 second) \/
     (exists r length,
        0 <= r < Z.of_nat (List.length main_stride_sizes) - 1 /\
        length_jump late_jump_grid (r + 1) = true /\
        (forall i, 1 <= i <= r -> length_jump late_jump_grid i = false) /\
        at_index main_length_sizes r = Ok length /\
        first = CacheLength (times_sizeof_int length / 1024) /\
        line_size_reported main_stride_sizes late_jump_grid (r + 1) second)).
Proof.
  apply (X7_report_lines main_stride_sizes main_length_sizes late_jump_grid
           10%nat 9%nat).
  - split; [reflexivity|]. repeat constructor.
  - simpl. lia.
  - simpl. lia.
  - simpl. lia.
  - vm_compute. discriminate.
Defined.

(** ** [average] *)

Lemma average_nonempty (values : list Z) :
  values <> [] ->
  average values
  = (std_sort values,
     do end_ <- end_index (Z.of_nat (List.length (std_sort values)));
     do sum <- sum_loop (Z.to_nat (end_ - 0)) 0 (std_sort values) 0;
     Ok (PrimFloat.div (Double.of_Z sum) (Double.of_Z (end_ - 0)))).
Proof. by destruct values. Qed.

(** X8.  [average] does not depend on the order of the samples: two
    vectors with the same elements give the same value and are left in the
    same state. *)
Theorem X8_average_order_insensitive (values1 values2 : list Z) :
  values1 ≡ₚ values2 -> average values1 = average values2.
Proof.
  intros Hperm.
  assert (Hsort : std_sort values1 = std_sort values2).
  { apply std_sort_unique; [apply std_sort_sorted|].
    by rewrite std_sort_perm. }
  destruct values1 as [|v1 l1], values2 as [|v2 l2]; [done| | |].
  - by apply Permutation_nil_cons in Hperm.
  - symmetry in Hperm. by apply Permutation_nil_cons in Hperm.
  - rewrite !average_nonempty by done. by rewrite Hsort.
Qed.

Lemma X8_average_order_insensitive_witness :
  average [3; 1; 2] = average [1; 2; 3].
Proof.
  apply X8_average_order_insensitive.
  apply (Permutation_cons_append [1; 2] 3).
Defined.

Lemma sum_loop_in_range (values : list Z) :
  forall n i0 sum, (i0 + n <= List.length values)%nat ->
    is_ok (sum_loop n (Z.of_nat i0) values sum).
Proof.
  induction n as [|n IH]; intros i0 sum Hlen; [done|].
  simpl. rewrite at_index_lookup.
  destruct (lookup_lt_is_Some_2 values i0 ltac:(lia)) as [v ->]. simpl.
  replace (Z.of_nat i0 + 1) with (Z.of_nat (S i0)) by lia. apply IH. lia.
Qed.

Lemma average_completes (values : list Z) :
  Z.of_nat (List.length values) <= 65536 ->
  is_ok (average values).2.
Proof.
  intros Hsize. destruct values as [|v l]; [done|].
  rewrite average_nonempty by done. cbn [snd].
  rewrite std_sort_length.
  rewrite end_index_small by lia. cbn [bind]. rewrite Z.sub_0_r.
  set (T := Z.of_nat (List.length (v :: l))) in *.
  assert (Hend : 0 <= 4 * T / 5 <= T).
  { split; [apply Z.div_pos; lia | apply Z.div_le_upper_bound; lia]. }
  pose proof (sum_loop_in_range (std_sort (v :: l)) (Z.to_nat (4 * T / 5)) 0%nat 0)
    as Hsum.
  destruct (is_ok_Ok _ (Hsum ltac:(rewrite std_sort_length; unfold T in *; lia)))
    as [sum Hrun].
  change (Z.of_nat 0) with 0 in Hrun. by rewrite Hrun.
Qed.

(** X9.  For a vector of at most 65536 samples [average] completes
    whatever the values are: the index [end] does not exceed the size, so
    the summation loop reads no element past the end. *)
Theorem X9_average_reads_in_bounds (values : list Z) :
  Z.of_nat (List.length values) <= 65536 ->
  is_ok (average values).2.
Proof. apply average_completes. Qed.

Lemma X9_average_reads_in_bounds_witness : is_ok (average [7; 3; 5; 9; 1]).2.
Proof.
  apply X9_average_reads_in_bounds. simpl. lia.
Defined.

(** ** The accumulator of [traverse] *)

Lemma wrap32_add_l (x y : Z) : Int.wrap32 (Int.wrap32 x + y) = Int.wrap32 (x + y).
Proof.
  unfold Int.wrap32, Int.wrap.
  replace ((x + 2 ^ (32 - 1)) mod 2 ^ 32 - 2 ^ (32 - 1) + y + 2 ^ (32 - 1))
    with ((x + 2 ^ (32 - 1)) mod 2 ^ 32 + y) by lia.
  rewrite Zplus_mod_idemp_l. f_equal. f_equal. lia.
Qed.

Lemma total_perm (l1 l2 : list Z) : l1 ≡ₚ l2 -> total l1 = total l2.
Proof.
  induction 1 as [|x l1 l2 _ IH|x y l|l1 l2 l3 _ IH1 _ IH2]; simpl; lia.
Qed.

Lemma total_seqZ (m : Z) (n : nat) :
  2 * total (seqZ m (Z.of_nat n)) = Z.of_nat n * (2 * m + Z.of_nat n - 1).
Proof.
  revert m. induction n as [|n IH]; intros m; [done|].
  rewrite seqZ_S. simpl total. specialize (IH (m + 1)). lia.
Qed.

Section Accumulator.

Variables stride len L : Z.
Hypothesis Hstride : 1 <= stride.
Hypothesis Hfit : (L - 1) * stride <= Int.max_int.
Hypothesis Hroom : (L - 1) * stride < len.

(** Walking along the chain adds the offsets of the slots met. *)
Lemma traverse_loop_chain (cells' : gmap Z Z) (full : list Z) :
  (forall p, p ∈ full -> 0 <= p < L) ->
  (forall pre a b post, full = pre ++ a :: b :: post ->
     cells' !! (a * stride) = Some (Int.xor (Int.mul b stride) mask)) ->
  forall l cur pre n' sum, full = pre ++ cur :: l ->
    Int.is_int sum ->
    traverse_loop (List.length l + n') (Block len cells') (cur * stride) sum
    = traverse_loop n' (Block len cells') (default cur (last l) * stride)
        (Int.wrap32 (sum + stride * total l)).
Proof.
  intros Hslots Hedge. induction l as [|b l IH]; intros cur pre n' sum E Hsum.
  - simpl. rewrite Z.mul_0_r, Z.add_0_r. by rewrite wrap32_id.
  - assert (Hc : 0 <= cur < L).
    { apply Hslots. rewrite E. apply elem_of_app. right. left. }
    assert (Hb : 0 <= b < L).
    { apply Hslots. rewrite E. apply elem_of_app. right. right. left. }
    simpl. pose proof (slot_offset stride L Hstride cur Hc).
    destruct (Z.leb_spec 0 (cur * stride)); [|lia].
    destruct (Z.ltb_spec (cur * stride) len); [|lia]. simpl.
    rewrite (Hedge pre cur b l E). simpl.
    rewrite xor_mask_twice, (mul_slot stride L Hstride Hfit b Hb).
    rewrite (IH b (pre ++ [cur])); [|by rewrite <- app_assoc|apply wrap32_range].
    unfold Int.add. rewrite wrap32_add_l.
    replace (default cur (last (b :: l))) with (default b (last l))
      by (rewrite last_cons; by destruct (last l)).
    f_equal. f_equal. simpl total. lia.
Qed.

End Accumulator.

(** After [create_cycle], walks of whole cycles from position 0. *)
Lemma traverse_cycles
    (shuffle : list Z -> list Z) (length stride len : Z) (cells : gmap Z Z) :
  (forall l, shuffle l ≡ₚ l) ->
  1 <= length -> 1 <= stride ->
  (length - 1) * stride <= Int.max_int ->
  (length - 1) * stride < len ->
  exists m',
    create_cycle shuffle (Block len cells) length stride = Ok m' /\
    forall k sum, 0 <= k -> Int.is_int sum ->
      traverse (k * length) m' sum
      = Ok (Int.wrap32 (sum + k * (stride * (length * (length - 1) / 2)))).
Proof.
  intros Hperm Hlength Hstride Hfit Hroom.
  destruct (create_cycle_spec shuffle Hperm length stride len
              Hlength Hstride Hfit Hroom cells) as (cells' & Hrun & Hedge & _).
  set (perm := shuffle (seqZ 1 (length - 1))) in *.
  exists (Block len cells'). split; [done|].
  assert (Hall : perm ++ [0] ≡ₚ seqZ 0 length) by (by apply perm_all_slots).
  assert (Hslots : forall p, p ∈ 0 :: perm ++ [0] -> 0 <= p < length).
  { intros p [->|Hp]%elem_of_cons; [lia|].
    rewrite Hall in Hp. apply elem_of_seqZ in Hp. lia. }
  assert (Hlen : List.length (perm ++ [0]) = Z.to_nat length).
  { by rewrite Hall, length_seqZ. }
  assert (Htotal : total (perm ++ [0]) = length * (length - 1) / 2).
  { rewrite (total_perm _ _ Hall).
    pose proof (total_seqZ 0 (Z.to_nat length)) as H2.
    rewrite Z2Nat.id in H2 by lia.
    replace (length * (length - 1)) with (total (seqZ 0 length) * 2) by lia.
    by rewrite Z.div_mul. }
  assert (Hcycles : forall (k : nat) sum, Int.is_int sum ->
            traverse_loop (k * Z.to_nat length) (Block len cells') 0 sum
            = Ok (Int.wrap32 (sum + Z.of_nat k * (stride * total (perm ++ [0]))))).
  { induction k as [|k IH]; intros sum Hsum.
    - simpl. rewrite Z.add_0_r. by rewrite wrap32_id.
    - change (S k * Z.to_nat length)%nat
        with (Z.to_nat length + k * Z.to_nat length)%nat.
      rewrite <- Hlen. change 0 with (0 * stride) at 1.
      rewrite (traverse_loop_chain stride len length Hstride Hfit Hroom cells'
                 (0 :: perm ++ [0]) Hslots Hedge (perm ++ [0]) 0 []) by done.
      rewrite last_snoc. simpl default. rewrite Z.mul_0_l, Hlen.
      rewrite IH by apply wrap32_range. rewrite wrap32_add_l.
      f_equal. f_equal. lia. }
  intros k sum Hk Hsum. unfold traverse.
  rewrite Z2Nat.inj_mul by lia. rewrite Hcycles by done.
  by rewrite Z2Nat.id, Htotal by lia.
Qed.

(** X10.  A walk of [k] whole cycles adds to the accumulator, modulo
    [2^32], [k] times the sum of the offsets of all the slots,
    [stride * (0 + 1 + ... + (length - 1))], whatever permutation the
    shuffle produced. *)
Theorem X10_traverse_whole_cycles
    (shuffle : list Z -> list Z) (length stride len k sum : Z) (cells : gmap Z Z) :
  (forall l, shuffle l ≡ₚ l) ->
  1 <= length -> 1 <= stride ->
  (length - 1) * stride <= Int.max_int ->
  (length - 1) * stride < len ->
  0 <= k -> Int.is_int sum ->
  exists m',
    create_cycle shuffle (Block len cells) length stride = Ok m' /\
    traverse (k * length) m' sum
    = Ok (Int.wrap32 (sum + k * (stride * (length * (length - 1) / 2)))).
Proof.
  intros Hperm Hlength Hstride Hfit Hroom Hk Hsum.
  destruct (traverse_cycles shuffle length stride len cells
              Hperm Hlength Hstride Hfit Hroom) as (m' & Hrun & Hwalk).
  exists m'. split; [done|]. by apply Hwalk.
Qed.

Lemma X10_traverse_whole_cycles_witness :
  exists m',
    create_cycle (@rev Z) (Block 10 ∅) 5 2 = Ok m' /\
    traverse (3 * 5) m' 7 = Ok (Int.wrap32 (7 + 3 * (2 * (5 * (5 - 1) / 2)))).
Proof.
  apply X10_traverse_whole_cycles.
  - intros l. symmetry. apply Permutation_rev.
  - lia.
  - lia.
  - vm_compute. discriminate.
  - lia.
  - lia.
  - vm_compute. split; discriminate.
Defined.

Lemma at_index_small (sizes : list Z) (i s : Z) :
  small_ints sizes -> at_index sizes i = Ok s -> 1 <= s <= 2 ^ 26 - 1.
Proof.
  intros Hall [_ Hi]%at_index_Ok.
  unfold small_ints in Hall. rewrite Forall_forall in Hall.
  apply Hall. by eapply list_elem_of_lookup_2.
Qed.

Lemma measure_cell_sum {St : Type} (env : Z -> Z -> cell_env)
    (on_result : Z -> Z -> Z -> St -> St)
    (stride_sizes : list Z) (length gap i j : Z) (cb : St) (sum : Z) :
  well_behaved (env i j) ->
  1 <= length <= 2 ^ 26 - 1 -> 1 <= gap ->
  at_index stride_sizes j = Ok gap ->
  Int.is_int sum ->
  exists cb',
    measure_cell env on_result stride_sizes length i j (cb, sum)
    = ((cb', Int.wrap32 (sum + cell_sum length gap)), Ok tt).
Proof.
  intros [Hperm Halloc] Hlength Hgap Hj Hsum. unfold measure_cell, cell_sum.
  rewrite Hj. simpl.
  unfold int_div. destruct (Z.eqb_spec gap 0); [lia|].
  destruct (Z.eqb_spec length Int.min_int) as [E|_];
    [unfold Int.min_int in E; lia|]. simpl.
  set (ap := Z.quot length gap).
  destruct (Z.leb_spec ap 4) as [Hq|Hq].
  - destruct (Z.ltb_spec 4 ap); [lia|]. exists cb.
    by rewrite Z.add_0_r, wrap32_id.
  - destruct (Z.ltb_spec 4 ap); [|lia].
    unfold aligned_alloc. rewrite Halloc.
    assert (Hbytes : (4 * length) mod 2 ^ 64 = 4 * length)
      by (apply Z.mod_small; lia).
    rewrite Hbytes, (Z.mul_comm 4), Z.div_mul by lia.
    pose proof (quot_times_le length gap ltac:(lia) Hgap) as Hle. fold ap in Hle.
    assert (Hap : ap <= length).
    { unfold ap. rewrite Z.quot_div_nonneg by lia.
      apply Z.div_le_upper_bound; nia. }
    destruct (traverse_cycles (shuffle (env i j)) ap gap length ∅ Hperm)
      as (m' & -> & Hwalk); try (unfold Int.max_int; nia); try lia.
    simpl.
    assert (Hmul : forall c, 0 <= c <= 32 -> Int.mul c ap = c * ap).
    { intros c Hc. unfold Int.mul. apply wrap32_id.
      unfold Int.is_int, Int.min_int, Int.max_int. nia. }
    rewrite (Hmul 32), (Hwalk 32 sum) by (done || lia). simpl.
    unfold measure_time. rewrite (Hmul 16) by lia.
    rewrite (Hwalk 16) by (lia || apply wrap32_range). simpl.
    eexists. f_equal. f_equal. rewrite wrap32_add_l. f_equal. lia.
Qed.

Section SweepSum.

Context {St : Type}.
Variable env : Z -> Z -> cell_env.
Variable on_result : Z -> Z -> Z -> St -> St.
Variables stride_sizes length_sizes : list Z.
Hypothesis env_good : forall i j, well_behaved (env i j).
Hypothesis strides_small : small_ints stride_sizes.
Hypothesis lengths_small : small_ints length_sizes.

Lemma measure_row_loop_sum (i length : Z) :
  at_index length_sizes i = Ok length ->
  forall n j0 cb sum, (j0 + n = List.length stride_sizes)%nat ->
  Int.is_int sum ->
  exists cb',
    for_loop n (Z.of_nat j0) (measure_cell env on_result stride_sizes length i) (cb, sum)
    = ((cb', Int.wrap32 (sum + total (map (cell_sum length) (drop j0 stride_sizes)))),
       Ok tt).
Proof.
  intros Hi. induction n as [|n IH]; intros j0 cb sum Hn Hsum.
  - exists cb. rewrite drop_ge by lia. simpl.
    by rewrite Z.add_0_r, wrap32_id.
  - destruct (at_index_in_range stride_sizes j0 ltac:(lia)) as [gap Hj].
    pose proof (at_index_small _ _ _ strides_small Hj) as Hgap.
    pose proof (at_index_small _ _ _ lengths_small Hi) as Hlength.
    destruct (measure_cell_sum env on_result stride_sizes length gap i
                (Z.of_nat j0) cb sum (env_good _ _) Hlength ltac:(lia) Hj Hsum)
      as [cb1 Hcell].
    rewrite for_loop_S, Hcell.
    replace (Z.of_nat j0 + 1) with (Z.of_nat (S j0)) by lia.
    destruct (IH (S j0) cb1 (Int.wrap32 (sum + cell_sum length gap))
                ltac:(lia) (wrap32_range _)) as [cb2 ->].
    exists cb2. f_equal. f_equal. rewrite wrap32_add_l.
    pose proof Hj as [_ Hj']%at_index_Ok. rewrite Nat2Z.id in Hj'.
    rewrite (drop_S _ _ _ Hj'). simpl total. f_equal. lia.
Qed.

Lemma measure_loop_sum :
  forall n i0 cb sum, (i0 + n = List.length length_sizes)%nat ->
  Int.is_int sum ->
  exists cb',
    for_loop n (Z.of_nat i0) (measure_row env on_result stride_sizes length_sizes)
      (cb, sum)
    = ((cb', Int.wrap32 (sum + total (map (row_sum stride_sizes)
                                        (drop i0 length_sizes)))), Ok tt).
Proof.
  induction n as [|n IH]; intros i0 cb sum Hn Hsum.
  - exists cb. rewrite drop_ge by lia. simpl.
    by rewrite Z.add_0_r, wrap32_id.
  - destruct (at_index_in_range length_sizes i0 ltac:(lia)) as [length Hi].
    destruct (measure_row_loop_sum (Z.of_nat i0) length Hi
                (List.length stride_sizes) 0%nat cb sum eq_refl Hsum) as [cb1 Hrow].
    rewrite for_loop_S. unfold measure_row at 1. rewrite Hi.
    change 0 with (Z.of_nat 0). rewrite Hrow. rewrite drop_0.
    replace (Z.of_nat i0 + 1) with (Z.of_nat (S i0)) by lia.
    destruct (IH (S i0) cb1
                (Int.wrap32 (sum + total (map (cell_sum length) stride_sizes)))
                ltac:(lia) (wrap32_range _)) as [cb2 ->].
    exists cb2. f_equal. f_equal. rewrite wrap32_add_l.
    pose proof Hi as [_ Hi']%at_index_Ok. rewrite Nat2Z.id in Hi'.
    rewrite (drop_S _ _ _ Hi'). simpl total. unfold row_sum at 2. f_equal. lia.
Qed.

End SweepSum.

Lemma measure_accumulator {St : Type} (env : Z -> Z -> cell_env)
    (on_result : Z -> Z -> Z -> St -> St) (stride_sizes length_sizes : list Z)
    (cb : St) :
  (forall i j, well_behaved (env i j)) ->
  small_ints stride_sizes -> small_ints length_sizes ->
  (measure env on_result stride_sizes length_sizes cb).2
  = Ok (Int.wrap32 (sweep_sum stride_sizes length_sizes)).
Proof.
  intros Henv Hs Hl. unfold measure.
  destruct (measure_loop_sum env on_result stride_sizes length_sizes Henv Hs Hl
              (List.length length_sizes) 0%nat cb 0 eq_refl) as [cb' Hloop].
  { vm_compute. split; discriminate. }
  change (Z.of_nat 0) with 0 in Hloop. rewrite Hloop. by rewrite drop_0.
Qed.

(** X11.  The value the sweep writes to [dev_null] is determined by the
    two lists alone: in every environment where shuffles permute and
    allocations succeed, whatever the permutations and the clock, it is the
    sum over the measured cells of 48 times the sum of the offsets of the
    cell's slots, reduced to an [int]. *)
Theorem X11_measure_accumulator {St : Type} (env : Z -> Z -> cell_env)
    (on_result : Z -> Z -> Z -> St -> St) (stride_sizes length_sizes : list Z)
    (cb : St) :
  (forall i j, well_behaved (env i j)) ->
  small_ints stride_sizes -> small_ints length_sizes ->
  (measure env on_result stride_sizes length_sizes cb).2
  = Ok (Int.wrap32 (sweep_sum stride_sizes length_sizes)).
Proof. apply measure_accumulator. Qed.

Lemma X11_measure_accumulator_witness :
  (measure (fun i j => CellEnv (@rev Z) (fun _ => true) (1000 + 10 * i + j))
     record_call main_stride_sizes main_length_sizes []).2
  = Ok (Int.wrap32 (sweep_sum main_stride_sizes main_length_sizes)).
Proof.
  apply X11_measure_accumulator.
  - intros i j. apply well_behaved_rev.
  - repeat constructor; vm_compute; discriminate.
  - repeat constructor; vm_compute; discriminate.
Defined.

(** ** The aggregated grid *)

Lemma cell_opt_table (rows cols : nat) (results : samples) (i j : Z) :
  table rows cols results ->
  0 <= i < Z.of_nat rows -> 0 <= j < Z.of_nat cols ->
  cell_opt results i j = Some (samples_of results i j).
Proof.
  intros Ht Hi Hj.
  destruct (table_cell rows cols results i j Ht Hi Hj) as (row & v & Hrow & Hv).
  unfold samples_of. rewrite Hrow, Hv.
  apply at_index_Ok in Hrow as [_ Hrow]. apply at_index_Ok in Hv as [_ Hv].
  unfold cell_opt. rewrite Hrow. simpl. exact Hv.
Qed.

Lemma samples_of_lookup (results : samples) (i j : nat) (row : list (list Z))
    (v : list Z) :
  results !! i = Some row -> row !! j = Some v ->
  samples_of results (Z.of_nat i) (Z.of_nat j) = v.
Proof.
  intros Hrow Hv. unfold samples_of.
  rewrite at_index_lookup, Hrow, at_index_lookup, Hv. done.
Qed.

Lemma map_result_ok {A B : Type} (f : A -> result B) (l : list A) :
  Forall (fun a => is_ok (f a)) l -> exists l', map_result f l = Ok l'.
Proof.
  induction 1 as [|a l Ha _ [l' IH]]; [by exists []|].
  destruct (is_ok_Ok _ Ha) as [b Hb]. exists (b :: l'). simpl.
  by rewrite Hb, IH.
Qed.

Lemma samples_of_outside (rows cols : nat) (results : samples) (i j : Z) :
  table rows cols results ->
  ~ 0 <= i < Z.of_nat rows \/ ~ 0 <= j < Z.of_nat cols ->
  samples_of results i j = [].
Proof.
  intros [Hrows Hcols] Hout. unfold samples_of.
  destruct (at_index results i) as [row|] eqn:Hrow; [|done].
  destruct (at_index row j) as [v|] eqn:Hv; [|done].
  apply at_index_Ok in Hrow as [Hi0 Hrow]. apply at_index_Ok in Hv as [Hj0 Hv].
  pose proof (lookup_lt_Some _ _ _ Hrow) as Hi.
  pose proof (lookup_lt_Some _ _ _ Hv) as Hj.
  rewrite (Forall_lookup_1 _ _ _ _ Hcols Hrow) in Hj. lia.
Qed.

(** The aggregation completes on a table whose cells hold at most 65536
    samples, and yields a grid of the same shape. *)
Lemma aggregate_table (rows cols : nat) (results : samples) :
  table rows cols results ->
  (forall i j, Z.of_nat (List.length (samples_of results i j)) <= 65536) ->
  exists av_result, aggregate results = Ok av_result /\ table rows cols av_result.
Proof.
  intros Ht Hsmall. unfold aggregate.
  assert (Hrowsok : Forall (fun row =>
            is_ok (map_result (fun values => (average values).2) row)) results).
  { apply Forall_lookup. intros i row Hrow.
    assert (Hi : 0 <= Z.of_nat i < Z.of_nat rows).
    { destruct Ht as [<- _]. apply lookup_lt_Some in Hrow. lia. }
    assert (Hlen : List.length row = cols).
    { destruct Ht as [_ Hc]. by apply (Forall_lookup_1 _ _ _ _ Hc Hrow). }
    destruct (map_result_ok (fun values => (average values).2) row) as [r ->];
      [|done].
    apply Forall_lookup. intros j values Hv.
    apply average_completes.
    specialize (Hsmall (Z.of_nat i) (Z.of_nat j)).
    by rewrite (samples_of_lookup _ _ _ _ _ Hrow Hv) in Hsmall. }
  destruct (map_result_ok _ _ Hrowsok) as [av Hav].
  exists av. split; [done|]. destruct Ht as [Hrows Hcols]. split.
  - by rewrite (map_result_length _ _ _ Hav).
  - apply Forall_lookup. intros i row' Hrow'.
    assert (Hi : (i < List.length results)%nat).
    { apply lookup_lt_Some in Hrow'.
      by rewrite (map_result_length _ _ _ Hav) in Hrow'. }
    destruct (lookup_lt_is_Some_2 results i Hi) as [row Hrow].
    destruct (map_result_lookup _ _ _ Hav _ _ Hrow) as (row'' & Hrun & Hrow'').
    rewrite Hrow' in Hrow''. injection Hrow'' as <-.
    rewrite (map_result_length _ _ _ Hrun).
    by apply (Forall_lookup_1 _ _ _ _ Hcols Hrow).
Qed.

Lemma Ok_inj {A : Type} (a b : A) : Ok a = Ok b -> a = b.
Proof. intros H. by injection H. Qed.

Lemma cell_lookup (av_result : grid) (i j : nat) :
  cell av_result (Z.of_nat i) (Z.of_nat j)
  = match av_result !! i ≫= (fun row => row !! j) with
    | Some a => Ok a
    | None => match av_result !! i with
              | Some _ => Fault (BadIndex (Z.of_nat j))
              | None => Fault (BadIndex (Z.of_nat i))
              end
    end.
Proof.
  unfold cell. rewrite at_index_lookup.
  destruct (av_result !! i) as [row|]; simpl; [|done].
  rewrite at_index_lookup. by destruct (row !! j).
Qed.

(** Two grids of the same shape with the same cells are equal. *)
Lemma grid_ext (rows cols : nat) (av1 av2 : grid) :
  table rows cols av1 -> table rows cols av2 ->
  (forall i j, 0 <= i < Z.of_nat rows -> 0 <= j < Z.of_nat cols ->
     cell av1 i j = cell av2 i j) ->
  av1 = av2.
Proof.
  intros [Hr1 Hc1] [Hr2 Hc2] Hcells.
  apply list_eq_same_length with rows; [done..|].
  intros i row1 row2 Hi Hrow1 Hrow2.
  pose proof (Forall_lookup_1 _ _ _ _ Hc1 Hrow1) as Hl1.
  pose proof (Forall_lookup_1 _ _ _ _ Hc2 Hrow2) as Hl2.
  apply list_eq_same_length with cols; [done..|].
  intros j a b Hj Ha Hb.
  specialize (Hcells (Z.of_nat i) (Z.of_nat j) ltac:(lia) ltac:(lia)).
  rewrite !cell_lookup, Hrow1, Hrow2 in Hcells. simpl in Hcells.
  rewrite Ha, Hb in Hcells. by apply Ok_inj.
Qed.

Lemma cell_map_grid (F : Z -> Z -> float) (stride_sizes length_sizes : list Z)
    (i j length stride : Z) :
  at_index length_sizes i = Ok length ->
  at_index stride_sizes j = Ok stride ->
  cell (map (fun length => map (F length) stride_sizes) length_sizes) i j
  = Ok (F length stride).
Proof.
  intros [Hi0 Hi]%at_index_Ok [Hj0 Hj]%at_index_Ok.
  rewrite <- (Z2Nat.id i), <- (Z2Nat.id j) by lia. rewrite cell_lookup.
  change (map (fun length0 => map (F length0) stride_sizes) length_sizes)
    with ((fun length0 => F length0 <$> stride_sizes) <$> length_sizes).
  rewrite list_lookup_fmap, Hi. simpl. by rewrite list_lookup_fmap, Hj.
Qed.

Lemma table_map_grid (F : Z -> Z -> float) (stride_sizes length_sizes : list Z) :
  table (List.length length_sizes) (List.length stride_sizes)
    (map (fun length => map (F length) stride_sizes) length_sizes).
Proof.
  split; [apply length_map|].
  apply Forall_forall. intros row Hrow. apply list_elem_of_In in Hrow.
  apply in_map_iff in Hrow as (length & <- & _). apply length_map.
Qed.

Lemma fmap_constant {A B : Type} (f : A -> B) (c : B) (l : list A) :
  (forall x, f x = c) -> f <$> l = replicate (List.length l) c.
Proof.
  intros Hf. induction l as [|x l IH]; [done|].
  rewrite fmap_cons, Hf, IH. reflexivity.
Qed.

(** X14.  On the lists of [main], every sweep that runs in an
    environment where shuffles permute and allocations succeed writes the
    same value, 2089721856, to [dev_null].  The exact sum of the offsets met
    is 1097306382336, which no [int] can hold: the accumulator of
    [traverse] wraps around on the way. *)
Theorem X14_main_accumulator_wraps {St : Type} (env : Z -> Z -> cell_env)
    (on_result : Z -> Z -> Z -> St -> St) (cb : St) :
  (forall i j, well_behaved (env i j)) ->
  (measure env on_result main_stride_sizes main_length_sizes cb).2
    = Ok 2089721856 /\
  sweep_sum main_stride_sizes main_length_sizes = 1097306382336 /\
  Int.max_int < sweep_sum main_stride_sizes main_length_sizes.
Proof.
  intros Henv. split; [|split; [reflexivity | vm_compute; reflexivity]].
  rewrite (measure_accumulator env on_result); [reflexivity | done | |];
    repeat constructor; vm_compute; discriminate.
Qed.

Lemma X14_main_accumulator_wraps_witness :
  (measure (fun i j => CellEnv (@rev Z) (fun _ => true) (1000 + 10 * i + j))
     record_call main_stride_sizes main_length_sizes []).2
    = Ok 2089721856 /\
  sweep_sum main_stride_sizes main_length_sizes = 1097306382336 /\
  Int.max_int < sweep_sum main_stride_sizes main_length_sizes.
Proof.
  apply X14_main_accumulator_wraps.
  intros i j. apply well_behaved_rev.
Defined.

(** ** [print_table] *)

Lemma find_char_None (c : ascii) (str : text) :
  find_char c str = None <-> c ∉ str.
Proof.
  induction str as [|x str IH]; simpl.
  - split; [intros _ H; by apply elem_of_nil in H | done].
  - destruct (Ascii.eqb_spec x c) as [->|Hne].
    + split; [done|]. intros H. exfalso. apply H. left.
    + destruct (find_char c str) eqn:E; simpl.
      * split; [done|]. intros H. exfalso.
        destruct IH as [_ IH]. rewrite not_elem_of_cons in H.
        destruct H as [_ H]. by specialize (IH H).
      * split; [|done]. intros _. rewrite not_elem_of_cons. split; [done|].
        by apply IH.
Qed.

Lemma find_char_first (c : ascii) (a b : text) :
  c ∉ a -> find_char c (a ++ c :: b) = Some (List.length a).
Proof.
  induction a as [|x a IH]; intros Ha; simpl.
  - by rewrite Ascii.eqb_refl.
  - rewrite not_elem_of_cons in Ha. destruct Ha as [Hne Ha].
    destruct (Ascii.eqb_spec x c) as [->|_]; [done|]. by rewrite IH.
Qed.

(** A string without a dot is kept whole by [format_cell]. *)
Lemma format_cell_whole (str : text) :
  Z.of_nat (List.length str) < 2 ^ 64 ->
  "."%char ∉ str -> format_cell str = str.
Proof.
  intros Hsize Hdot. unfold format_cell.
  apply find_char_None in Hdot. rewrite Hdot.
  rewrite Zplus_mod_idemp_l.
  replace (Z.of_nat (List.length str) - 2 + 2) with (Z.of_nat (List.length str))
    by lia.
  rewrite Z.mod_small by lia. rewrite Nat2Z.id. apply firstn_all.
Qed.

(** X15.  The text of a cell: a string without a dot (such as the text of
    a NaN) is kept whole; a string with a dot is cut after the first
    character that follows its first dot, so a number keeps one decimal.
    (Sizes are those of a [size_t].) *)
Theorem X15_format_cell :
  (forall str : text,
     Z.of_nat (List.length str) < 2 ^ 64 ->
     "."%char ∉ str -> format_cell str = str) /\
  (forall (a b : text) (d : ascii),
     Z.of_nat (List.length a) + 2 < 2 ^ 64 ->
     "."%char ∉ a ->
     format_cell (a ++ "."%char :: d :: b) = a ++ ["."%char; d]).
Proof.
  split.
  - apply format_cell_whole.
  - intros a b d Hsize Hdot. unfold format_cell.
    rewrite (find_char_first _ a (d :: b) Hdot).
    rewrite Z.mod_small by lia.
    replace (Z.to_nat (Z.of_nat (List.length a) + 2)) with (List.length a + 2)%nat
      by lia.
    rewrite take_app_add'; [|done]. reflexivity.
Qed.

Lemma fold_max_ge (line : list text) : forall m0 : nat,
  (m0 <= foldl (fun m cell => Nat.max m (List.length cell)) m0 line)%nat /\
  forall cell, cell ∈ line ->
    (List.length cell <= foldl (fun m cell => Nat.max m (List.length cell)) m0 line)%nat.
Proof.
  induction line as [|c line IH]; intros m0; simpl.
  - split; [lia|]. intros cell H. by apply elem_of_nil in H.
  - destruct (IH (Nat.max m0 (List.length c))) as [Hm Hc]. split; [lia|].
    intros cell [->|Hin]%elem_of_cons; [lia | by apply Hc].
Qed.

Lemma max_length_ge (output : list (list text)) (line : list text) (cell : text) :
  line ∈ output -> cell ∈ line -> (List.length cell <= max_length output)%nat.
Proof.
  unfold max_length. generalize 0%nat.
  induction output as [|l output IH]; intros m0 Hline Hcell.
  - by apply elem_of_nil in Hline.
  - simpl. apply elem_of_cons in Hline as [->|Hline].
    + destruct (fold_max_ge l m0) as [_ Hc]. specialize (Hc cell Hcell).
      assert (Hmono : forall (o : list (list text)) (m : nat),
                (m <= foldl (fun m line =>
                               foldl (fun m cell => Nat.max m (List.length cell)) m line)
                        m o)%nat).
      { induction o as [|l' o IHo]; intros m; simpl; [lia|].
        specialize (IHo (foldl (fun m cell => Nat.max m (List.length cell)) m l')).
        destruct (fold_max_ge l' m) as [Hm _]. lia. }
      specialize (Hmono output
                    (foldl (fun m cell => Nat.max m (List.length cell)) m0 l)).
      lia.
    + by apply IH.
Qed.

Lemma length_pad (width : nat) (cell : text) :
  (List.length cell <= width)%nat -> List.length (pad width cell) = width.
Proof.
  intros H. unfold pad. rewrite length_app, length_replicate. lia.
Qed.

Lemma length_print_line (width : nat) (line : list text) :
  Forall (fun cell => List.length cell = width) line ->
  List.length (print_line line) = (List.length line * (width + 3))%nat.
Proof.
  induction 1 as [|c line Hc _ IH]; [done|].
  unfold print_line in *. rewrite flat_map_step, !length_app, IH, Hc. simpl. lia.
Qed.

Lemma body_row_table (to_string_double : float -> text) (av_result : grid)
    (rows cols : nat) (i stride : Z) :
  table rows cols av_result -> 0 <= i < Z.of_nat cols ->
  exists cells,
    body_row to_string_double av_result rows i stride = Ok cells /\
    List.length cells = S rows /\
    cells !! 0%nat = Some (to_string_size (times_sizeof_int stride)) /\
    forall (j : nat) x, cell av_result (Z.of_nat j) i = Ok x ->
      (j < rows)%nat ->
      cells !! S j = Some (format_cell (to_string_double x)).
Proof.
  intros Ht Hi. unfold body_row.
  destruct (map_result_ok
              (fun j => do x <- cell av_result j i;
                        Ok (format_cell (to_string_double x)))
              (seqZ 0 (Z.of_nat rows))) as [cells Hcells].
  { apply Forall_forall. intros j Hj. apply elem_of_seqZ in Hj.
    destruct (table_cell rows cols av_result j i Ht ltac:(lia) Hi)
      as (row & x & Hrow & Hx).
    unfold cell. rewrite Hrow. simpl. by rewrite Hx. }
  rewrite Hcells. cbn [bind]. eexists. split; [done|]. split; [|split; [done|]].
  - simpl. by rewrite (map_result_length _ _ _ Hcells), length_seqZ, Nat2Z.id.
  - intros j x Hx Hj. simpl.
    destruct (map_result_lookup _ _ _ Hcells j (Z.of_nat j)) as (c & Hc & ->).
    { by rewrite lookup_seqZ_lt by lia. }
    rewrite Hx in Hc. simpl in Hc. by injection Hc as <-.
Qed.

(** The table before padding, on a grid with a row per length and a cell
    per stride. *)
Lemma table_cells_table (to_string_double : float -> text)
    (stride_sizes length_sizes : list Z) (av_result : grid) :
  table (List.length length_sizes) (List.length stride_sizes) av_result ->
  exists output,
    table_cells to_string_double stride_sizes length_sizes av_result = Ok output /\
    table (S (List.length stride_sizes)) (S (List.length length_sizes)) output /\
    output !! 0%nat = Some (header_row length_sizes) /\
    forall (i : nat) stride, stride_sizes !! i = Some stride ->
      exists line,
        output !! S i = Some line /\
        line !! 0%nat = Some (to_string_size (times_sizeof_int stride)) /\
        forall (j : nat) x, cell av_result (Z.of_nat j) (Z.of_nat i) = Ok x ->
          (j < List.length length_sizes)%nat ->
          line !! S j = Some (format_cell (to_string_double x)).
Proof.
  intros Ht. unfold table_cells.
  set (f := fun p : Z * Z =>
              body_row to_string_double av_result (List.length length_sizes) p.1 p.2).
  set (ps := zip (seqZ 0 (Z.of_nat (List.length stride_sizes))) stride_sizes).
  assert (Hps : forall i stride, stride_sizes !! i = Some stride ->
            ps !! i = Some (Z.of_nat i, stride)).
  { intros i stride Hi. unfold ps. apply lookup_zip_with_Some.
    exists (Z.of_nat i), stride. split; [done|]. split; [|done].
    apply lookup_lt_Some in Hi. by rewrite lookup_seqZ_lt by lia. }
  assert (Hlen : List.length ps = List.length stride_sizes).
  { unfold ps. rewrite length_zip_with, length_seqZ. lia. }
  assert (Hin : forall i p, ps !! i = Some p ->
            p.1 = Z.of_nat i /\ stride_sizes !! i = Some p.2).
  { intros i [k stride] Hp. unfold ps in Hp.
    apply lookup_zip_with_Some in Hp as (k' & s' & E & Hk & Hs).
    injection E as -> ->. apply lookup_seqZ in Hk as [-> _]. simpl.
    split; [lia | done]. }
  destruct (map_result_ok f ps) as [rows Hrows].
  { apply Forall_lookup. intros i p Hp. destruct (Hin i p Hp) as [Hk Hs].
    apply lookup_lt_Some in Hs.
    destruct (body_row_table to_string_double av_result _ _ p.1 p.2 Ht)
      as (cells & Hcells & _); [lia|]. unfold f. by rewrite Hcells. }
  rewrite Hrows. cbn [bind]. eexists. split; [done|].
  split; [|split; [done|]].
  - split.
    + simpl. by rewrite (map_result_length _ _ _ Hrows), Hlen.
    + constructor.
      * unfold header_row. simpl. by rewrite length_map.
      * apply Forall_lookup. intros i line Hline.
        assert (Hi : (i < List.length ps)%nat).
        { apply lookup_lt_Some in Hline.
          by rewrite (map_result_length _ _ _ Hrows) in Hline. }
        destruct (lookup_lt_is_Some_2 ps i Hi) as [p Hp].
        destruct (map_result_lookup _ _ _ Hrows i p Hp) as (line' & Hrun & Hl).
        rewrite Hline in Hl. injection Hl as <-.
        destruct (Hin i p Hp) as [Hk Hs]. apply lookup_lt_Some in Hs.
        destruct (body_row_table to_string_double av_result _ _ p.1 p.2 Ht)
          as (cells & Hcells & Hclen & _); [lia|].
        unfold f in Hrun. rewrite Hcells in Hrun. by injection Hrun as <-.
  - intros i stride Hi. simpl.
    destruct (map_result_lookup _ _ _ Hrows i _ (Hps i stride Hi))
      as (line & Hrun & Hline).
    exists line. split; [done|].
    pose proof (lookup_lt_Some _ _ _ Hi) as Hilt.
    destruct (body_row_table to_string_double av_result _ _ (Z.of_nat i) stride Ht)
      as (cells & Hcells & _ & Hlabel & Hcontent); [lia|].
    unfold f in Hrun. simpl in Hrun. rewrite Hcells in Hrun. injection Hrun as <-.
    split; [done|]. intros j x Hx Hj. by apply Hcontent.
Qed.

Lemma fold_max_attained (line : list text) : forall m0 : nat,
  foldl (fun m cell => Nat.max m (List.length cell)) m0 line = m0 \/
  exists cell, cell ∈ line /\
    List.length cell = foldl (fun m cell => Nat.max m (List.length cell)) m0 line.
Proof.
  induction line as [|c line IH]; intros m0; simpl; [by left|].
  destruct (IH (Nat.max m0 (List.length c))) as [E|(cell & Hin & E)].
  - rewrite E. destruct (Nat.max_spec m0 (List.length c)) as [[_ ->]|[_ ->]].
    + right. exists c. split; [left | done].
    + by left.
  - right. exists cell. split; [by right | done].
Qed.

(** The width of the table is the length of one of its cells, when it has
    a cell at all. *)
Lemma max_length_attained (output : list (list text)) :
  max_length output = 0%nat \/
  exists line cell, line ∈ output /\ cell ∈ line /\
    List.length cell = max_length output.
Proof.
  unfold max_length.
  assert (Hgen : forall m0,
    foldl (fun m line => foldl (fun m cell => Nat.max m (List.length cell)) m line)
      m0 output = m0 \/
    exists line cell, line ∈ output /\ cell ∈ line /\
      List.length cell
      = foldl (fun m line => foldl (fun m cell => Nat.max m (List.length cell)) m line)
          m0 output).
  { induction output as [|l output IH]; intros m0; simpl; [by left|].
    destruct (IH (foldl (fun m cell => Nat.max m (List.length cell)) m0 l))
      as [E|(line & cell & Hl & Hc & E)].
    - rewrite E. destruct (fold_max_attained l m0) as [E'|(cell & Hc & E')].
      + by left.
      + right. exists l, cell. split; [left|]. done.
    - right. exists line, cell. split; [by right|]. done. }
  apply (Hgen 0%nat).
Qed.

Lemma print_line_cons (cell : text) (line : list text) :
  print_line (cell :: line) = cell ++ [" "; "|"; " "]%char ++ print_line line.
Proof. unfold print_line. rewrite flat_map_step. by rewrite <- app_assoc. Qed.

(** In a printed line of cells that all have the same width, column [col]
    shows the cell of that index, and the separator follows it. *)
Lemma print_line_column (width : nat) (cells : list text) :
  Forall (fun x => List.length x = width) cells ->
  forall (col : nat) (cell : text), cells !! col = Some cell ->
    printed_cell width col (print_line cells) = cell /\
    printed_separator width col (print_line cells) = [" "; "|"; " "]%char.
Proof.
  unfold printed_cell, printed_separator.
  induction 1 as [|x cells Hx _ IH]; intros col cell Hcol; [done|].
  rewrite print_line_cons. destruct col as [|col]; simpl in Hcol.
  - injection Hcol as <-. split.
    + change (0 * (width + 3))%nat with 0%nat. rewrite drop_0.
      by rewrite take_app_length'.
    + change (0 * (width + 3) + width)%nat with width.
      by rewrite drop_app_length'.
  - destruct (IH col cell Hcol) as [IH1 IH2].
    assert (Hdrop : forall k,
              drop (S col * (width + 3) + k) (x ++ [" "; "|"; " "]%char ++ print_line cells)
              = drop (col * (width + 3) + k) (print_line cells)).
    { intros k. rewrite app_assoc.
      replace (S col * (width + 3) + k)%nat
        with (List.length (x ++ [" "; "|"; " "]%char) + (col * (width + 3) + k))%nat
        by (rewrite length_app, Hx; simpl; lia).
      by rewrite drop_app_add'. }
    split.
    + specialize (Hdrop 0%nat). rewrite !Nat.add_0_r in Hdrop. by rewrite Hdrop.
    + by rewrite Hdrop.
Qed.

(** The layout of the printed table, on a grid with a row per length and a
    cell per stride. *)
Lemma print_table_layout (to_string_double : float -> text)
    (stride_sizes length_sizes : list Z) (av_result : grid) :
  table (List.length length_sizes) (List.length stride_sizes) av_result ->
  exists lines output,
    print_table to_string_double stride_sizes length_sizes av_result = Ok lines /\
    table_cells to_string_double stride_sizes length_sizes av_result = Ok output /\
    List.length lines = S (List.length stride_sizes) /\
    (forall line cell, line ∈ output -> cell ∈ line ->
       (List.length cell <= max_length output)%nat) /\
    (exists line cell, line ∈ output /\ cell ∈ line /\
       List.length cell = max_length output) /\
    Forall (fun line =>
              List.length line
              = (S (List.length length_sizes) * (max_length output + 3))%nat)
      lines /\
    forall (r c : nat) (row : list text) (cell : text),
      output !! r = Some row -> row !! c = Some cell ->
      exists line,
        lines !! r = Some line /\
        printed_cell (max_length output) c line = pad (max_length output) cell /\
        printed_separator (max_length output) c line = [" "; "|"; " "]%char.
Proof.
  intros Ht. unfold print_table.
  destruct (table_cells_table to_string_double stride_sizes length_sizes av_result Ht)
    as (output & Hout & [Hrows Hcols] & Hhead & _).
  rewrite Hout. cbn [bind]. eexists. exists output.
  split; [done|]. split; [done|]. split; [by rewrite length_map|].
  assert (Hpad : forall line, line ∈ output ->
            Forall (fun x => List.length x = max_length output)
              (map (pad (max_length output)) line)).
  { intros line Hline. apply Forall_forall. intros padded Hpadded.
    apply list_elem_of_fmap in Hpadded as (c & -> & Hc).
    apply length_pad. by eapply max_length_ge. }
  split; [intros line cell; apply max_length_ge|]. split; [|split].
  - destruct (max_length_attained output) as [E|H]; [|done].
    exists (header_row length_sizes), []. rewrite E.
    split; [by eapply list_elem_of_lookup_2|]. split; [left | done].
  - apply Forall_forall. intros printed Hprinted.
    apply list_elem_of_fmap in Hprinted as (line & -> & Hline).
    rewrite (length_print_line (max_length output)) by by apply Hpad.
    rewrite length_map.
    rewrite Forall_forall in Hcols. by rewrite (Hcols line Hline).
  - intros r c row cell Hrow Hcell.
    exists (print_line (map (pad (max_length output)) row)). split.
    + change (map (fun line => print_line (map (pad (max_length output)) line)) output)
        with ((fun line => print_line (map (pad (max_length output)) line)) <$> output).
      by rewrite list_lookup_fmap, Hrow.
    + apply print_line_column.
      * apply Hpad. by eapply list_elem_of_lookup_2.
      * change (map (pad (max_length output)) row)
          with (pad (max_length output) <$> row).
        by rewrite list_lookup_fmap, Hcell.
Qed.

(** X16.  On a grid with a row per length and a cell per stride,
    [print_table] reads no vector out of bounds and prints one line per
    stride after the header line.  The width of a column is the length of
    the longest cell of the table: no cell is longer and one is as long.
    Every line has one column per length after the first, each of that
    width plus three; and column [c] of line [r] shows cell [c] of row [r]
    of the table, followed by spaces up to the width and then by
    [" | "]. *)
Theorem X16_print_table_aligned (to_string_double : float -> text)
    (stride_sizes length_sizes : list Z) (av_result : grid) :
  table (List.length length_sizes) (List.length stride_sizes) av_result ->
  exists lines output,
    print_table to_string_double stride_sizes length_sizes av_result = Ok lines /\
    table_cells to_string_double stride_sizes length_sizes av_result = Ok output /\
    List.length lines = S (List.length stride_sizes) /\
    (forall line cell, line ∈ output -> cell ∈ line ->
       (List.length cell <= max_length output)%nat) /\
    (exists line cell, line ∈ output /\ cell ∈ line /\
       List.length cell = max_length output) /\
    Forall (fun line =>
              List.length line
              = (S (List.length length_sizes) * (max_length output + 3))%nat)
      lines /\
    forall (r c : nat) (row : list text) (cell : text),
      output !! r = Some row -> row !! c = Some cell ->
      exists line,
        lines !! r = Some line /\
        printed_cell (max_length output) c line
        = cell ++ replicate (max_length output - List.length cell) " "%char /\
        printed_separator (max_length output) c line = [" "; "|"; " "]%char.
Proof. apply print_table_layout. Qed.

Lemma X16_print_table_aligned_witness :
  exists lines output,
    print_table (fun x => if PrimFloat.is_nan x then ["n"; "a"; "n"]%char
                          else ["1"; "0"; "."; "0"; "0"]%char)
      main_stride_sizes main_length_sizes late_jump_grid = Ok lines /\
    table_cells (fun x => if PrimFloat.is_nan x then ["n"; "a"; "n"]%char
                          else ["1"; "0"; "."; "0"; "0"]%char)
      main_stride_sizes main_length_sizes late_jump_grid = Ok output /\
    List.length lines = S (List.length main_stride_sizes) /\
    (forall line cell, line ∈ output -> cell ∈ line ->
       (List.length cell <= max_length output)%nat) /\
    (exists line cell, line ∈ output /\ cell ∈ line /\
       List.length cell = max_length output) /\
    Forall (fun line =>
              List.length line
              = (S (List.length main_length_sizes) * (max_length output + 3))%nat)
      lines /\
    forall (r c : nat) (row : list text) (cell : text),
      output !! r = Some row -> row !! c = Some cell ->
      exists line,
        lines !! r = Some line /\
        printed_cell (max_length output) c line
        = cell ++ replicate (max_length output - List.length cell) " "%char /\
        printed_separator (max_length output) c line = [" "; "|"; " "]%char.
Proof.
  apply X16_print_table_aligned. apply table_map_grid.
Defined.

(** X17.  The table is the grid transposed: below the header row (an
    empty corner, then the lengths in kilobytes), the row of stride [i]
    starts with the stride in bytes and shows in column [j + 1] the
    formatted text of [av_result[j][i]], the aggregate of length [j] at
    stride [i]. *)
Theorem X17_table_cells_transposed (to_string_double : float -> text)
    (stride_sizes length_sizes : list Z) (av_result : grid) :
  table (List.length length_sizes) (List.length stride_sizes) av_result ->
  exists output,
    table_cells to_string_double stride_sizes length_sizes av_result = Ok output /\
    table (S (List.length stride_sizes)) (S (List.length length_sizes)) output /\
    output !! 0%nat = Some (header_row length_sizes) /\
    forall (i : nat) stride, stride_sizes !! i = Some stride ->
      exists line,
        output !! S i = Some line /\
        line !! 0%nat = Some (to_string_size (times_sizeof_int stride)) /\
        forall (j : nat) x, cell av_result (Z.of_nat j) (Z.of_nat i) = Ok x ->
          (j < List.length length_sizes)%nat ->
          line !! S j = Some (format_cell (to_string_double x)).
Proof. apply table_cells_table. Qed.

Lemma X17_table_cells_transposed_witness :
  exists output,
    table_cells (fun _ => ["n"; "a"; "n"]%char) main_stride_sizes main_length_sizes
      late_jump_grid = Ok output /\
    table (S (List.length main_stride_sizes)) (S (List.length main_length_sizes))
      output /\
    output !! 0%nat = Some (header_row main_length_sizes) /\
    forall (i : nat) stride, main_stride_sizes !! i = Some stride ->
      exists line,
        output !! S i = Some line /\
        line !! 0%nat = Some (to_string_size (times_sizeof_int stride)) /\
        forall (j : nat) x, cell late_jump_grid (Z.of_nat j) (Z.of_nat i) = Ok x ->
          (j < List.length main_length_sizes)%nat ->
          line !! S j = Some (format_cell ((fun _ => ["n"; "a"; "n"]%char) x)).
Proof.
  apply (X17_table_cells_transposed (fun _ => ["n"; "a"; "n"]%char)).
  apply table_map_grid.
Defined.

(** ** The run of [main] *)

Lemma output_lines_table (table_lines : list text)
    (lines : capacity_line * line_size_line) (r : nat) (line : text) :
  table_lines !! r = Some line ->
  output_lines table_lines lines !! (2 + r)%nat = Some line.
Proof.
  intros Hr. unfold output_lines. simpl. by apply lookup_app_l_Some.
Qed.

(** A NaN cell of the grid in the printed table: line [j + 1] (the line of
    stride [j]) shows in column [i + 1] (the column of length [i]) the
    text of a NaN, then spaces up to the width of the table. *)
Lemma nan_cell_printed (to_string_double : float -> text)
    (stride_sizes length_sizes : list Z) (av_result : grid) (i j : nat) :
  table (List.length length_sizes) (List.length stride_sizes) av_result ->
  (i < List.length length_sizes)%nat -> (j < List.length stride_sizes)%nat ->
  cell av_result (Z.of_nat i) (Z.of_nat j) = Ok PrimFloat.nan ->
  exists lines output line,
    print_table to_string_double stride_sizes length_sizes av_result = Ok lines /\
    table_cells to_string_double stride_sizes length_sizes av_result = Ok output /\
    lines !! S j = Some line /\
    printed_cell (max_length output) (S i) line
    = format_cell (to_string_double PrimFloat.nan)
      ++ replicate (max_length output
                    - List.length (format_cell (to_string_double PrimFloat.nan)))
           " "%char.
Proof.
  intros Ht Hi Hj Hnan.
  destruct (print_table_layout to_string_double stride_sizes length_sizes av_result Ht)
    as (lines & output & Hprint & Hout & _ & _ & _ & _ & Hshow).
  destruct (table_cells_table to_string_double stride_sizes length_sizes av_result Ht)
    as (output' & Hout' & _ & _ & Hrows).
  rewrite Hout in Hout'. apply Ok_inj in Hout'. subst output'.
  destruct (lookup_lt_is_Some_2 stride_sizes j Hj) as [stride Hstride].
  destruct (Hrows j stride Hstride) as (row & Hrow & _ & Hcells).
  specialize (Hcells i PrimFloat.nan Hnan Hi).
  destruct (Hshow (S j) (S i) row _ Hrow Hcells) as (line & Hline & Hcell & _).
  exists lines, output, line. done.
Qed.

Lemma main_completes (to_string_double : float -> text) (fuel : nat)
    (env : Z -> Z -> Z -> cell_env) :
  (10 <= fuel)%nat ->
  (forall t i j, well_behaved (env t i j)) ->
  exists av_result lines table_lines,
    main to_string_double fuel env
    = Some (Ok (output_lines table_lines lines, av_result, lines)) /\
    table 10 9 av_result /\
    print_table to_string_double main_stride_sizes main_length_sizes av_result
    = Ok table_lines /\
    List.length table_lines = 10%nat /\
    report main_stride_sizes main_length_sizes av_result = Ok lines /\
    forall i j length stride,
      at_index main_length_sizes i = Ok length ->
      at_index main_stride_sizes j = Ok stride ->
      if 4 <? Z.quot length stride
      then exists a,
             (average ((fun t => Z.quot (elapsed (env t i j)) (Z.quot length stride))
                         <$> seqZ 0 100)).2 = Ok a /\
             cell av_result i j = Ok a
      else cell av_result i j = Ok PrimFloat.nan.
Proof.
  intros Hfuel Henv. unfold main.
  rewrite stride_sizes_value, length_sizes_value by lia.
  fold main_stride_sizes main_length_sizes.
  destruct grid_positive as [Hs Hl].
  destruct (collect_good env main_stride_sizes main_length_sizes Henv Hs Hl)
    as (results & -> & Ht & Hcells).
  assert (Hsmall : forall i j,
            Z.of_nat (List.length (samples_of results i j)) <= 65536).
  { intros i j.
    destruct (at_index main_length_sizes i) as [length|] eqn:Hl';
      [destruct (at_index main_stride_sizes j) as [gap|] eqn:Hs'|].
    - rewrite (Hcells i j length gap Hl' Hs').
      destruct (4 <? _); [|simpl; lia].
      rewrite length_fmap, length_seqZ. unfold trials. lia.
    - rewrite (samples_of_outside 10 9); [simpl; lia | done |].
      right. intros Hj. destruct (at_index_in_range main_stride_sizes (Z.to_nat j))
        as [x Hx]; [simpl; lia|].
      rewrite Z2Nat.id in Hx by lia. congruence.
    - rewrite (samples_of_outside 10 9); [simpl; lia | done |].
      left. intros Hi. destruct (at_index_in_range main_length_sizes (Z.to_nat i))
        as [x Hx]; [simpl; lia|].
      rewrite Z2Nat.id in Hx by lia. congruence. }
  destruct (aggregate_table _ _ results Ht Hsmall) as (av & Hav & Htav).
  rewrite Hav. cbn [bind].
  destruct (print_table_layout to_string_double main_stride_sizes main_length_sizes
              av Htav) as (table_lines & output & Hprint & _ & Hlines & _).
  rewrite Hprint. cbn [bind].
  destruct (report_lines main_stride_sizes main_length_sizes av 10 9 Htav)
    as (first & second & Hrep & _); [simpl; lia..| vm_compute; discriminate |].
  rewrite Hrep. cbn [bind].
  exists av, (first, second), table_lines.
  split; [done|]. split; [done|]. split; [done|]. split; [done|]. split; [done|].
  intros i j length stride Hi Hj.
  pose proof Hi as [Hi0 Hil]%at_index_Ok. pose proof Hj as [Hj0 Hjl]%at_index_Ok.
  apply lookup_lt_Some in Hil. apply lookup_lt_Some in Hjl.
  assert (Hcell : cell_opt results i j = Some (samples_of results i j)).
  { apply (cell_opt_table 10 9); [done| |]; simpl in *; lia. }
  rewrite (Hcells i j length stride Hi Hj) in Hcell.
  destruct (4 <? Z.quot length stride).
  - destruct (aggregate_cell results av i j _ Hav Hi0 Hj0 Hcell) as (a & Ha & Hc).
    by exists a.
  - destruct (aggregate_cell results av i j _ Hav Hi0 Hj0 Hcell) as (a & Ha & Hc).
    simpl in Ha. injection Ha as <-. done.
Qed.

(** X12.  With enough fuel for the two loops of [main], in every
    environment where shuffles permute and allocations succeed, and
    whatever the decimal text of a double is, the run completes without a
    fault: the sweeps, the aggregation, [print_table] and the two scans
    read nothing out of bounds.  The aggregated grid has one row per
    length and one cell per stride; a cell with [length / stride <= 4]
    holds NaN, every other cell holds the aggregate of the 100 per-step
    times measured for it.  The run writes the two opening lines, the ten
    lines of the table of that grid, the two lines [report] derives from
    the grid and the closing line. *)
Theorem X12_main_completes (to_string_double : float -> text) (fuel : nat)
    (env : Z -> Z -> Z -> cell_env) :
  (10 <= fuel)%nat ->
  (forall t i j, well_behaved (env t i j)) ->
  exists av_result lines table_lines,
    main to_string_double fuel env
    = Some (Ok (output_lines table_lines lines, av_result, lines)) /\
    table 10 9 av_result /\
    print_table to_string_double main_stride_sizes main_length_sizes av_result
    = Ok table_lines /\
    List.length table_lines = 10%nat /\
    report main_stride_sizes main_length_sizes av_result = Ok lines /\
    forall i j length stride,
      at_index main_length_sizes i = Ok length ->
      at_index main_stride_sizes j = Ok stride ->
      if 4 <? Z.quot length stride
      then exists a,
             (average ((fun t => Z.quot (elapsed (env t i j)) (Z.quot length stride))
                         <$> seqZ 0 100)).2 = Ok a /\
             cell av_result i j = Ok a
      else cell av_result i j = Ok PrimFloat.nan.
Proof. apply main_completes. Qed.

Lemma X12_main_completes_witness :
  exists av_result lines table_lines,
    main (fun x => if PrimFloat.is_nan x then ["n"; "a"; "n"]%char
                   else ["1"; "0"; "."; "0"; "0"]%char)
      10 (fun t i j => CellEnv (@rev Z) (fun _ => true) (1000 + t))
    = Some (Ok (output_lines table_lines lines, av_result, lines)) /\
    table 10 9 av_result /\
    print_table (fun x => if PrimFloat.is_nan x then ["n"; "a"; "n"]%char
                          else ["1"; "0"; "."; "0"; "0"]%char)
      main_stride_sizes main_length_sizes av_result
    = Ok table_lines /\
    List.length table_lines = 10%nat /\
    report main_stride_sizes main_length_sizes av_result = Ok lines /\
    forall i j length stride,
      at_index main_length_sizes i = Ok length ->
      at_index main_stride_sizes j = Ok stride ->
      if 4 <? Z.quot length stride
      then exists a,
             (average ((fun t => Z.quot
                                   (elapsed (CellEnv (@rev Z) (fun _ => true) (1000 + t)))
                                   (Z.quot length stride))
                         <$> seqZ 0 100)).2 = Ok a /\
             cell av_result i j = Ok a
      else cell av_result i j = Ok PrimFloat.nan.
Proof.
  apply (X12_main_completes
           (fun x => if PrimFloat.is_nan x then ["n"; "a"; "n"]%char
                     else ["1"; "0"; "."; "0"; "0"]%char)
           10 (fun t i j => CellEnv (@rev Z) (fun _ => true) (1000 + t))).
  - lia.
  - intros t i j. apply well_behaved_rev.
Defined.

(** X13.  A run in which the capacity breakpoint is missed: when the
    time per step is 10 for every length but the last and 13 for the last,
    the aggregated grid has its only jump above 1.2 between the last two
    lengths, and [main] prints, after the table of that grid, "Cache length
    not found" (and "Cache line length not found"), because its capacity
    scan stops one length short. *)
Theorem X13_main_misses_last_breakpoint (to_string_double : float -> text)
    (fuel : nat) (env : Z -> Z -> Z -> cell_env) :
  (10 <= fuel)%nat ->
  (forall t i j, well_behaved (env t i j)) ->
  (forall t i j length stride,
     at_index main_length_sizes i = Ok length ->
     at_index main_stride_sizes j = Ok stride ->
     elapsed (env t i j)
     = (if length =? 131072 then 13 else 10) * Z.quot length stride) ->
  exists table_lines,
    print_table to_string_double main_stride_sizes main_length_sizes late_jump_grid
    = Ok table_lines /\
    main to_string_double fuel env
    = Some (Ok ([literal Message.banner; literal Message.results_header]
                ++ table_lines
                ++ [literal Message.capacity_not_found;
                    literal Message.line_size_not_found;
                    literal Message.trailer],
                late_jump_grid,
                (CacheLengthNotFound, CacheLineLengthNotFound))).
Proof.
  intros Hfuel Henv Helapsed.
  destruct (main_completes to_string_double fuel env Hfuel Henv)
    as (av & lines & table_lines & Hmain & Htable & Hprint & _ & Hreport & Hcells).
  assert (Hav : av = late_jump_grid).
  { apply (grid_ext 10 9); [done | apply table_map_grid |].
    intros i j Hi Hj.
    destruct (at_index_in_range main_length_sizes (Z.to_nat i))
      as [length Hl]; [simpl; lia|].
    destruct (at_index_in_range main_stride_sizes (Z.to_nat j))
      as [stride Hs]; [simpl; lia|].
    rewrite Z2Nat.id in Hl, Hs by lia.
    unfold late_jump_grid. rewrite (cell_map_grid _ _ _ _ _ _ _ Hl Hs).
    specialize (Hcells i j length stride Hl Hs).
    destruct (Z.ltb_spec 4 (Z.quot length stride)) as [Hq|Hq]; [|done].
    destruct Hcells as (a & Ha & ->). f_equal.
    rewrite (fmap_constant _ (if length =? 131072 then 13 else 10)) in Ha.
    2:{ intros t. rewrite (Helapsed t i j length stride Hl Hs).
        apply Z.quot_mul. lia. }
    destruct (length =? 131072); vm_compute in Ha; by apply Ok_inj in Ha. }
  subst av. exists table_lines. split; [done|]. rewrite Hmain.
  assert (Hrep : report main_stride_sizes main_length_sizes late_jump_grid
                 = Ok (CacheLengthNotFound, CacheLineLengthNotFound))
    by (vm_compute; reflexivity).
  rewrite Hrep in Hreport. apply Ok_inj in Hreport. by subst lines.
Qed.

Lemma X13_main_misses_last_breakpoint_witness :
  exists table_lines,
    print_table (fun x => if PrimFloat.is_nan x then ["n"; "a"; "n"]%char
                          else ["1"; "0"; "."; "0"; "0"]%char)
      main_stride_sizes main_length_sizes late_jump_grid
    = Ok table_lines /\
    main (fun x => if PrimFloat.is_nan x then ["n"; "a"; "n"]%char
                   else ["1"; "0"; "."; "0"; "0"]%char)
      10 (fun t i j =>
            CellEnv (@rev Z) (fun _ => true)
              ((if 9 <=? i then 13 else 10) * Z.quot (2 ^ (8 + i)) (2 ^ j)))
    = Some (Ok ([literal Message.banner; literal Message.results_header]
                ++ table_lines
                ++ [literal Message.capacity_not_found;
                    literal Message.line_size_not_found;
                    literal Message.trailer],
                late_jump_grid,
                (CacheLengthNotFound, CacheLineLengthNotFound))).
Proof.
  apply X13_main_misses_last_breakpoint.
  - lia.
  - intros t i j. apply well_behaved_rev.
  - intros t i j length stride Hi Hj. simpl.
    apply at_index_Ok in Hi as [Hi0 Hi]. apply at_index_Ok in Hj as [Hj0 Hj].
    pose proof (lookup_lt_Some _ _ _ Hi) as Hil.
    pose proof (lookup_lt_Some _ _ _ Hj) as Hjl. simpl in Hil, Hjl.
    assert (Hic : i = 0 \/ i = 1 \/ i = 2 \/ i = 3 \/ i = 4 \/ i = 5 \/ i = 6 \/
                  i = 7 \/ i = 8 \/ i = 9) by lia.
    assert (Hjc : j = 0 \/ j = 1 \/ j = 2 \/ j = 3 \/ j = 4 \/ j = 5 \/ j = 6 \/
                  j = 7 \/ j = 8) by lia.
    repeat (destruct Hic as [->|Hic]); try subst i;
      repeat (destruct Hjc as [->|Hjc]); try subst j;
      vm_compute in Hi, Hj; injection Hi as <-; injection Hj as <-; reflexivity.
Defined.

(** C7.  The aggregate of a cell with no samples is NaN, which is neither
    zero nor any other finite number; this is the value that the aggregated
    grid holds for every cell without samples, and the value [print_table]
    shows for it: in the printed table, the line of the cell's stride
    shows, in the column of the cell's length, the text that
    [std::to_string] gives for a NaN (whole, when that text has no dot),
    followed by spaces up to the width of the table.  In a run of [main]
    this holds for every cell with [length / stride <= 4]. *)
Theorem C7_empty_cell_is_nan :
  (average []).2 = Ok PrimFloat.nan /\
  PrimFloat.is_nan PrimFloat.nan = true /\
  PrimFloat.is_zero PrimFloat.nan = false /\
  PrimFloat.is_finite PrimFloat.nan = false /\
  (forall (results : samples) (av_result : grid) (i j : Z),
     aggregate results = Ok av_result ->
     0 <= i -> 0 <= j ->
     cell_opt results i j = Some [] ->
     cell av_result i j = Ok PrimFloat.nan) /\
  (forall (to_string_double : float -> text) (stride_sizes length_sizes : list Z)
          (av_result : grid) (i j : nat),
     table (List.length length_sizes) (List.length stride_sizes) av_result ->
     (i < List.length length_sizes)%nat -> (j < List.length stride_sizes)%nat ->
     cell av_result (Z.of_nat i) (Z.of_nat j) = Ok PrimFloat.nan ->
     exists lines output line,
       print_table to_string_double stride_sizes length_sizes av_result = Ok lines /\
       table_cells to_string_double stride_sizes length_sizes av_result = Ok output /\
       lines !! S j = Some line /\
       printed_cell (max_length output) (S i) line
       = format_cell (to_string_double PrimFloat.nan)
         ++ replicate (max_length output
                       - List.length (format_cell (to_string_double PrimFloat.nan)))
              " "%char /\
       (Z.of_nat (List.length (to_string_double PrimFloat.nan)) < 2 ^ 64 ->
        "."%char ∉ to_string_double PrimFloat.nan ->
        format_cell (to_string_double PrimFloat.nan)
        = to_string_double PrimFloat.nan)) /\
  (forall (to_string_double : float -> text) (fuel : nat)
          (env : Z -> Z -> Z -> cell_env) (i j : nat) (length stride : Z),
     (10 <= fuel)%nat ->
     (forall t i j, well_behaved (env t i j)) ->
     main_length_sizes !! i = Some length ->
     main_stride_sizes !! j = Some stride ->
     Z.quot length stride <= 4 ->
     exists out av_result lines output line,
       main to_string_double fuel env = Some (Ok (out, av_result, lines)) /\
       cell av_result (Z.of_nat i) (Z.of_nat j) = Ok PrimFloat.nan /\
       table_cells to_string_double main_stride_sizes main_length_sizes av_result
       = Ok output /\
       out !! (2 + S j)%nat = Some line /\
       printed_cell (max_length output) (S i) line
       = format_cell (to_string_double PrimFloat.nan)
         ++ replicate (max_length output
                       - List.length (format_cell (to_string_double PrimFloat.nan)))
              " "%char).
Proof.
  split; [done|]. split; [done|]. split; [done|]. split; [done|].
  split; [|split].
  - intros results av_result i j Hrun Hi Hj Hcell.
    destruct (aggregate_cell results av_result i j [] Hrun Hi Hj Hcell)
      as (a & Ha & Hcell').
    simpl in Ha. by injection Ha as <-.
  - intros to_string_double stride_sizes length_sizes av_result i j Ht Hi Hj Hnan.
    destruct (nan_cell_printed to_string_double stride_sizes length_sizes av_result
                i j Ht Hi Hj Hnan) as (lines & output & line & H1 & H2 & H3 & H4).
    exists lines, output, line.
    split; [done|]. split; [done|]. split; [done|]. split; [done|].
    apply format_cell_whole.
  - intros to_string_double fuel env i j length stride Hfuel Henv Hi Hj Hq.
    destruct (main_completes to_string_double fuel env Hfuel Henv)
      as (av & lines & table_lines & Hmain & Htable & Hprint & _ & _ & Hcells).
    assert (Hnan : cell av (Z.of_nat i) (Z.of_nat j) = Ok PrimFloat.nan).
    { specialize (Hcells (Z.of_nat i) (Z.of_nat j) length stride).
      rewrite !at_index_lookup, Hi, Hj in Hcells.
      specialize (Hcells eq_refl eq_refl).
      by destruct (Z.ltb_spec 4 (Z.quot length stride)); [lia|]. }
    destruct (nan_cell_printed to_string_double main_stride_sizes main_length_sizes
                av i j Htable) as (lines' & output & line & H1 & H2 & H3 & H4).
    { by eapply lookup_lt_Some. }
    { by eapply lookup_lt_Some. }
    { done. }
    rewrite Hprint in H1. apply Ok_inj in H1. subst lines'.
    exists (output_lines table_lines lines), av, lines, output, line.
    split; [done|]. split; [done|]. split; [done|]. split; [|done].
    by apply output_lines_table.
Qed.

Lemma C7_empty_cell_is_nan_witness :
  (average []).2 = Ok PrimFloat.nan /\
  PrimFloat.is_nan PrimFloat.nan = true /\
  PrimFloat.is_zero PrimFloat.nan = false /\
  PrimFloat.is_finite PrimFloat.nan = false /\
  cell [[4%float; PrimFloat.nan]] 0 1 = Ok PrimFloat.nan /\
  (exists lines output line,
     print_table (fun x => if PrimFloat.is_nan x then ["n"; "a"; "n"]%char
                           else ["4"; "."; "0"; "0"]%char)
       [1; 2] [8] [[4%float; PrimFloat.nan]] = Ok lines /\
     table_cells (fun x => if PrimFloat.is_nan x then ["n"; "a"; "n"]%char
                           else ["4"; "."; "0"; "0"]%char)
       [1; 2] [8] [[4%float; PrimFloat.nan]] = Ok output /\
     lines !! 2%nat = Some line /\
     printed_cell (max_length output) 1 line
     = ["n"; "a"; "n"]%char ++ replicate (max_length output - 3) " "%char) /\
  (exists out av_result lines output line,
     main (fun x => if PrimFloat.is_nan x then ["n"; "a"; "n"]%char
                    else ["4"; "."; "0"; "0"]%char)
       10 (fun t i j => CellEnv (@rev Z) (fun _ => true) (1000 + t))
     = Some (Ok (out, av_result, lines)) /\
     cell av_result 0 6 = Ok PrimFloat.nan /\
     table_cells (fun x => if PrimFloat.is_nan x then ["n"; "a"; "n"]%char
                           else ["4"; "."; "0"; "0"]%char)
       main_stride_sizes main_length_sizes av_result = Ok output /\
     out !! 9%nat = Some line /\
     printed_cell (max_length output) 1 line
     = ["n"; "a"; "n"]%char ++ replicate (max_length output - 3) " "%char).
Proof.
  destruct C7_empty_cell_is_nan as (H1 & H2 & H3 & H4 & H5 & H6 & H7).
  split; [exact H1|]. split; [exact H2|]. split; [exact H3|]. split; [exact H4|].
  split; [|split].
  - apply (H5 [[[7; 3; 5; 9; 1]; []]] [[4%float; PrimFloat.nan]] 0 1).
    + vm_compute. reflexivity.
    + lia.
    + lia.
    + reflexivity.
  - destruct (H6 (fun x => if PrimFloat.is_nan x then ["n"; "a"; "n"]%char
                           else ["4"; "."; "0"; "0"]%char)
                [1; 2] [8] [[4%float; PrimFloat.nan]] 0%nat 1%nat)
      as (lines & output & line & E1 & E2 & E3 & E4 & _).
    + split; [reflexivity|]. repeat constructor.
    + simpl. lia.
    + simpl. lia.
    + reflexivity.
    + exists lines, output, line.
      split; [exact E1|]. split; [exact E2|]. split; [exact E3|]. exact E4.
  - destruct (H7 (fun x => if PrimFloat.is_nan x then ["n"; "a"; "n"]%char
                           else ["4"; "."; "0"; "0"]%char)
                10%nat (fun t i j => CellEnv (@rev Z) (fun _ => true) (1000 + t))
                0%nat 6%nat 256 64)
      as (out & av & lines & output & line & E1 & E2 & E3 & E4 & E5).
    + lia.
    + intros t i j. apply well_behaved_rev.
    + reflexivity.
    + reflexivity.
    + vm_compute. discriminate.
    + exists out, av, lines, output, line.
      split; [exact E1|]. split; [exact E2|]. split; [exact E3|].
      split; [exact E4|]. exact E5.
Defined.

(** ** The order of the walk *)

(** X18.  The cycle follows the shuffled order: after [create_cycle],
    the slots reached from slot 0 in [length] steps are, in order, the
    entries of the shuffled vector [indices] (the permutation of
    [1 .. length - 1] followed by 0), and decoding the value stored at any
    slot and encoding it again gives back the stored value. *)
Theorem X18_walk_follows_shuffle
    (shuffle : list Z -> list Z) (length stride len : Z) (cells : gmap Z Z) :
  (forall l, shuffle l ≡ₚ l) ->
  1 <= length -> 1 <= stride ->
  (length - 1) * stride <= Int.max_int ->
  (length - 1) * stride < len ->
  exists m',
    create_cycle shuffle (Block len cells) length stride = Ok m' /\
    follow (Z.to_nat length) m' stride 0 = Ok (shuffle (seqZ 1 (length - 1)) ++ [0]) /\
    forall p, 0 <= p < length ->
      exists v q,
        load m' (p * stride) = Ok v /\
        next_slot m' stride p = Ok q /\ 0 <= q < length /\
        Int.xor (Int.mul q stride) mask = v.
Proof.
  intros Hperm Hlength Hstride Hfit Hroom.
  destruct (create_cycle_spec shuffle Hperm length stride len
              Hlength Hstride Hfit Hroom cells) as (cells' & Hrun & Hedge & _).
  set (perm := shuffle (seqZ 1 (length - 1))) in *.
  exists (Block len cells'). split; [done|]. split.
  - rewrite <- (perm_length shuffle Hperm length stride Hlength Hstride). fold perm.
    apply (follow_chain stride len length Hstride Hfit Hroom cells'
             (0 :: perm ++ [0])) with (pre := []); [|done|done].
    intros p [->|Hp]%elem_of_cons; [lia|].
    unfold perm in Hp.
    rewrite (perm_all_slots shuffle Hperm length Hlength) in Hp.
    apply elem_of_seqZ in Hp. lia.
  - intros p Hp.
    destruct (create_cycle_closed shuffle Hperm length stride len
                Hlength Hstride Hfit Hroom cells cells' Hrun (p * stride))
      as (Hrange & v & Hv & q & Hq & Hdec); [by exists p|].
    exists v, q. unfold next_slot, load.
    destruct (Z.leb_spec 0 (p * stride)); [|lia].
    destruct (Z.ltb_spec (p * stride) len); [|lia]. simpl. rewrite Hv. simpl.
    split; [done|]. rewrite Hdec, Z.quot_mul by lia. split; [done|].
    split; [done|].
    rewrite (mul_slot stride length Hstride Hfit q Hq), <- Hdec.
    apply xor_mask_twice.
Qed.

Lemma X18_walk_follows_shuffle_witness :
  exists m',
    create_cycle (@rev Z) (Block 10 ∅) 5 2 = Ok m' /\
    follow (Z.to_nat 5) m' 2 0 = Ok (rev (seqZ 1 (5 - 1)) ++ [0]) /\
    forall p, 0 <= p < 5 ->
      exists v q,
        load m' (p * 2) = Ok v /\
        next_slot m' 2 p = Ok q /\ 0 <= q < 5 /\
        Int.xor (Int.mul q 2) mask = v.
Proof.
  apply X18_walk_follows_shuffle.
  - intros l. symmetry. apply Permutation_rev.
  - lia.
  - lia.
  - vm_compute. discriminate.
  - lia.
Defined.
